(** * Request preparation core of the OCF cache engine

    Shallow embedding of [src/engine/engine_common.c]: per-entry lookup in
    the collision hash index, traversal, mapping and its unwind, the
    [prepare_clines] pipeline with its lock discipline, the refresh check
    run on resume and the cleaner handoff.

    The file knows the rest of the cache only through calls (metadata
    accessors, free list, eviction, promotion, cache-line concurrency).
    Those collaborators are gathered in the class [Consumed]; every result
    below holds for all implementations of it. *)

From Stdlib Require Import ZArith Lia Bool.
From stdpp Require Import base tactics option list numbers.

Local Open Scope Z_scope.

(** ** Machine integers *)

(** [unsigned int] / [uint32_t] arithmetic wraps modulo 2^32. *)
Definition u32 (x : Z) : Z := x mod 2 ^ 32.

(** [uint64_t] arithmetic wraps modulo 2^64. *)
Definition u64 (x : Z) : Z := x mod 2 ^ 64.

Definition UINT64_MAX : Z := 2 ^ 64 - 1.

(** ** Data model *)

(** Lookup status of one core line of a request ([LOOKUP_*]). *)
Inductive lookup_status :=
| LOOKUP_HIT
| LOOKUP_MISS
| LOOKUP_INSERTED
| LOOKUP_REMAPPED.

#[global] Instance lookup_status_eq_dec : EqDecision lookup_status.
Proof. solve_decision. Defined.

(** [struct ocf_map_info]: the per core line slot of a request. *)
Record ocf_map_info := {
  hash : Z;
  coll_idx : Z;
  core_line : Z;
  core_id : Z;
  status : lookup_status;
  re_part : bool;
  invalid : bool
}.

Definition set_status (v : lookup_status) (e : ocf_map_info) : ocf_map_info :=
  {| hash := hash e; coll_idx := coll_idx e; core_line := core_line e;
     core_id := core_id e; status := v; re_part := re_part e;
     invalid := invalid e |}.

Definition set_coll_idx (v : Z) (e : ocf_map_info) : ocf_map_info :=
  {| hash := hash e; coll_idx := v; core_line := core_line e;
     core_id := core_id e; status := status e; re_part := re_part e;
     invalid := invalid e |}.

Definition set_hash (v : Z) (e : ocf_map_info) : ocf_map_info :=
  {| hash := v; coll_idx := coll_idx e; core_line := core_line e;
     core_id := core_id e; status := status e; re_part := re_part e;
     invalid := invalid e |}.

Definition set_re_part (v : bool) (e : ocf_map_info) : ocf_map_info :=
  {| hash := hash e; coll_idx := coll_idx e; core_line := core_line e;
     core_id := core_id e; status := status e; re_part := v;
     invalid := invalid e |}.

Definition set_invalid (v : bool) (e : ocf_map_info) : ocf_map_info :=
  {| hash := hash e; coll_idx := coll_idx e; core_line := core_line e;
     core_id := core_id e; status := status e; re_part := re_part e;
     invalid := v |}.

(** [struct ocf_req_info]: the aggregate of a request.  The counters are
    [unsigned int]; [mapping_error] and [internal] are one-bit flags of the
    same struct. *)
Record ocf_req_info := {
  hit_no : Z;
  invalid_no : Z;
  re_part_no : Z;
  seq_no : Z;
  insert_no : Z;
  dirty_all : Z;
  dirty_any : Z;
  mapping_error : bool;
  internal : bool
}.

Definition incr_hit_no (i : ocf_req_info) : ocf_req_info :=
  {| hit_no := u32 (hit_no i + 1); invalid_no := invalid_no i;
     re_part_no := re_part_no i; seq_no := seq_no i;
     insert_no := insert_no i; dirty_all := dirty_all i;
     dirty_any := dirty_any i; mapping_error := mapping_error i;
     internal := internal i |}.

Definition incr_invalid_no (i : ocf_req_info) : ocf_req_info :=
  {| hit_no := hit_no i; invalid_no := u32 (invalid_no i + 1);
     re_part_no := re_part_no i; seq_no := seq_no i;
     insert_no := insert_no i; dirty_all := dirty_all i;
     dirty_any := dirty_any i; mapping_error := mapping_error i;
     internal := internal i |}.

Definition incr_re_part_no (i : ocf_req_info) : ocf_req_info :=
  {| hit_no := hit_no i; invalid_no := invalid_no i;
     re_part_no := u32 (re_part_no i + 1); seq_no := seq_no i;
     insert_no := insert_no i; dirty_all := dirty_all i;
     dirty_any := dirty_any i; mapping_error := mapping_error i;
     internal := internal i |}.

Definition incr_seq_no (i : ocf_req_info) : ocf_req_info :=
  {| hit_no := hit_no i; invalid_no := invalid_no i;
     re_part_no := re_part_no i; seq_no := u32 (seq_no i + 1);
     insert_no := insert_no i; dirty_all := dirty_all i;
     dirty_any := dirty_any i; mapping_error := mapping_error i;
     internal := internal i |}.

Definition incr_insert_no (i : ocf_req_info) : ocf_req_info :=
  {| hit_no := hit_no i; invalid_no := invalid_no i;
     re_part_no := re_part_no i; seq_no := seq_no i;
     insert_no := u32 (insert_no i + 1); dirty_all := dirty_all i;
     dirty_any := dirty_any i; mapping_error := mapping_error i;
     internal := internal i |}.

Definition incr_dirty_all (i : ocf_req_info) : ocf_req_info :=
  {| hit_no := hit_no i; invalid_no := invalid_no i;
     re_part_no := re_part_no i; seq_no := seq_no i;
     insert_no := insert_no i; dirty_all := u32 (dirty_all i + 1);
     dirty_any := dirty_any i; mapping_error := mapping_error i;
     internal := internal i |}.

Definition incr_dirty_any (i : ocf_req_info) : ocf_req_info :=
  {| hit_no := hit_no i; invalid_no := invalid_no i;
     re_part_no := re_part_no i; seq_no := seq_no i;
     insert_no := insert_no i; dirty_all := dirty_all i;
     dirty_any := u32 (dirty_any i + 1); mapping_error := mapping_error i;
     internal := internal i |}.

Definition set_mapping_error (v : bool) (i : ocf_req_info) : ocf_req_info :=
  {| hit_no := hit_no i; invalid_no := invalid_no i;
     re_part_no := re_part_no i; seq_no := seq_no i;
     insert_no := insert_no i; dirty_all := dirty_all i;
     dirty_any := dirty_any i; mapping_error := v;
     internal := internal i |}.

(** The two assignments [dirty_any = 0; dirty_all = 0] of the cleaning
    completion. *)
Definition clear_dirty (i : ocf_req_info) : ocf_req_info :=
  {| hit_no := hit_no i; invalid_no := invalid_no i;
     re_part_no := re_part_no i; seq_no := seq_no i;
     insert_no := insert_no i; dirty_all := 0;
     dirty_any := 0; mapping_error := mapping_error i;
     internal := internal i |}.

(** Modelled from the spec: [ocf_req_clear_info] (ocf_request.h is not
    under src/); "clear_info(req) zeroes the aggregate", and the aggregate
    holds the [mapping_error] flag. *)
Definition cleared_info : ocf_req_info :=
  {| hit_no := 0; invalid_no := 0; re_part_no := 0; seq_no := 0;
     insert_no := 0; dirty_all := 0; dirty_any := 0;
     mapping_error := false; internal := false |}.

(** [const struct ocf_io_if *]: the refresh interface of this file, or the
    interface of some engine, named by a handle. *)
Inductive ocf_io_if :=
| _io_if_refresh
| io_if_engine (id : Z).

#[global] Instance ocf_io_if_eq_dec : EqDecision ocf_io_if.
Proof. solve_decision. Defined.

(** [enum ocf_engine_lock_type]. *)
Inductive ocf_engine_lock_type :=
| ocf_engine_lock_none
| ocf_engine_lock_write
| ocf_engine_lock_read.

(** [struct ocf_request], the fields this file reads or writes.  [req_map]
    is the array [map], [req_error] the field [error]; [core] is the id
    that [ocf_core_get_id(req->core)] returns; [io_if], [priv] and
    [io_queue] are pointers and may be NULL; [engine_cbs] names the
    callback table. *)
Record ocf_request := {
  req_map : list ocf_map_info;
  info : ocf_req_info;
  core : Z;
  core_line_first : Z;
  core_line_last : Z;
  core_line_count : Z;
  part_id : Z;
  part_evict : bool;
  rw : Z;
  req_error : Z;
  io_if : option ocf_io_if;
  priv : option ocf_io_if;
  io_queue : option Z;
  engine_cbs : Z;
  byte_position : Z;
  byte_length : Z
}.

Definition set_req_map (v : list ocf_map_info) (r : ocf_request) : ocf_request :=
  {| req_map := v; info := info r; core := core r;
     core_line_first := core_line_first r; core_line_last := core_line_last r;
     core_line_count := core_line_count r; part_id := part_id r;
     part_evict := part_evict r; rw := rw r; req_error := req_error r;
     io_if := io_if r; priv := priv r; io_queue := io_queue r;
     engine_cbs := engine_cbs r; byte_position := byte_position r;
     byte_length := byte_length r |}.

Definition set_info (v : ocf_req_info) (r : ocf_request) : ocf_request :=
  {| req_map := req_map r; info := v; core := core r;
     core_line_first := core_line_first r; core_line_last := core_line_last r;
     core_line_count := core_line_count r; part_id := part_id r;
     part_evict := part_evict r; rw := rw r; req_error := req_error r;
     io_if := io_if r; priv := priv r; io_queue := io_queue r;
     engine_cbs := engine_cbs r; byte_position := byte_position r;
     byte_length := byte_length r |}.

Definition set_part_evict (v : bool) (r : ocf_request) : ocf_request :=
  {| req_map := req_map r; info := info r; core := core r;
     core_line_first := core_line_first r; core_line_last := core_line_last r;
     core_line_count := core_line_count r; part_id := part_id r;
     part_evict := v; rw := rw r; req_error := req_error r;
     io_if := io_if r; priv := priv r; io_queue := io_queue r;
     engine_cbs := engine_cbs r; byte_position := byte_position r;
     byte_length := byte_length r |}.

Definition set_req_error (v : Z) (r : ocf_request) : ocf_request :=
  {| req_map := req_map r; info := info r; core := core r;
     core_line_first := core_line_first r; core_line_last := core_line_last r;
     core_line_count := core_line_count r; part_id := part_id r;
     part_evict := part_evict r; rw := rw r; req_error := v;
     io_if := io_if r; priv := priv r; io_queue := io_queue r;
     engine_cbs := engine_cbs r; byte_position := byte_position r;
     byte_length := byte_length r |}.

Definition set_io_if (v : option ocf_io_if) (r : ocf_request) : ocf_request :=
  {| req_map := req_map r; info := info r; core := core r;
     core_line_first := core_line_first r; core_line_last := core_line_last r;
     core_line_count := core_line_count r; part_id := part_id r;
     part_evict := part_evict r; rw := rw r; req_error := req_error r;
     io_if := v; priv := priv r; io_queue := io_queue r;
     engine_cbs := engine_cbs r; byte_position := byte_position r;
     byte_length := byte_length r |}.

Definition set_priv (v : option ocf_io_if) (r : ocf_request) : ocf_request :=
  {| req_map := req_map r; info := info r; core := core r;
     core_line_first := core_line_first r; core_line_last := core_line_last r;
     core_line_count := core_line_count r; part_id := part_id r;
     part_evict := part_evict r; rw := rw r; req_error := req_error r;
     io_if := io_if r; priv := v; io_queue := io_queue r;
     engine_cbs := engine_cbs r; byte_position := byte_position r;
     byte_length := byte_length r |}.

(** [struct ocf_cleaner_attribs] as [ocf_engine_clean] fills it in.  The
    completion context is the request and the getter context is the record
    itself; both are implicit here. *)
Record ocf_cleaner_attribs := {
  lock_cacheline : bool;
  getter_item : Z;
  count : Z;
  attribs_io_queue : option Z
}.

Definition set_getter_item (v : Z) (a : ocf_cleaner_attribs) : ocf_cleaner_attribs :=
  {| lock_cacheline := lock_cacheline a; getter_item := v;
     count := count a; attribs_io_queue := attribs_io_queue a |}.

#[global] Instance ocf_cleaner_attribs_eq_dec : EqDecision ocf_cleaner_attribs.
Proof. solve_decision. Defined.

(** Calls that leave this file and whose order the properties talk about. *)
Inductive event :=
| ev_promotion_should_promote
| ev_promotion_purge
| ev_evict_do (evict_cline_no : Z)
| ev_async_lock_wr (resume : Z)
| ev_async_lock_rd (resume : Z)
| ev_req_unlock
| ev_complete (error : Z)
| ev_req_put
| ev_queue_kick (allow_sync : bool)
| ev_io_read (iface : ocf_io_if)
| ev_io_write (iface : ocf_io_if)
| ev_cleaner_fire (attribs : ocf_cleaner_attribs).

#[global] Instance event_eq_dec : EqDecision event.
Proof. solve_decision. Defined.

(** ** Collaborators

    Everything [engine_common.c] calls and does not define.  [ocf_cache] is
    the cache object behind [req->cache] (metadata, free list, eviction and
    cleaning policies, partitions, promotion policy, cache-line concurrency);
    the file never looks inside it.  A reader takes the cache, a call that
    may write returns the new cache.  Eviction is handed the request and
    may rewrite its map entries and its aggregate (it sets [mapping_error],
    and patches remapped entries in through [ocf_engine_patch_req_info]), so
    it returns both.  The numeric constants of the headers are parameters
    as well. *)
Class Consumed := {
  ocf_cache : Type;
  (* constants *)
  OCF_LOCK_ACQUIRED : Z;
  OCF_ERR_NO_LOCK : Z;
  OCF_ERR_INVAL : Z;
  OCF_READ : Z;
  OCF_WRITE : Z;
  ocf_cleaning_max : Z;
  (* metadata, read *)
  collision_table_entries : ocf_cache → Z;
  ocf_metadata_hash_func : ocf_cache → Z → Z → Z;
  ocf_metadata_get_hash : ocf_cache → Z → Z;
  ocf_metadata_get_core_info : ocf_cache → Z → Z * Z;
  ocf_metadata_get_collision_next : ocf_cache → Z → Z;
  ocf_metadata_map_lg2phy : ocf_cache → Z → Z;
  ocf_metadata_get_partition_id : ocf_cache → Z → Z;
  metadata_test_valid_sec : ocf_cache → Z → Z → Z → bool;
  metadata_test_dirty : ocf_cache → Z → bool;
  metadata_test_dirty_all_sec : ocf_cache → Z → Z → Z → bool;
  ocf_line_end_sector : ocf_cache → Z;
  ocf_map_line_start_sector : ocf_cache → ocf_request → Z → Z;
  ocf_map_line_end_sector : ocf_cache → ocf_request → Z → Z;
  cleaning_policy_type : ocf_cache → Z;
  (* metadata, write *)
  ocf_metadata_start_collision_shared_access : ocf_cache → Z → ocf_cache;
  ocf_metadata_end_collision_shared_access : ocf_cache → Z → ocf_cache;
  ocf_metadata_add_to_collision : ocf_cache → Z → Z → Z → Z → ocf_cache;
  ocf_metadata_add_to_partition : ocf_cache → Z → Z → ocf_cache;
  set_cache_line_invalid_no_flush : ocf_cache → Z → Z → Z → ocf_cache;
  cleaning_init_cache_block : Z → option (ocf_cache → Z → ocf_cache);
  env_atomic_set_last_access_ms : ocf_cache → ocf_cache;
  (* free list *)
  ocf_freelist_get_cache_line : ocf_cache → option (Z * ocf_cache);
  ocf_freelist_num_free : ocf_cache → Z;
  (* eviction *)
  ocf_eviction_init_cache_line : ocf_cache → Z → ocf_cache;
  ocf_eviction_set_hot_cache_line : ocf_cache → Z → ocf_cache;
  space_managment_evict_do :
    ocf_cache → ocf_request → Z →
    lookup_status * ocf_cache * (list ocf_map_info * ocf_req_info);
  (* partitions *)
  ocf_part_is_enabled : ocf_cache → Z → bool;
  ocf_part_has_space : ocf_cache → ocf_request → bool;
  (* promotion *)
  ocf_promotion_req_should_promote : ocf_cache → ocf_request → bool * ocf_cache;
  ocf_promotion_req_purge : ocf_cache → ocf_request → ocf_cache;
  (* cache-line concurrency *)
  ocf_req_async_lock_wr : ocf_cache → ocf_request → Z → Z * ocf_cache;
  ocf_req_async_lock_rd : ocf_cache → ocf_request → Z → Z * ocf_cache;
  ocf_req_unlock : ocf_cache → ocf_request → ocf_cache;
  (* engine callbacks of the request: req->engine_cbs->get_lock_type(req)
     and the pointer req->engine_cbs->resume *)
  get_lock_type : ocf_request → ocf_engine_lock_type;
  resume : ocf_request → Z
}.

Section Engine.
Context `{!Consumed}.

(** ** Program state

    One request in flight on one cache.  [hb_rd_count], [hb_wr_count] and
    [meta_x] count what the request holds of the hash-bucket locks and of
    the global exclusive metadata lock; [io_list] and [io_no] are the list
    and the length counter of the queue [req->io_queue] points to, [self]
    the address under which the request is linked into it; [trace] records
    the calls listed in [event], oldest first. *)
Record state := {
  cache : ocf_cache;
  req : ocf_request;
  self : Z;
  hb_rd_count : Z;
  hb_wr_count : Z;
  meta_x : Z;
  io_list : list Z;
  io_no : Z;
  trace : list event
}.

Definition with_cache (f : ocf_cache → ocf_cache) (s : state) : state :=
  {| cache := f (cache s); req := req s; self := self s;
     hb_rd_count := hb_rd_count s; hb_wr_count := hb_wr_count s;
     meta_x := meta_x s; io_list := io_list s; io_no := io_no s;
     trace := trace s |}.

Definition with_req (f : ocf_request → ocf_request) (s : state) : state :=
  {| cache := cache s; req := f (req s); self := self s;
     hb_rd_count := hb_rd_count s; hb_wr_count := hb_wr_count s;
     meta_x := meta_x s; io_list := io_list s; io_no := io_no s;
     trace := trace s |}.

Definition with_hb_rd_count (f : Z → Z) (s : state) : state :=
  {| cache := cache s; req := req s; self := self s;
     hb_rd_count := f (hb_rd_count s); hb_wr_count := hb_wr_count s;
     meta_x := meta_x s; io_list := io_list s; io_no := io_no s;
     trace := trace s |}.

Definition with_hb_wr_count (f : Z → Z) (s : state) : state :=
  {| cache := cache s; req := req s; self := self s;
     hb_rd_count := hb_rd_count s; hb_wr_count := f (hb_wr_count s);
     meta_x := meta_x s; io_list := io_list s; io_no := io_no s;
     trace := trace s |}.

Definition with_meta_x (f : Z → Z) (s : state) : state :=
  {| cache := cache s; req := req s; self := self s;
     hb_rd_count := hb_rd_count s; hb_wr_count := hb_wr_count s;
     meta_x := f (meta_x s); io_list := io_list s; io_no := io_no s;
     trace := trace s |}.

Definition with_queue (f : list Z → list Z) (g : Z → Z) (s : state) : state :=
  {| cache := cache s; req := req s; self := self s;
     hb_rd_count := hb_rd_count s; hb_wr_count := hb_wr_count s;
     meta_x := meta_x s; io_list := f (io_list s); io_no := g (io_no s);
     trace := trace s |}.

Definition with_trace (f : list event → list event) (s : state) : state :=
  {| cache := cache s; req := req s; self := self s;
     hb_rd_count := hb_rd_count s; hb_wr_count := hb_wr_count s;
     meta_x := meta_x s; io_list := io_list s; io_no := io_no s;
     trace := f (trace s) |}.

(** ** The monad of the embedding

    A C function is a state transformer that may fail to return: [None]
    stands for a trap ([ENV_BUG], [ENV_BUG_ON], a NULL or out-of-bounds
    access) and for a loop that does not end within its bound. *)
Definition M (A : Type) : Type := state → option (A * state).

#[global] Instance M_ret : MRet M := λ A a s, Some (a, s).

#[global] Instance M_bind : MBind M :=
  λ A B f m s, match m s with Some (a, s') => f a s' | None => None end.

Definition ENV_BUG {A} : M A := λ _, None.

Definition get_cache : M ocf_cache := λ s, Some (cache s, s).
Definition get_req : M ocf_request := λ s, Some (req s, s).
Definition modify_cache (f : ocf_cache → ocf_cache) : M unit :=
  λ s, Some (tt, with_cache f s).
Definition modify_req (f : ocf_request → ocf_request) : M unit :=
  λ s, Some (tt, with_req f s).
Definition modify_info (f : ocf_req_info → ocf_req_info) : M unit :=
  modify_req (λ r, set_info (f (info r)) r).
Definition emit (e : event) : M unit :=
  λ s, Some (tt, with_trace (λ t, t ++ [e]) s).

(** [req->map[idx]], read: past the end of the array there is no return. *)
Definition map_entry (idx : nat) : M ocf_map_info :=
  λ s, match req_map (req s) !! idx with
       | Some e => Some (e, s)
       | None => None
       end.

(** [req->map[idx]], written through the pointer [&req->map[idx]]. *)
Definition modify_map_entry (idx : nat) (f : ocf_map_info → ocf_map_info) : M unit :=
  e ← map_entry idx;
  modify_req (λ r, set_req_map (<[idx := f e]> (req_map r)) r).

(** ** Helpers of the headers *)

(** Modelled from the spec: [ocf_req_clear_info] (ocf_request.h). *)
Definition ocf_req_clear_info : M unit := modify_req (set_info cleared_info).

(** Modelled from the spec: [ocf_req_set_mapping_error] and
    [ocf_req_test_mapping_error] (ocf_request.h); the error is "latched on
    req.info.mapping_error". *)
Definition ocf_req_set_mapping_error : M unit :=
  modify_info (set_mapping_error true).

Definition ocf_req_test_mapping_error : M bool :=
  r ← get_req; mret (mapping_error (info r)).

(** Modelled from the spec: [ocf_req_set_part_evict] and
    [ocf_req_clear_part_evict] (ocf_request.h), the "part_evict flag". *)
Definition ocf_req_set_part_evict : M unit := modify_req (set_part_evict true).
Definition ocf_req_clear_part_evict : M unit := modify_req (set_part_evict false).

(** Modelled from the spec: [ocf_engine_unmapped_count] (engine_common.h is
    not under src/).  The number of unmapped entries of a request is what
    counter consistency leaves of [core_line_count] once [hit_no],
    [invalid_no] and [insert_no] are taken away, in [uint32_t]. *)
Definition ocf_engine_unmapped_count (r : ocf_request) : Z :=
  u32 (core_line_count r
       - u32 (u32 (hit_no (info r) + invalid_no (info r)) + insert_no (info r))).

(** Modelled from the spec: [ocf_engine_is_mapped] (engine_common.h): the
    request is fully mapped when no entry is left unmapped. *)
Definition ocf_engine_is_mapped (r : ocf_request) : bool :=
  bool_decide (ocf_engine_unmapped_count r = 0).

(** Modelled from the spec: [ocf_engine_is_sequential] (engine_common.h);
    "a request is sequential iff seq_no + 1 == core_line_count". *)
Definition ocf_engine_is_sequential (r : ocf_request) : bool :=
  bool_decide (u32 (seq_no (info r) + 1) = core_line_count r).

(** Modelled from the spec: [ocf_req_hash] (ocf_request.c), "compute
    per-entry hashes": entry [i] gets the bucket of core line
    [core_line_first + i]. *)
Definition ocf_req_hash : M unit :=
  c ← get_cache;
  modify_req (λ r,
    set_req_map
      (imap (λ i e, set_hash
         (ocf_metadata_hash_func c (u64 (core_line_first r + Z.of_nat i)) (core r)) e)
         (req_map r)) r).

(** Modelled from the spec: the hash-bucket lock calls of the request
    (concurrency/ocf_metadata_concurrency.h) and the global exclusive
    metadata lock, as the counts [hb_rd_count], [hb_wr_count] and the
    holding of MetaX that lock discipline speaks of.  The upgrade trades the
    read hold for a write hold. *)
Definition ocf_hb_req_prot_lock_rd : M unit :=
  λ s, Some (tt, with_hb_rd_count (λ n, n + 1) s).
Definition ocf_hb_req_prot_unlock_rd : M unit :=
  λ s, Some (tt, with_hb_rd_count (λ n, n - 1) s).
Definition ocf_hb_req_prot_lock_upgrade : M unit :=
  λ s, Some (tt, with_hb_wr_count (λ n, n + 1) (with_hb_rd_count (λ n, n - 1) s)).
Definition ocf_hb_req_prot_unlock_wr : M unit :=
  λ s, Some (tt, with_hb_wr_count (λ n, n - 1) s).
Definition ocf_metadata_start_exclusive_access : M unit :=
  λ s, Some (tt, with_meta_x (λ n, n + 1) s).
Definition ocf_metadata_end_exclusive_access : M unit :=
  λ s, Some (tt, with_meta_x (λ n, n - 1) s).

(** Number of rounds of [for (i = 0, core_line = first; core_line <= last;
    core_line++, i++)].  With [core_line_last = UINT64_MAX] the test never
    fails and the loop does not return. *)
Definition core_line_rounds (r : ocf_request) : option nat :=
  if decide (core_line_last r < UINT64_MAX)
  then Some (Z.to_nat (core_line_last r + 1 - core_line_first r))
  else if decide (core_line_first r ≤ core_line_last r) then None else Some 0%nat.

(** ** engine_common.c *)

(** The [while] loop of [ocf_engine_lookup_map_entry]: walk the collision
    chain from [line], at most [fuel] members. *)
Fixpoint lookup_walk (fuel : nat) (c : ocf_cache) (core_id core_line : Z)
    (line : Z) (entry : ocf_map_info) : option ocf_map_info :=
  if decide (line = collision_table_entries c) then Some entry
  else
    match fuel with
    | O => None
    | S fuel =>
        let '(curr_core_id, curr_core_line) := ocf_metadata_get_core_info c line in
        if decide (core_id = curr_core_id ∧ curr_core_line = core_line)
        then Some (set_status LOOKUP_HIT (set_coll_idx line entry))
        else lookup_walk fuel c core_id core_line
               (ocf_metadata_get_collision_next c line) entry
    end.

(** What [ocf_engine_lookup_map_entry] writes into the entry before the
    walk: a miss in the bucket of the core line. *)
Definition lookup_initial (c : ocf_cache) (core_id core_line : Z)
    (entry : ocf_map_info) : ocf_map_info :=
  {| hash := ocf_metadata_hash_func c core_line core_id;
     status := LOOKUP_MISS;
     coll_idx := collision_table_entries c;
     core_line := core_line;
     core_id := core_id;
     re_part := re_part entry;
     invalid := invalid entry |}.

(** [ocf_engine_lookup_map_entry(cache, &req->map[idx], core_id, core_line)]. *)
Definition ocf_engine_lookup_map_entry (fuel : nat) (idx : nat)
    (core_id core_line : Z) : M unit :=
  c ← get_cache;
  modify_map_entry idx (lookup_initial c core_id core_line) ;;
  entry ← map_entry idx;
  let line := ocf_metadata_get_hash c (hash entry) in
  match lookup_walk fuel c core_id core_line line entry with
  | Some entry' => modify_map_entry idx (λ _, entry')
  | None => λ _, None
  end.

(** [_ocf_engine_check_map_entry]; [None] is the [ENV_BUG_ON]. *)
Definition _ocf_engine_check_map_entry (c : ocf_cache) (entry : ocf_map_info)
    (core_id : Z) : option Z :=
  if decide (status entry = LOOKUP_MISS) then Some 0
  else if decide (collision_table_entries c ≤ coll_idx entry) then None
  else
    let '(_core_id, _core_line) := ocf_metadata_get_core_info c (coll_idx entry) in
    if decide (core_id = _core_id ∧ _core_line = core_line entry)
    then Some 0 else Some (-1).

(** Physical cache line of a collision index, as the [ocf_cache_line_t]
    variables [phys1], [phys2] hold it. *)
Definition phys (c : ocf_cache) (line : Z) : Z :=
  u32 (ocf_metadata_map_lg2phy c line).

(** [ocf_engine_clines_phys_cont(req, entry)]. *)
Definition ocf_engine_clines_phys_cont (entry : nat) : M bool :=
  c ← get_cache;
  entry1 ← map_entry entry;
  if decide (status entry1 = LOOKUP_MISS) then mret false
  else
    entry2 ← map_entry (entry + 1);
    if decide (status entry2 = LOOKUP_MISS) then mret false
    else
      let phys1 := phys c (coll_idx entry1) in
      let phys2 := phys c (coll_idx entry2) in
      mret (bool_decide (phys1 < phys2) && bool_decide (u32 (phys1 + 1) = phys2)).

(** [ocf_engine_patch_req_info(cache, req, idx)]. *)
Definition ocf_engine_patch_req_info (idx : nat) : M unit :=
  entry ← map_entry idx;
  if decide (status entry ≠ LOOKUP_REMAPPED) then ENV_BUG
  else
    modify_info incr_insert_no ;;
    (if decide (0 < idx)%nat
     then cont ← ocf_engine_clines_phys_cont (idx - 1);
          if (cont : bool) then modify_info incr_seq_no else mret tt
     else mret tt) ;;
    r ← get_req;
    if decide (u32 (Z.of_nat idx + 1) < core_line_count r)
    then cont ← ocf_engine_clines_phys_cont idx;
         if (cont : bool) then modify_info incr_seq_no else mret tt
    else mret tt.

(** [ocf_engine_update_req_info(cache, req, idx)]. *)
Definition ocf_engine_update_req_info (idx : nat) : M unit :=
  c ← get_cache;
  r ← get_req;
  let start_sector := ocf_map_line_start_sector c r (Z.of_nat idx) in
  let end_sector := ocf_map_line_end_sector c r (Z.of_nat idx) in
  entry ← map_entry idx;
  match status entry with
  | LOOKUP_HIT =>
      (if metadata_test_valid_sec c (coll_idx entry) start_sector end_sector
       then modify_info incr_hit_no
       else modify_info incr_invalid_no) ;;
      (if metadata_test_dirty c (coll_idx entry)
       then modify_info incr_dirty_any ;;
            if metadata_test_dirty_all_sec c (coll_idx entry) start_sector end_sector
            then modify_info incr_dirty_all
            else mret tt
       else mret tt) ;;
      if decide (part_id r ≠ ocf_metadata_get_partition_id c (coll_idx entry))
      then modify_map_entry idx (set_re_part true) ;;
           modify_info incr_re_part_no
      else mret tt
  | LOOKUP_INSERTED => modify_info incr_insert_no
  | LOOKUP_MISS => mret tt
  | LOOKUP_REMAPPED => ENV_BUG
  end ;;
  if decide (0 < idx)%nat
  then cont ← ocf_engine_clines_phys_cont (idx - 1);
       if (cont : bool) then modify_info incr_seq_no else mret tt
  else mret tt.

(** One round of the [for] loop of [ocf_engine_traverse], at index [i] and
    core line [core_line]. *)
Definition traverse_round (fuel : nat) (i : nat) (core_line : Z) : M unit :=
  r ← get_req;
  ocf_engine_lookup_map_entry fuel i (core r) core_line ;;
  entry ← map_entry i;
  if decide (status entry ≠ LOOKUP_HIT) then mret tt
  else
    modify_cache (λ c, ocf_eviction_set_hot_cache_line c (coll_idx entry)) ;;
    ocf_engine_update_req_info i.

(** The [for] loop of [ocf_engine_traverse]: [n] rounds from index [i] and
    core line [core_line]. *)
Fixpoint traverse_loop (fuel : nat) (n : nat) (i : nat) (core_line : Z) : M unit :=
  match n with
  | O => mret tt
  | S n =>
      traverse_round fuel i core_line ;;
      traverse_loop fuel n (S i) (core_line + 1)
  end.

(** [ocf_engine_traverse(req)]. *)
Definition ocf_engine_traverse (fuel : nat) : M unit :=
  ocf_req_clear_info ;;
  r ← get_req;
  match core_line_rounds r with
  | Some n => traverse_loop fuel n 0 (core_line_first r)
  | None => λ _, None
  end.

(** One round of the [for] loop of [ocf_engine_check]; it returns the new
    value of [result]. *)
Definition check_round (i : nat) (result : Z) : M Z :=
  entry ← map_entry i;
  if decide (status entry = LOOKUP_MISS) then mret result
  else
    c ← get_cache;
    r ← get_req;
    match _ocf_engine_check_map_entry c entry (core r) with
    | None => ENV_BUG
    | Some rc =>
        if decide (rc ≠ 0)
        then modify_map_entry i (set_invalid true) ;;
             mret (-1)
        else modify_map_entry i (set_invalid false) ;;
             ocf_engine_update_req_info i ;;
             mret result
    end.

(** The [for] loop of [ocf_engine_check], carrying [result]. *)
Fixpoint check_loop (n : nat) (i : nat) (result : Z) : M Z :=
  match n with
  | O => mret result
  | S n =>
      result ← check_round i result;
      check_loop n (S i) result
  end.

(** [ocf_engine_check(req)]. *)
Definition ocf_engine_check : M Z :=
  ocf_req_clear_info ;;
  r ← get_req;
  match core_line_rounds r with
  | Some n => check_loop n 0 0
  | None => λ _, None
  end.

(** [ocf_map_cache_line(req, idx, cache_line)]. *)
Definition ocf_map_cache_line (idx : nat) (cache_line : Z) : M unit :=
  r ← get_req;
  entry ← map_entry idx;
  let hash_index := hash entry in
  let core_line := u64 (core_line_first r + Z.of_nat idx) in
  modify_cache (λ c, ocf_metadata_start_collision_shared_access c cache_line) ;;
  modify_cache (λ c, ocf_metadata_add_to_collision c (core r) core_line
                       hash_index cache_line) ;;
  modify_cache (λ c, ocf_metadata_end_collision_shared_access c cache_line) ;;
  c ← get_cache;
  let clean_policy_type := cleaning_policy_type c in
  if decide (ocf_cleaning_max ≤ clean_policy_type) then ENV_BUG
  else
    match cleaning_init_cache_block clean_policy_type with
    | Some init_cache_block => modify_cache (λ c, init_cache_block c cache_line)
    | None => mret tt
    end ;;
    modify_map_entry idx (set_coll_idx cache_line).

(** [ocf_engine_map_cache_line(req, idx)]. *)
Definition ocf_engine_map_cache_line (idx : nat) : M unit :=
  c ← get_cache;
  match ocf_freelist_get_cache_line c with
  | None => modify_info (set_mapping_error true)
  | Some (cache_line, c') =>
      modify_cache (λ _, c') ;;
      r ← get_req;
      modify_cache (λ c, ocf_metadata_add_to_partition c (part_id r) cache_line) ;;
      ocf_map_cache_line idx cache_line ;;
      modify_cache (λ c, ocf_eviction_init_cache_line c cache_line) ;;
      modify_cache (λ c, ocf_eviction_set_hot_cache_line c cache_line)
  end.

(** One round of the [for] loop of [ocf_engine_map_hndl_error]. *)
Definition map_hndl_error_round (i : nat) : M unit :=
  entry ← map_entry i;
  match status entry with
  | LOOKUP_HIT | LOOKUP_MISS => mret tt
  | LOOKUP_INSERTED | LOOKUP_REMAPPED =>
      modify_map_entry i (set_status LOOKUP_MISS) ;;
      modify_cache (λ c,
        ocf_metadata_start_collision_shared_access c (coll_idx entry)) ;;
      modify_cache (λ c,
        set_cache_line_invalid_no_flush c 0 (ocf_line_end_sector c)
          (coll_idx entry)) ;;
      modify_cache (λ c,
        ocf_metadata_end_collision_shared_access c (coll_idx entry))
  end.

(** The [for] loop of [ocf_engine_map_hndl_error]. *)
Fixpoint map_hndl_error_loop (n : nat) (i : nat) : M unit :=
  match n with
  | O => mret tt
  | S n =>
      map_hndl_error_round i ;;
      map_hndl_error_loop n (S i)
  end.

(** [ocf_engine_map_hndl_error(cache, req)]. *)
Definition ocf_engine_map_hndl_error : M unit :=
  r ← get_req;
  map_hndl_error_loop (Z.to_nat (core_line_count r)) 0.

(** One round of the [for] loop of [ocf_engine_map]; [false] is the
    [break]. *)
Definition map_round (fuel : nat) (i : nat) (core_line : Z) : M bool :=
  r ← get_req;
  ocf_engine_lookup_map_entry fuel i (core r) core_line ;;
  entry ← map_entry i;
  (if decide (status entry ≠ LOOKUP_HIT)
   then
     ocf_engine_map_cache_line i ;;
     err ← ocf_req_test_mapping_error;
     if (err : bool) then ocf_engine_map_hndl_error ;; mret false
     else modify_map_entry i (set_status LOOKUP_INSERTED) ;; mret true
   else mret true) ≫= λ go : bool,
  if go then ocf_engine_update_req_info i ;; mret true
  else mret false.

(** The [for] loop of [ocf_engine_map]. *)
Fixpoint map_loop (fuel : nat) (n : nat) (i : nat) (core_line : Z) : M unit :=
  match n with
  | O => mret tt
  | S n =>
      go ← map_round fuel i core_line;
      if (go : bool) then map_loop fuel n (S i) (core_line + 1)
      else mret tt
  end.

(** [ocf_engine_map(req)]. *)
Definition ocf_engine_map (fuel : nat) : M unit :=
  r ← get_req;
  c ← get_cache;
  if decide (ocf_engine_unmapped_count r = 0) then mret tt
  else if decide (ocf_engine_unmapped_count r > ocf_freelist_num_free c)
  then ocf_req_set_mapping_error
  else
    ocf_req_clear_info ;;
    match core_line_rounds r with
    | Some n => map_loop fuel n 0 (core_line_first r)
    | None => λ _, None
    end ;;
    err ← ocf_req_test_mapping_error;
    if (err : bool) then mret tt
    else
      emit ev_promotion_purge ;;
      r ← get_req;
      modify_cache (λ c, ocf_promotion_req_purge c r).

(** [ocf_engine_push_req_back(req, allow_sync)]: [list_add_tail]. *)
Definition ocf_engine_push_req_back (allow_sync : bool) : M unit :=
  r ← get_req;
  match io_queue r with
  | None => ENV_BUG
  | Some q =>
      (if negb (internal (info r))
       then modify_cache env_atomic_set_last_access_ms
       else mret tt) ;;
      (λ s, Some (tt, with_queue (λ l, l ++ [self s]) (λ n, n + 1) s)) ;;
      emit (ev_queue_kick allow_sync)
  end.

(** [ocf_engine_push_req_front(req, allow_sync)]: [list_add]. *)
Definition ocf_engine_push_req_front (allow_sync : bool) : M unit :=
  r ← get_req;
  match io_queue r with
  | None => ENV_BUG
  | Some q =>
      (if negb (internal (info r))
       then modify_cache env_atomic_set_last_access_ms
       else mret tt) ;;
      (λ s, Some (tt, with_queue (λ l, self s :: l) (λ n, n + 1) s)) ;;
      emit (ev_queue_kick allow_sync)
  end.

(** [ocf_engine_push_req_front_if(req, io_if, allow_sync)]. *)
Definition ocf_engine_push_req_front_if (iface : ocf_io_if)
    (allow_sync : bool) : M unit :=
  modify_req (set_req_error 0) ;;
  modify_req (set_io_if (Some iface)) ;;
  ocf_engine_push_req_front allow_sync.

(** [_ocf_engine_clean_end(private_data, error)], [private_data] being the
    request. *)
Definition _ocf_engine_clean_end (error : Z) : M unit :=
  if decide (error ≠ 0)
  then
    modify_req (λ r, set_req_error (Z.lor (req_error r) error) r) ;;
    r ← get_req;
    emit ev_req_unlock ;;
    modify_cache (λ c, ocf_req_unlock c r) ;;
    emit (ev_complete error) ;;
    emit ev_req_put
  else
    modify_info clear_dirty ;;
    ocf_engine_push_req_front true.

(** [_lock_clines(req)]. *)
Definition _lock_clines : M Z :=
  r ← get_req;
  c ← get_cache;
  match get_lock_type r with
  | ocf_engine_lock_write =>
      emit (ev_async_lock_wr (resume r)) ;;
      modify_cache (λ c, (ocf_req_async_lock_wr c r (resume r)).2) ;;
      mret (ocf_req_async_lock_wr c r (resume r)).1
  | ocf_engine_lock_read =>
      emit (ev_async_lock_rd (resume r)) ;;
      modify_cache (λ c, (ocf_req_async_lock_rd c r (resume r)).2) ;;
      mret (ocf_req_async_lock_rd c r (resume r)).1
  | ocf_engine_lock_none => mret OCF_LOCK_ACQUIRED
  end.

(** [ocf_prepare_clines_miss] from the label [eviction:] to the end; both
    [goto unlock] and the fall-through end exclusive access and return
    [lock_status]. *)
Definition prepare_clines_miss_eviction (fuel : nat) (lock_status : Z) : M Z :=
  ocf_metadata_start_exclusive_access ;;
  ocf_engine_traverse fuel ;;
  r ← get_req;
  c ← get_cache;
  (if negb (ocf_part_has_space c r)
   then ocf_req_set_part_evict
   else ocf_req_clear_part_evict) ;;
  r ← get_req;
  emit (ev_evict_do (ocf_engine_unmapped_count r)) ;;
  let '(res, c', (map', info')) :=
    space_managment_evict_do c r (ocf_engine_unmapped_count r) in
  modify_cache (λ _, c') ;;
  modify_req (λ r, set_info info' (set_req_map map' r)) ;;
  if decide (res = LOOKUP_MISS)
  then
    ocf_req_set_mapping_error ;;
    ocf_metadata_end_exclusive_access ;;
    mret lock_status
  else
    ocf_engine_map fuel ;;
    err ← ocf_req_test_mapping_error;
    if (err : bool)
    then
      ocf_metadata_end_exclusive_access ;;
      mret lock_status
    else
      lock_status ← _lock_clines;
      (if decide (lock_status < 0) then ocf_req_set_mapping_error else mret tt) ;;
      ocf_metadata_end_exclusive_access ;;
      mret lock_status.

(** [ocf_prepare_clines_miss(req)]. *)
Definition ocf_prepare_clines_miss (fuel : nat) : M Z :=
  let lock_status := - OCF_ERR_NO_LOCK in
  r ← get_req;
  c ← get_cache;
  if negb (ocf_part_is_enabled c (part_id r))
  then
    ocf_req_set_mapping_error ;;
    ocf_hb_req_prot_unlock_rd ;;
    mret lock_status
  else if negb (ocf_part_has_space c r)
  then
    ocf_hb_req_prot_unlock_rd ;;
    prepare_clines_miss_eviction fuel lock_status
  else
    ocf_hb_req_prot_lock_upgrade ;;
    ocf_engine_map fuel ;;
    err ← ocf_req_test_mapping_error;
    if negb err
    then
      lock_status ← _lock_clines;
      (if decide (lock_status < 0) then ocf_req_set_mapping_error else mret tt) ;;
      ocf_hb_req_prot_unlock_wr ;;
      mret lock_status
    else
      ocf_hb_req_prot_unlock_wr ;;
      prepare_clines_miss_eviction fuel lock_status.

(** [ocf_engine_prepare_clines(req)]. *)
Definition ocf_engine_prepare_clines (fuel : nat) : M Z :=
  let lock := - OCF_ERR_NO_LOCK in
  ocf_req_hash ;;
  ocf_hb_req_prot_lock_rd ;;
  ocf_engine_traverse fuel ;;
  r ← get_req;
  let mapped := ocf_engine_is_mapped r in
  if mapped
  then
    lock ← _lock_clines;
    ocf_hb_req_prot_unlock_rd ;;
    mret lock
  else
    c ← get_cache;
    emit ev_promotion_should_promote ;;
    modify_cache (λ c, (ocf_promotion_req_should_promote c r).2) ;;
    let promote := (ocf_promotion_req_should_promote c r).1 in
    if negb promote
    then
      ocf_req_set_mapping_error ;;
      ocf_hb_req_prot_unlock_rd ;;
      mret lock
    else ocf_prepare_clines_miss fuel.

(** The [for] loop of [_ocf_engine_clean_getter], at most [n] rounds.  The
    result is the return value, the line behind the out pointer and the
    attribs with the advanced [getter_item]. *)
Fixpoint clean_getter_loop (n : nat) (c : ocf_cache) (r : ocf_request)
    (line : Z) (attribs : ocf_cleaner_attribs)
    : option (Z * Z * ocf_cleaner_attribs) :=
  if decide (getter_item attribs < core_line_count r)
  then
    match n with
    | O => None
    | S n =>
        match req_map r !! Z.to_nat (getter_item attribs) with
        | None => None
        | Some entry =>
            let next := set_getter_item (u32 (getter_item attribs + 1)) attribs in
            if decide (status entry ≠ LOOKUP_HIT)
            then clean_getter_loop n c r line next
            else if negb (metadata_test_dirty c (coll_idx entry))
            then clean_getter_loop n c r line next
            else Some (0, coll_idx entry, next)
        end
    end
  else Some (-1, line, attribs).

(** [_ocf_engine_clean_getter(cache, getter_context, item, line)]; the
    request is the completion context of the attribs. *)
Definition _ocf_engine_clean_getter (c : ocf_cache) (r : ocf_request)
    (attribs : ocf_cleaner_attribs) (item : Z) (line : Z)
    : option (Z * Z * ocf_cleaner_attribs) :=
  clean_getter_loop (Z.to_nat (core_line_count r - getter_item attribs))
    c r line attribs.

(** The attribs [ocf_engine_clean] initialises; completion is
    [_ocf_engine_clean_end], the getter [_ocf_engine_clean_getter]. *)
Definition clean_attribs (r : ocf_request) : ocf_cleaner_attribs :=
  {| lock_cacheline := false;
     getter_item := 0;
     count := dirty_any (info r);
     attribs_io_queue := io_queue r |}.

(** [ocf_engine_clean(req)]. *)
Definition ocf_engine_clean : M unit :=
  r ← get_req;
  emit (ev_cleaner_fire (clean_attribs r)).

(** [_ocf_engine_refresh(req)]. *)
Definition _ocf_engine_refresh : M Z :=
  ocf_hb_req_prot_lock_rd ;;
  result ← ocf_engine_check;
  ocf_hb_req_prot_unlock_rd ;;
  (if decide (result = 0)
   then
     modify_req (λ r, set_io_if (priv r) r) ;;
     modify_req (set_priv None) ;;
     r ← get_req;
     match io_if r with
     | None => ENV_BUG
     | Some iface =>
         if decide (rw r = OCF_READ) then emit (ev_io_read iface)
         else if decide (rw r = OCF_WRITE) then emit (ev_io_write iface)
         else ENV_BUG
     end
   else
     modify_req (set_req_error (- OCF_ERR_INVAL)) ;;
     r ← get_req;
     emit (ev_complete (req_error r)) ;;
     emit ev_req_unlock ;;
     modify_cache (λ c, ocf_req_unlock c r) ;;
     emit ev_req_put) ;;
  mret 0.

(** [ocf_engine_on_resume(req)]. *)
Definition ocf_engine_on_resume : M unit :=
  r ← get_req;
  if decide (priv r ≠ None) then ENV_BUG
  else if decide (io_if r = None) then ENV_BUG
  else
    modify_req (set_priv (io_if r)) ;;
    ocf_engine_push_req_front_if _io_if_refresh false.

End Engine.

(** ** The fallback pass-through error counter *)

(** [int] and [env_atomic] arithmetic wraps in two's complement. *)
Definition s32 (x : Z) : Z := (x + 2 ^ 31) mod 2 ^ 32 - 2 ^ 31.

(** The fields of [struct ocf_cache] behind
    [inc_fallback_pt_error_counter], and the number of times the cache log
    was told that the threshold is reached. *)
Record fallback_pt := {
  fallback_pt_error_counter : Z;
  fallback_pt_error_threshold : Z;
  fallback_pt_logged : Z;
}.

Section Fallback.
(** The threshold value that switches the fallback off (ocf/ocf_def.h). *)
Variable OCF_CACHE_FALLBACK_PT_INACTIVE : Z.

(** [inc_fallback_pt_error_counter(cache)]; [None] is the [ENV_BUG_ON]. *)
Definition inc_fallback_pt_error_counter (c : fallback_pt) : option fallback_pt :=
  if decide (fallback_pt_error_counter c < 0) then None
  else if decide (fallback_pt_error_threshold c = OCF_CACHE_FALLBACK_PT_INACTIVE)
  then Some c
  else
    let counter := s32 (fallback_pt_error_counter c + 1) in
    Some {| fallback_pt_error_counter := counter;
            fallback_pt_error_threshold := fallback_pt_error_threshold c;
            fallback_pt_logged :=
              if decide (counter = fallback_pt_error_threshold c)
              then fallback_pt_logged c + 1
              else fallback_pt_logged c |}.

(** [n] errors in a row. *)
Fixpoint fallback_pt_errors (n : nat) (c : fallback_pt) : option fallback_pt :=
  match n with
  | O => Some c
  | S n =>
      match fallback_pt_errors n c with
      | Some c' => inc_fallback_pt_error_counter c'
      | None => None
      end
  end.
End Fallback.

(** ** A cache to run the engine on

    Modelled from the spec: the data model of section 3 and the consumed
    interfaces of section 6, as the simplest cache that implements them.
    The bucket array holds the chain heads; every cache line carries its
    core line, its chain successor, its partition and its valid and dirty
    sector bitmaps; the free list is a stack; the eviction policy keeps a
    recency list and hands victims over through the free list.  The answers
    of the promotion policy, of the partition and of the cache-line lock are
    fixed per cache.  It serves the concrete runs of this file; the theorems
    quantify over every instance of [Consumed]. *)
Module Sim.

Record line_meta := {
  lm_core_id : Z;
  lm_core_line : Z;
  lm_next : Z;
  lm_part : Z;
  lm_valid : Z;
  lm_dirty : Z
}.

Record sim_cache := {
  buckets : list Z;
  lines : list line_meta;
  free : list Z;
  lru : list Z;
  evictable : list Z;
  lock_answer : Z;
  promote : bool;
  part_enabled : bool;
  part_space : bool
}.

Definition set_buckets (v : list Z) (c : sim_cache) : sim_cache :=
  {| buckets := v; lines := lines c; free := free c; lru := lru c;
     evictable := evictable c; lock_answer := lock_answer c;
     promote := promote c; part_enabled := part_enabled c;
     part_space := part_space c |}.

Definition set_lines (v : list line_meta) (c : sim_cache) : sim_cache :=
  {| buckets := buckets c; lines := v; free := free c; lru := lru c;
     evictable := evictable c; lock_answer := lock_answer c;
     promote := promote c; part_enabled := part_enabled c;
     part_space := part_space c |}.

Definition set_free (v : list Z) (c : sim_cache) : sim_cache :=
  {| buckets := buckets c; lines := lines c; free := v; lru := lru c;
     evictable := evictable c; lock_answer := lock_answer c;
     promote := promote c; part_enabled := part_enabled c;
     part_space := part_space c |}.

Definition set_lru (v : list Z) (c : sim_cache) : sim_cache :=
  {| buckets := buckets c; lines := lines c; free := free c; lru := v;
     evictable := evictable c; lock_answer := lock_answer c;
     promote := promote c; part_enabled := part_enabled c;
     part_space := part_space c |}.

Definition set_evictable (v : list Z) (c : sim_cache) : sim_cache :=
  {| buckets := buckets c; lines := lines c; free := free c; lru := lru c;
     evictable := v; lock_answer := lock_answer c;
     promote := promote c; part_enabled := part_enabled c;
     part_space := part_space c |}.

Definition entries (c : sim_cache) : Z := Z.of_nat (length (lines c)).

Definition no_line : line_meta :=
  {| lm_core_id := 0; lm_core_line := 0; lm_next := 0; lm_part := 0;
     lm_valid := 0; lm_dirty := 0 |}.

Definition line_at (c : sim_cache) (l : Z) : line_meta :=
  nth (Z.to_nat l) (lines c) no_line.

Definition alter_line (f : line_meta → line_meta) (l : Z) (c : sim_cache) : sim_cache :=
  set_lines (alter f (Z.to_nat l) (lines c)) c.

Definition bucket_head (c : sim_cache) (h : Z) : Z :=
  nth (Z.to_nat h) (buckets c) (entries c).

(** Bits [start..stop] of a sector bitmap. *)
Definition sector_mask (start stop : Z) : Z :=
  Z.shiftl (Z.ones (stop - start + 1)) start.

Definition add_to_collision (c : sim_cache) (core_id core_line h l : Z) : sim_cache :=
  set_buckets (<[Z.to_nat h := l]> (buckets c))
    (alter_line (λ m,
       {| lm_core_id := core_id; lm_core_line := core_line;
          lm_next := bucket_head c h; lm_part := lm_part m;
          lm_valid := lm_valid m; lm_dirty := lm_dirty m |}) l c).

Definition add_to_partition (c : sim_cache) (part l : Z) : sim_cache :=
  alter_line (λ m,
    {| lm_core_id := lm_core_id m; lm_core_line := lm_core_line m;
       lm_next := lm_next m; lm_part := part;
       lm_valid := lm_valid m; lm_dirty := lm_dirty m |}) l c.

Definition invalidate (c : sim_cache) (start stop l : Z) : sim_cache :=
  alter_line (λ m,
    {| lm_core_id := lm_core_id m; lm_core_line := lm_core_line m;
       lm_next := lm_next m; lm_part := lm_part m;
       lm_valid := Z.ldiff (lm_valid m) (sector_mask start stop);
       lm_dirty := lm_dirty m |}) l c.

Definition touch_hot (c : sim_cache) (l : Z) : sim_cache :=
  set_lru (l :: filter (λ x, x ≠ l) (lru c)) c.

Definition take_free (c : sim_cache) : option (Z * sim_cache) :=
  match free c with
  | [] => None
  | l :: rest => Some (l, set_free rest c)
  end.

(** Give up line [l]: unlink it from its chain, invalidate it, free it. *)
Definition evict_line (l : Z) (c : sim_cache) : sim_cache :=
  let next := lm_next (line_at c l) in
  let skip := λ x : Z, if decide (x = l) then next else x in
  set_evictable (filter (λ x, x ≠ l) (evictable c))
    (set_free (free c ++ [l])
       (set_buckets (skip <$> buckets c)
          (set_lines
             ((λ m, {| lm_core_id := lm_core_id m; lm_core_line := lm_core_line m;
                       lm_next := skip (lm_next m); lm_part := lm_part m;
                       lm_valid := lm_valid m; lm_dirty := lm_dirty m |})
                <$> lines (invalidate c 0 3 l)) c))).

Definition evict_do (c : sim_cache) (r : ocf_request) (n : Z)
    : lookup_status * sim_cache * (list ocf_map_info * ocf_req_info) :=
  let nfree := Z.of_nat (length (free c)) in
  if decide (n ≤ nfree) then (LOOKUP_INSERTED, c, (req_map r, info r))
  else
    let need := Z.to_nat (n - nfree) in
    if decide (need ≤ length (evictable c))%nat
    then (LOOKUP_INSERTED, foldr evict_line c (take need (evictable c)),
          (req_map r, info r))
    else (LOOKUP_MISS, c, (req_map r, set_mapping_error true (info r))).

#[global] Instance sim : Consumed := {|
  ocf_cache := sim_cache;
  OCF_LOCK_ACQUIRED := 0;
  OCF_ERR_NO_LOCK := 1000005;
  OCF_ERR_INVAL := 1000000;
  OCF_READ := 0;
  OCF_WRITE := 1;
  ocf_cleaning_max := 3;
  collision_table_entries := entries;
  ocf_metadata_hash_func := λ c core_line core_id,
    (core_line + core_id) mod Z.of_nat (length (buckets c));
  ocf_metadata_get_hash := bucket_head;
  ocf_metadata_get_core_info := λ c l,
    (lm_core_id (line_at c l), lm_core_line (line_at c l));
  ocf_metadata_get_collision_next := λ c l, lm_next (line_at c l);
  ocf_metadata_map_lg2phy := λ c l, l;
  ocf_metadata_get_partition_id := λ c l, lm_part (line_at c l);
  metadata_test_valid_sec := λ c l start stop,
    Z.land (lm_valid (line_at c l)) (sector_mask start stop)
      =? sector_mask start stop;
  metadata_test_dirty := λ c l, negb (lm_dirty (line_at c l) =? 0);
  metadata_test_dirty_all_sec := λ c l start stop,
    Z.land (lm_dirty (line_at c l)) (sector_mask start stop)
      =? sector_mask start stop;
  ocf_line_end_sector := λ c, 3;
  ocf_map_line_start_sector := λ c r idx, 0;
  ocf_map_line_end_sector := λ c r idx, 3;
  cleaning_policy_type := λ c, 0;
  ocf_metadata_start_collision_shared_access := λ c l, c;
  ocf_metadata_end_collision_shared_access := λ c l, c;
  ocf_metadata_add_to_collision := add_to_collision;
  ocf_metadata_add_to_partition := add_to_partition;
  set_cache_line_invalid_no_flush := invalidate;
  cleaning_init_cache_block := λ type, None;
  env_atomic_set_last_access_ms := λ c, c;
  ocf_freelist_get_cache_line := take_free;
  ocf_freelist_num_free := λ c, Z.of_nat (length (free c));
  ocf_eviction_init_cache_line := λ c l, c;
  ocf_eviction_set_hot_cache_line := touch_hot;
  space_managment_evict_do := evict_do;
  ocf_part_is_enabled := λ c part, part_enabled c;
  ocf_part_has_space := λ c r, part_space c;
  ocf_promotion_req_should_promote := λ c r, (promote c, c);
  ocf_promotion_req_purge := λ c r, c;
  ocf_req_async_lock_wr := λ c r cb, (lock_answer c, c);
  ocf_req_async_lock_rd := λ c r cb, (lock_answer c, c);
  ocf_req_unlock := λ c r, c;
  get_lock_type := λ r,
    if decide (engine_cbs r = 0) then ocf_engine_lock_none
    else if decide (engine_cbs r = 1) then ocf_engine_lock_write
    else ocf_engine_lock_read;
  resume := λ r, engine_cbs r
|}.

(** A resident line: all four sectors valid, dirty as given. *)
Definition resident (core_id core_line next dirty : Z) : line_meta :=
  {| lm_core_id := core_id; lm_core_line := core_line; lm_next := next;
     lm_part := 0; lm_valid := 15; lm_dirty := dirty |}.

(** The cache of the scenarios: 16 slots, 8 buckets, 4 sectors a line.
    Core lines 10, 11 and 12 of core 0 are resident in lines 3, 4 and 5
    (line 4 dirty in all sectors), line 6 holds core line 18, which shares
    bucket 2 with core line 10; the other lines are free. *)
Definition scenario_cache (free_lines : list Z) (answer : Z) (promotes : bool)
    : sim_cache :=
  {| buckets := [16; 16; 6; 4; 5; 16; 16; 16];
     lines := [no_line; no_line; no_line;
               resident 0 10 16 0; resident 0 11 16 15; resident 0 12 16 0;
               resident 0 18 3 0;
               no_line; no_line; no_line; no_line; no_line; no_line; no_line;
               no_line; no_line];
     free := free_lines;
     lru := [];
     evictable := [];
     lock_answer := answer;
     promote := promotes;
     part_enabled := true;
     part_space := true |}.

Definition blank_entry : ocf_map_info :=
  {| hash := 0; coll_idx := 0; core_line := 0; core_id := 0;
     status := LOOKUP_MISS; re_part := false; invalid := false |}.

(** A request for core lines [first..first + n - 1] of core 0, in
    partition 0, with the write-lock callbacks (1) and engine interface 7. *)
Definition scenario_req (first : Z) (n : nat) : ocf_request :=
  {| req_map := replicate n blank_entry;
     info := cleared_info;
     core := 0;
     core_line_first := first;
     core_line_last := first + Z.of_nat n - 1;
     core_line_count := Z.of_nat n;
     part_id := 0;
     part_evict := false;
     rw := 0;
     req_error := 0;
     io_if := Some (io_if_engine 7);
     priv := None;
     io_queue := Some 1;
     engine_cbs := 1;
     byte_position := 0;
     byte_length := 0 |}.

Definition scenario (c : sim_cache) (r : ocf_request) : state :=
  {| cache := c; req := r; self := 100; hb_rd_count := 0; hb_wr_count := 0;
     meta_x := 0; io_list := [101; 102]; io_no := 2; trace := [] |}.

End Sim.

(** ** Vocabulary of the properties *)

Section Vocabulary.
Context `{!Consumed}.

(** Weakest liberal precondition: whenever [m] returns from [s], its result
    and final state satisfy [Q]. *)
Definition wlp {A} (m : M A) (Q : A → state → Prop) (s : state) : Prop :=
  ∀ a s', m s = Some (a, s') → Q a s'.

(** The collision chain that starts at [line]: its members in walk order,
    up to the sentinel [collision_table_entries]. *)
Inductive chain (c : ocf_cache) : Z → list Z → Prop :=
| chain_end : chain c (collision_table_entries c) []
| chain_next line rest :
    line ≠ collision_table_entries c →
    chain c (ocf_metadata_get_collision_next c line) rest →
    chain c line (line :: rest).

(** Cache line [line] stores the identity [(core_id, core_line)]. *)
Definition holds (c : ocf_cache) (core_id core_line : Z) (line : Z) : bool :=
  bool_decide (ocf_metadata_get_core_info c line = (core_id, core_line)).

(** The request covers [core_line_count] consecutive core lines; the count
    is a [uint32_t]. *)
Definition wf_req (r : ocf_request) : Prop :=
  core_line_count r = core_line_last r - core_line_first r + 1
  ∧ 0 ≤ core_line_count r < 2 ^ 32.

(** Entry [i] of the request: one of the first [core_line_count] cells of
    its map. *)
Definition req_entry (r : ocf_request) (i : nat) (e : ocf_map_info) : Prop :=
  Z.of_nat i < core_line_count r ∧ req_map r !! i = Some e.

(** The entries of the request, in index order. *)
Definition req_entries (r : ocf_request) : list ocf_map_info :=
  take (Z.to_nat (core_line_count r)) (req_map r).

(** Two entries are physically contiguous: neither is a miss and the
    second one's cache line lies right after the first one's. *)
Definition cont_pair (c : ocf_cache) (e1 e2 : ocf_map_info) : bool :=
  bool_decide (status e1 ≠ LOOKUP_MISS)
  && bool_decide (status e2 ≠ LOOKUP_MISS)
  && bool_decide (phys c (coll_idx e1) + 1 = phys c (coll_idx e2)).

(** The adjacent pair [(j, j + 1)] of a map is physically contiguous. *)
Definition cont_at (c : ocf_cache) (m : list ocf_map_info) (j : nat) : bool :=
  match m !! j, m !! S j with
  | Some e1, Some e2 => cont_pair c e1 e2
  | _, _ => false
  end.

(** Number of physically contiguous pairs [(j, j + 1)] with [j < k]. *)
Fixpoint seq_count (c : ocf_cache) (m : list ocf_map_info) (k : nat) : Z :=
  match k with
  | O => 0
  | S j => seq_count c m j + (if cont_at c m j then 1 else 0)
  end.

(** Number of the first [k] cells of a map that satisfy [p]. *)
Fixpoint count_upto (p : ocf_map_info → bool) (m : list ocf_map_info) (k : nat) : Z :=
  match k with
  | O => 0
  | S j => count_upto p m j
           + match m !! j with Some e => if p e then 1 else 0 | None => 0 end
  end.

Definition is_status (st : lookup_status) (e : ocf_map_info) : bool :=
  bool_decide (status e = st).

Definition with_info (f : ocf_req_info → ocf_req_info) : state → state :=
  with_req (λ r, set_info (f (info r)) r).

Definition with_map (f : list ocf_map_info → list ocf_map_info) : state → state :=
  with_req (λ r, set_req_map (f (req_map r)) r).

(** The state after the [switch] of [ocf_engine_update_req_info] on entry
    [e] at [idx], for the statuses on which it returns. *)
Definition account (idx : nat) (e : ocf_map_info) (s : state) : state :=
  let c := cache s in
  let r := req s in
  let start_sector := ocf_map_line_start_sector c r (Z.of_nat idx) in
  let end_sector := ocf_map_line_end_sector c r (Z.of_nat idx) in
  match status e with
  | LOOKUP_HIT =>
      let s1 :=
        if metadata_test_valid_sec c (coll_idx e) start_sector end_sector
        then with_info incr_hit_no s else with_info incr_invalid_no s in
      let s2 :=
        if metadata_test_dirty c (coll_idx e)
        then if metadata_test_dirty_all_sec c (coll_idx e) start_sector end_sector
             then with_info incr_dirty_all (with_info incr_dirty_any s1)
             else with_info incr_dirty_any s1
        else s1 in
      if decide (part_id r ≠ ocf_metadata_get_partition_id c (coll_idx e))
      then with_info incr_re_part_no
             (with_map (λ m, <[idx := set_re_part true e]> m) s2)
      else s2
  | LOOKUP_INSERTED => with_info incr_insert_no s
  | _ => s
  end.

(** What [ocf_engine_update_req_info] and [ocf_engine_patch_req_info] do
    for the pair [(idx - 1, idx)]: [seq_no] goes up when it is contiguous. *)
Definition seq_bump (idx : nat) (s : state) : state :=
  if bool_decide (0 < idx)%nat && cont_at (cache s) (req_map (req s)) (idx - 1)
  then with_req (λ r, set_info (incr_seq_no (info r)) r) s
  else s.

(** What the lookup makes of entry [e0]. *)
Definition looked_up (c : ocf_cache) (cid cl : Z) (e0 e' : ocf_map_info) : Prop :=
  e' = lookup_initial c cid cl e0
  ∨ ∃ line, holds c cid cl line = true
            ∧ e' = set_status LOOKUP_HIT
                     (set_coll_idx line (lookup_initial c cid cl e0)).

(** The state after one round of traversal that looked entry [i] up as [e']. *)
Definition traverse_step (i : nat) (e' : ocf_map_info) (s : state) : state :=
  let s1 := with_map (λ m, <[i := e']> m) s in
  if decide (status e' = LOOKUP_HIT)
  then seq_bump i
         (account i e'
            (with_cache (λ c, ocf_eviction_set_hot_cache_line c (coll_idx e')) s1))
  else s1.

(** The counters account for the first [k] entries, none of them REMAPPED. *)
Definition counted (k : nat) (r : ocf_request) : Prop :=
  (∀ j, (j < k)%nat → ∃ e, req_map r !! j = Some e ∧ status e ≠ LOOKUP_REMAPPED)
  ∧ 0 ≤ hit_no (info r) ∧ 0 ≤ invalid_no (info r)
  ∧ hit_no (info r) + invalid_no (info r)
    = count_upto (is_status LOOKUP_HIT) (req_map r) k
  ∧ insert_no (info r) = count_upto (is_status LOOKUP_INSERTED) (req_map r) k
  ∧ 0 ≤ dirty_all (info r) ≤ dirty_any (info r)
  ∧ dirty_any (info r) ≤ count_upto (is_status LOOKUP_HIT) (req_map r) k.

(** Counter consistency of a request. *)
Definition counters_consistent (r : ocf_request) : Prop :=
  hit_no (info r) + invalid_no (info r) + insert_no (info r)
  + count_upto (is_status LOOKUP_MISS) (req_map r) (Z.to_nat (core_line_count r))
  = core_line_count r
  ∧ dirty_all (info r) ≤ dirty_any (info r) ≤ core_line_count r.

(** Every entry of the request is a hit or a miss. *)
Definition all_hit_or_miss (r : ocf_request) : Prop :=
  ∀ i e, req_entry r i e → status e = LOOKUP_HIT ∨ status e = LOOKUP_MISS.

(** Invariant of the rounds of traversal: the first [k] entries are hits or
    misses, the counters account for them and no error is latched. *)
Definition traversed (k : nat) (s : state) : Prop :=
  counted k (req s)
  ∧ (∀ j e, (j < k)%nat → req_map (req s) !! j = Some e →
            status e = LOOKUP_HIT ∨ status e = LOOKUP_MISS)
  ∧ mapping_error (info (req s)) = false.

(** Mapping promoted the entry: it is INSERTED or REMAPPED. *)
Definition promoted (e : ocf_map_info) : bool :=
  bool_decide (status e = LOOKUP_INSERTED ∨ status e = LOOKUP_REMAPPED).

(** What [ocf_engine_map_hndl_error] does to an entry, *)
Definition unwind_entry (e : ocf_map_info) : ocf_map_info :=
  if promoted e then set_status LOOKUP_MISS e else e.

(** and to the cache for it: all sectors of the entry's cache line are
    invalidated, under shared collision access to that line. *)
Definition unwind_cache (c : ocf_cache) (e : ocf_map_info) : ocf_cache :=
  if promoted e
  then
    let c1 := ocf_metadata_start_collision_shared_access c (coll_idx e) in
    let c2 := set_cache_line_invalid_no_flush c1 0 (ocf_line_end_sector c1)
                (coll_idx e) in
    ocf_metadata_end_collision_shared_access c2 (coll_idx e)
  else c.

(** State of the unwind of [s0] after [k] rounds. *)
Definition unwound (s0 : state) (k : nat) (s : state) : Prop :=
  req_map (req s)
  = (unwind_entry <$> take k (req_map (req s0))) ++ drop k (req_map (req s0))
  ∧ cache s = foldl unwind_cache (cache s0) (take k (req_map (req s0)))
  ∧ info (req s) = info (req s0)
  ∧ (k ≤ length (req_map (req s0)))%nat.

(** Invariant of the rounds of mapping: the counters account for the first
    [k] entries and no error is latched. *)
Definition mapping (k : nat) (s : state) : Prop :=
  counted k (req s) ∧ mapping_error (info (req s)) = false.


(** No entry of the request is INSERTED or REMAPPED. *)
Definition no_promoted (r : ocf_request) : Prop :=
  ∀ i e, req_entry r i e →
         status e ≠ LOOKUP_INSERTED ∧ status e ≠ LOOKUP_REMAPPED.




(** Recency updates of the eviction policy do not move cache lines. *)
Definition set_hot_keeps_lg2phy : Prop :=
  ∀ c line x,
    ocf_metadata_map_lg2phy (ocf_eviction_set_hot_cache_line c line) x
    = ocf_metadata_map_lg2phy c x.

(** Invariant of the rounds of traversal for [seq_no]: it counts the
    contiguous pairs among the first [k] entries, and cache lines are where
    they were in [c0]. *)
Definition sequenced (c0 : ocf_cache) (k : nat) (s : state) : Prop :=
  seq_no (info (req s)) = seq_count (cache s) (req_map (req s)) (k - 1)
  ∧ ∀ x, ocf_metadata_map_lg2phy (cache s) x = ocf_metadata_map_lg2phy c0 x.

(** The cache line recorded in [e] still holds the core line of [e], for
    the core [core_id]. *)
Definition still_maps (c : ocf_cache) (core_id : Z) (e : ocf_map_info) : bool :=
  holds c core_id (core_line e) (coll_idx e).

(** The dispatch of a refreshed request through [iface], by direction. *)
Definition dispatch (r : ocf_request) (iface : ocf_io_if) : event :=
  if decide (rw r = OCF_READ) then ev_io_read iface else ev_io_write iface.

(** Invariant of the rounds of [ocf_engine_check] started in [s0]: after
    [k] rounds [result] is 0 exactly when every entry checked so far that
    is not a miss still maps, each of those carries its verdict in
    [invalid], and the entries to come are untouched. *)
Definition checked (s0 : state) (k : nat) (result : Z) (s : state) : Prop :=
  cache s = cache s0
  ∧ core (req s) = core (req s0)
  ∧ (result = 0 ∨ result = -1)
  ∧ (result = 0 ↔
     ∀ j e0, (j < k)%nat → req_map (req s0) !! j = Some e0 →
             status e0 ≠ LOOKUP_MISS →
             still_maps (cache s0) (core (req s0)) e0 = true)
  ∧ (∀ j e0, (j < k)%nat → req_map (req s0) !! j = Some e0 →
       ∃ e, req_map (req s) !! j = Some e
            ∧ status e = status e0 ∧ coll_idx e = coll_idx e0
            ∧ (status e0 ≠ LOOKUP_MISS →
               invalid e = negb (still_maps (cache s0) (core (req s0)) e0)))
  ∧ (∀ j, (k ≤ j)%nat → req_map (req s) !! j = req_map (req s0) !! j).

(** An entry the cleaner is to be handed: a hit on a dirty cache line. *)
Definition to_clean (c : ocf_cache) (e : ocf_map_info) : bool :=
  bool_decide (status e = LOOKUP_HIT) && metadata_test_dirty c (coll_idx e).

(** The first entry to clean in [l], whose head has request index [k]. *)
Fixpoint next_dirty (c : ocf_cache) (l : list ocf_map_info) (k : nat)
    : option (nat * ocf_map_info) :=
  match l with
  | [] => None
  | e :: l => if to_clean c e then Some (k, e) else next_dirty c l (S k)
  end.

(** The cleaner's use of the getter: it asks for item after item, at most
    [n] times, until the getter returns non-zero; the result is the lines
    it was given, in the order of the calls, and the attribs left. *)
Fixpoint drain (n : nat) (c : ocf_cache) (r : ocf_request)
    (attribs : ocf_cleaner_attribs) (item : Z) (line : Z)
    : option (list Z * ocf_cleaner_attribs) :=
  match n with
  | O => None
  | S n =>
      match _ocf_engine_clean_getter c r attribs item line with
      | None => None
      | Some (rc, line', attribs') =>
          if decide (rc = 0)
          then match drain n c r attribs' (item + 1) line' with
               | Some (lines, attribs'') => Some (line' :: lines, attribs'')
               | None => None
               end
          else Some ([], attribs')
      end
  end.

(** The state a run leaves; the state it started in when it does not
    return. *)
Definition after {A} (m : M A) (s : state) : state :=
  match m s with
  | Some (_, s') => s'
  | None => s
  end.

(** What traversal does to the cache for an entry: a hit line is marked
    hot. *)
Definition mark_hot (c : ocf_cache) (e : ocf_map_info) : ocf_cache :=
  if decide (status e = LOOKUP_HIT)
  then ocf_eviction_set_hot_cache_line c (coll_idx e)
  else c.

(** Entry [e] is the outcome of looking [(cid, cl)] up in [c]: a hit on a
    line that holds the identity, or a miss with the sentinel. *)
Definition found_in (c : ocf_cache) (cid cl : Z) (e : ocf_map_info) : Prop :=
  core_id e = cid ∧ core_line e = cl
  ∧ hash e = ocf_metadata_hash_func c cl cid
  ∧ (status e = LOOKUP_HIT ∧ holds c cid cl (coll_idx e) = true
     ∨ status e = LOOKUP_MISS ∧ coll_idx e = collision_table_entries c).

(** Invariant of the rounds of traversal started in [s0], for the entries:
    after [k] rounds, entry [j < k] is the outcome of the lookup of core
    line [first + j] in the cache as the rounds before [j] left it, the
    cache went through the hit lines in index order, and the entries to
    come are untouched. *)
Definition walked (s0 : state) (k : nat) (cl : Z) (s : state) : Prop :=
  cl = core_line_first (req s0) + Z.of_nat k
  ∧ core (req s) = core (req s0)
  ∧ length (req_map (req s)) = length (req_map (req s0))
  ∧ cache s = foldl mark_hot (cache s0) (take k (req_map (req s)))
  ∧ (∀ j e, (j < k)%nat → req_map (req s) !! j = Some e →
       found_in (foldl mark_hot (cache s0) (take j (req_map (req s))))
         (core (req s0)) (core_line_first (req s0) + Z.of_nat j) e)
  ∧ (∀ j, (k ≤ j)%nat → req_map (req s) !! j = req_map (req s0) !! j).

(** The first [k] entries have a cache line: each is a hit or was
    inserted. *)
Definition settled (k : nat) (r : ocf_request) : Prop :=
  ∀ j e, (j < k)%nat → req_map r !! j = Some e →
         status e = LOOKUP_HIT ∨ status e = LOOKUP_INSERTED.

(** A return of the pipeline with [mapping_error] latched carries a
    negative lock status. *)
Definition error_is_negative (rc : Z) (s' : state) : Prop :=
  mapping_error (info (req s')) = true → rc < 0.

(** Entry [e] is entry [e0] but for its flags [invalid] and [re_part];
    a miss is left as it is. *)
Definition same_slot (e0 e : ocf_map_info) : Prop :=
  hash e = hash e0 ∧ coll_idx e = coll_idx e0
  ∧ core_line e = core_line e0 ∧ core_id e = core_id e0
  ∧ status e = status e0
  ∧ (status e0 = LOOKUP_MISS → e = e0).

(** Recency updates of the eviction policy do not rewrite the identity a
    cache line stores. *)
Definition set_hot_keeps_core_info : Prop :=
  ∀ c line x,
    ocf_metadata_get_core_info (ocf_eviction_set_hot_cache_line c line) x
    = ocf_metadata_get_core_info c x.

(** Recency updates of the eviction policy do not touch the dirty bits. *)
Definition set_hot_keeps_dirty : Prop :=
  ∀ c line x,
    metadata_test_dirty (ocf_eviction_set_hot_cache_line c line) x
    = metadata_test_dirty c x.

(** Invariant of the rounds of traversal for [dirty_any]: it counts the
    dirty hits among the first [k] entries, and the dirty bits are those
    of [c0]. *)
Definition dirtied (c0 : ocf_cache) (k : nat) (s : state) : Prop :=
  dirty_any (info (req s)) = count_upto (to_clean c0) (req_map (req s)) k
  ∧ ∀ x, metadata_test_dirty (cache s) x = metadata_test_dirty c0 x.

(** A return of the pipeline without mapping error leaves no entry
    unmapped. *)
Definition mapped_unless_error (s' : state) : Prop :=
  mapping_error (info (req s')) = false →
  ocf_engine_unmapped_count (req s') = 0.

(** A request for the cache-line lock of the request. *)
Definition is_lock_request (ev : event) : bool :=
  match ev with
  | ev_async_lock_wr _ | ev_async_lock_rd _ => true
  | _ => false
  end.

(** A call of the promotion policy or of eviction. *)
Definition is_policy_call (ev : event) : bool :=
  match ev with
  | ev_promotion_should_promote | ev_promotion_purge | ev_evict_do _ => true
  | _ => false
  end.

(** From [s0] to [s] the trace grew by calls of the policies only. *)
Definition policy_calls (s0 s : state) : Prop :=
  ∃ calls, trace s = trace s0 ++ calls ∧ forallb is_policy_call calls = true.

(** From [s0] to [s] the trace grew by calls of the policies, and then by
    at most one request for the cache-line lock. *)
Definition lock_comes_last (s0 s : state) : Prop :=
  ∃ calls lock,
    trace s = trace s0 ++ calls ++ lock
    ∧ forallb is_policy_call calls = true
    ∧ (lock = [] ∨ ∃ ev, lock = [ev] ∧ is_lock_request ev = true).

(** What no function of the file changes in a request. *)
Definition extent (r : ocf_request) : Z * Z * Z * Z * Z * Z * Z * option Z :=
  (core r, core_line_first r, core_line_last r, core_line_count r,
   part_id r, engine_cbs r, rw r, io_queue r).

(** The locks held, the queue and the address of the request. *)
Definition outer (s : state) : Z * Z * Z * Z * list Z * Z :=
  (self s, hb_rd_count s, hb_wr_count s, meta_x s, io_list s, io_no s).

(** [s] differs from [s0] at most in the cache, the trace and the fields
    of the request outside its [extent]. *)
Definition stable (s0 s : state) : Prop :=
  extent (req s) = extent (req s0) ∧ outer s = outer s0.

(** From [s] to [s'] the request's holds of the hash-bucket read lock, of
    the hash-bucket write lock and of exclusive metadata access moved by
    [rd], [wr] and [x]. *)
Definition locks_moved (rd wr x : Z) (s s' : state) : Prop :=
  hb_rd_count s' = hb_rd_count s + rd
  ∧ hb_wr_count s' = hb_wr_count s + wr
  ∧ meta_x s' = meta_x s + x.

(** [stable], nothing was added to the trace, and the I/O interface, the
    private pointer and the error of the request are as they were. *)
Definition silent (s0 s : state) : Prop :=
  stable s0 s
  ∧ trace s = trace s0
  ∧ io_if (req s) = io_if (req s0)
  ∧ priv (req s) = priv (req s0)
  ∧ req_error (req s) = req_error (req s0).

(** [m] preserves [P]. *)
Definition keeps {A} (P : state → Prop) (m : M A) : Prop :=
  ∀ s, P s → wlp m (λ _, P) s.

End Vocabulary.

(** ** Reasoning about the monad *)

Section MonadLemmas.
Context `{!Consumed}.

Lemma bind_Some {A B} (m : M A) (f : A → M B) s b s' :
  (m ≫= f) s = Some (b, s') ↔ ∃ a s1, m s = Some (a, s1) ∧ f a s1 = Some (b, s').
Proof.
  unfold mbind, M_bind. split.
  - destruct (m s) as [[a s1]|] eqn:E; [|done]. intros Hf. by exists a, s1.
  - intros (a & s1 & -> & Hf). done.
Qed.

Lemma bind_eq {A B} (m : M A) (f : A → M B) s a s1 :
  m s = Some (a, s1) → (m ≫= f) s = f a s1.
Proof. unfold mbind, M_bind. by intros ->. Qed.

Lemma wlp_ret {A} (a : A) Q s : Q a s → wlp (mret a) Q s.
Proof. intros HQ a' s' [= <- <-]. done. Qed.

Lemma wlp_bind {A B} (m : M A) (f : A → M B) Q s :
  wlp m (λ a, wlp (f a) Q) s → wlp (m ≫= f) Q s.
Proof.
  intros Hm b s' (a & s1 & Hm1 & Hf)%bind_Some. by eapply Hm.
Qed.

Lemma wlp_mono {A} (m : M A) (Q Q' : A → state → Prop) s :
  wlp m Q s → (∀ a s', Q a s' → Q' a s') → wlp m Q' s.
Proof. intros Hm HQ a s' Hr. eauto. Qed.

Lemma wlp_bug {A} Q s : wlp (@ENV_BUG _ A) Q s.
Proof. by intros a s'. Qed.

Lemma wlp_none {A} (Q : A → state → Prop) s : wlp (λ _, None) Q s.
Proof. by intros a s'. Qed.

Lemma wlp_prim {A} (a : A) (g : state → state) Q s :
  Q a (g s) → wlp (λ s, Some (a, g s)) Q s.
Proof. intros HQ a' s' [= <- <-]. done. Qed.

Lemma wlp_get_cache Q s : Q (cache s) s → wlp get_cache Q s.
Proof. intros HQ a s' [= <- <-]. done. Qed.

Lemma wlp_get_req Q s : Q (req s) s → wlp get_req Q s.
Proof. intros HQ a s' [= <- <-]. done. Qed.

Lemma wlp_modify_cache f Q s : Q tt (with_cache f s) → wlp (modify_cache f) Q s.
Proof. intros HQ a s' [= <- <-]. done. Qed.

Lemma wlp_modify_req f Q s : Q tt (with_req f s) → wlp (modify_req f) Q s.
Proof. intros HQ a s' [= <- <-]. done. Qed.

Lemma wlp_modify_info f Q s :
  Q tt (with_req (λ r, set_info (f (info r)) r) s) → wlp (modify_info f) Q s.
Proof. intros HQ a s' [= <- <-]. done. Qed.

Lemma wlp_emit e Q s : Q tt (with_trace (λ t, t ++ [e]) s) → wlp (emit e) Q s.
Proof. intros HQ a s' [= <- <-]. done. Qed.

Lemma wlp_map_entry idx Q s :
  (∀ e, req_map (req s) !! idx = Some e → Q e s) → wlp (map_entry idx) Q s.
Proof.
  intros HQ a s'. unfold map_entry.
  destruct (req_map (req s) !! idx) as [e|] eqn:E; [|done].
  intros [= <- <-]. by apply HQ.
Qed.

Lemma wlp_modify_map_entry idx f Q s :
  (∀ e, req_map (req s) !! idx = Some e →
        Q tt (with_req (λ r, set_req_map (<[idx := f e]> (req_map r)) r) s)) →
  wlp (modify_map_entry idx f) Q s.
Proof.
  intros HQ. unfold modify_map_entry. apply wlp_bind, wlp_map_entry.
  intros e He. apply wlp_modify_req. by apply HQ.
Qed.

Lemma map_entry_Some idx s e :
  req_map (req s) !! idx = Some e → map_entry idx s = Some (e, s).
Proof. unfold map_entry. by intros ->. Qed.

Lemma modify_map_entry_Some idx f s e :
  req_map (req s) !! idx = Some e →
  modify_map_entry idx f s
  = Some (tt, with_req (λ r, set_req_map (<[idx := f e]> (req_map r)) r) s).
Proof.
  intros He. unfold modify_map_entry.
  by rewrite (bind_eq _ _ _ _ _ (map_entry_Some _ _ _ He)).
Qed.

Lemma keeps_ret {A} P (a : A) : keeps P (mret a).
Proof. intros s HP. by apply wlp_ret. Qed.

Lemma keeps_bind {A B} P (m : M A) (f : A → M B) :
  keeps P m → (∀ a, keeps P (f a)) → keeps P (m ≫= f).
Proof.
  intros Hm Hf s HP. apply wlp_bind. eapply wlp_mono; [by apply Hm|].
  intros a s' HP'. by apply Hf.
Qed.

Lemma keeps_bug {A} P : keeps P (@ENV_BUG _ A).
Proof. intros s _. apply wlp_bug. Qed.

Lemma keeps_none {A} P : keeps (A:=A) P (λ _, None).
Proof. intros s _. apply wlp_none. Qed.

Lemma keeps_get_cache P : keeps P get_cache.
Proof. intros s HP. by apply wlp_get_cache. Qed.

Lemma keeps_get_req P : keeps P get_req.
Proof. intros s HP. by apply wlp_get_req. Qed.

Lemma keeps_map_entry P idx : keeps P (map_entry idx).
Proof. intros s HP. by apply wlp_map_entry. Qed.

Lemma keeps_test_mapping_error P : keeps P ocf_req_test_mapping_error.
Proof. apply keeps_bind; [apply keeps_get_req|]. intros r. apply keeps_ret. Qed.

Lemma keeps_modify_cache P f :
  (∀ s, P s → P (with_cache f s)) → keeps P (modify_cache f).
Proof. intros Hf s HP. apply wlp_modify_cache. by apply Hf. Qed.

Lemma keeps_modify_req P f :
  (∀ s, P s → P (with_req f s)) → keeps P (modify_req f).
Proof. intros Hf s HP. apply wlp_modify_req. by apply Hf. Qed.

Lemma keeps_emit P e :
  (∀ s, P s → P (with_trace (λ t, t ++ [e]) s)) → keeps P (emit e).
Proof. intros Hf s HP. apply wlp_emit. by apply Hf. Qed.

Lemma keeps_modify_map_entry P idx f :
  (∀ s g, P s → P (with_req (λ r, set_req_map (g (req_map r)) r) s)) →
  keeps P (modify_map_entry idx f).
Proof.
  intros Hf s HP. apply wlp_modify_map_entry. intros e _.
  by apply (Hf s (λ m, <[idx := f e]> m)).
Qed.

Lemma keeps_wlp {A} P (m : M A) s : keeps P m → P s → wlp m (λ _, P) s.
Proof. intros Hm. apply Hm. Qed.

End MonadLemmas.

(** One step of symbolic execution of a [wlp] goal. *)
Ltac wlp_rule :=
  lazymatch goal with
  | |- wlp (mbind _ _) _ _ => apply wlp_bind
  | |- wlp (mret _) _ _ => apply wlp_ret
  | |- wlp get_cache _ _ => apply wlp_get_cache
  | |- wlp get_req _ _ => apply wlp_get_req
  | |- wlp (modify_cache _) _ _ => apply wlp_modify_cache
  | |- wlp (modify_req _) _ _ => apply wlp_modify_req
  | |- wlp (modify_info _) _ _ => apply wlp_modify_info
  | |- wlp (emit _) _ _ => apply wlp_emit
  | |- wlp ocf_req_clear_info _ _ => apply wlp_modify_req
  | |- wlp ocf_req_set_mapping_error _ _ => apply wlp_modify_info
  | |- wlp ocf_req_set_part_evict _ _ => apply wlp_modify_req
  | |- wlp ocf_req_clear_part_evict _ _ => apply wlp_modify_req
  | |- wlp ocf_hb_req_prot_lock_rd _ _ => apply wlp_prim
  | |- wlp ocf_hb_req_prot_unlock_rd _ _ => apply wlp_prim
  | |- wlp ocf_hb_req_prot_lock_upgrade _ _ =>
      apply (wlp_prim tt (λ s, with_hb_wr_count _ (with_hb_rd_count _ s)))
  | |- wlp ocf_hb_req_prot_unlock_wr _ _ => apply wlp_prim
  | |- wlp ocf_metadata_start_exclusive_access _ _ => apply wlp_prim
  | |- wlp ocf_metadata_end_exclusive_access _ _ => apply wlp_prim
  | |- wlp ENV_BUG _ _ => apply wlp_bug
  | |- wlp (λ _, None) _ _ => apply wlp_none
  | |- wlp (map_entry _) _ _ => apply wlp_map_entry; intros ? ?
  | |- wlp (modify_map_entry _ _) _ _ => apply wlp_modify_map_entry; intros ? ?
  | |- wlp (if decide ?P then _ else _) _ _ => destruct (decide P)
  | |- wlp (if negb ?b then _ else _) _ _ => destruct b eqn:?; simpl negb
  | |- wlp (if ?b then _ else _) _ _ => destruct b eqn:?
  | |- wlp (match ?x with _ => _ end) _ _ => destruct x eqn:?
  end.

Ltac wlp_step := wlp_rule; cbn beta iota.

Ltac wlp_steps := repeat wlp_step.

(** Straight-line symbolic execution: stop at branches and at calls. *)
Ltac wlp_line :=
  repeat lazymatch goal with
         | |- wlp (if _ then _ else _) _ _ => fail
         | |- wlp (match _ with _ => _ end) _ _ => fail
         | |- _ => wlp_step
         end.

(** ** Per-entry lookup *)

Section Lookup.
Context `{!Consumed}.

Lemma chain_nil c line : line = collision_table_entries c → chain c line [].
Proof. intros ->. constructor. Qed.

Lemma chain_cons c line next rest :
  line ≠ collision_table_entries c →
  ocf_metadata_get_collision_next c line = next →
  chain c next rest →
  chain c line (line :: rest).
Proof. intros Hne <- Hrest. by constructor. Qed.

(** The walk over a chain that ends in the sentinel returns, given one unit
    of fuel per member: the first member that holds the identity makes the
    entry a hit on that line, and the entry is left alone when none does. *)
Lemma lookup_walk_chain c core_id core_line entry line ch fuel :
  chain c line ch →
  (length ch < fuel)%nat →
  lookup_walk fuel c core_id core_line line entry
  = Some match find (holds c core_id core_line) ch with
         | Some l => set_status LOOKUP_HIT (set_coll_idx l entry)
         | None => entry
         end.
Proof.
  intros Hch. revert fuel.
  induction Hch as [|line rest Hne Hrest IH]; intros fuel Hfuel.
  - destruct fuel; simpl; by rewrite decide_True.
  - destruct fuel as [|fuel]; [simpl in Hfuel; lia|].
    simpl. rewrite decide_False by done. unfold holds at 1.
    destruct (ocf_metadata_get_core_info c line) as [cid cl] eqn:Hinfo.
    destruct (decide (core_id = cid ∧ cl = core_line)) as [[-> ->]|Hno].
    + by rewrite bool_decide_eq_true_2.
    + rewrite bool_decide_eq_false_2; [|intros [= -> ->]; by apply Hno].
      apply IH. simpl in Hfuel. lia.
Qed.

(** C8: the per-entry lookup first makes the entry a miss with the sentinel
    collision index, the bucket and the identity given, then walks the
    chain of that bucket from its head; the first member holding
    [(core_id, core_line)] turns it into a hit on that cache line and stops
    the walk, and with no such member it stays the initial miss.  Only cell
    [idx] of the request's map is written: the cache, and every hash chain
    in it, is as before. *)
Theorem lookup_map_entry_first_match fuel idx cid cl s e0 ch :
  req_map (req s) !! idx = Some e0 →
  chain (cache s)
    (ocf_metadata_get_hash (cache s)
       (ocf_metadata_hash_func (cache s) cl cid)) ch →
  (length ch < fuel)%nat →
  ∃ e s',
    ocf_engine_lookup_map_entry fuel idx cid cl s = Some (tt, s')
    ∧ s' = with_req (λ r, set_req_map (<[idx := e]> (req_map r)) r) s
    ∧ cache s' = cache s
    ∧ core_id e = cid ∧ core_line e = cl
    ∧ hash e = ocf_metadata_hash_func (cache s) cl cid
    ∧ re_part e = re_part e0 ∧ invalid e = invalid e0
    ∧ match find (holds (cache s) cid cl) ch with
      | Some line => status e = LOOKUP_HIT ∧ coll_idx e = line
      | None =>
          status e = LOOKUP_MISS
          ∧ coll_idx e = collision_table_entries (cache s)
      end.
Proof.
  intros He0 Hch Hfuel.
  set (e := match find (holds (cache s) cid cl) ch with
            | Some line =>
                set_status LOOKUP_HIT
                  (set_coll_idx line (lookup_initial (cache s) cid cl e0))
            | None => lookup_initial (cache s) cid cl e0
            end).
  exists e, (with_req (λ r, set_req_map (<[idx := e]> (req_map r)) r) s).
  split.
  - unfold ocf_engine_lookup_map_entry.
    rewrite (bind_eq _ _ s (cache s) s) by done.
    erewrite bind_eq by (by apply modify_map_entry_Some).
    erewrite bind_eq.
    2:{ apply map_entry_Some. simpl. apply list_lookup_insert_eq.
        by eapply lookup_lt_Some. }
    simpl hash.
    rewrite (lookup_walk_chain _ _ _ _ _ ch) by done.
    erewrite modify_map_entry_Some.
    2:{ simpl. apply list_lookup_insert_eq. by eapply lookup_lt_Some. }
    unfold with_req, set_req_map; simpl.
    by rewrite list_insert_insert_eq.
  - subst e. by destruct (find _ ch).
Qed.

End Lookup.

(** The lookup of core line 10 of core 0 in the scenario cache: bucket 2
    chains line 6 (core line 18) before line 3. *)
Lemma lookup_map_entry_first_match_witness :
  ∃ e s',
    ocf_engine_lookup_map_entry 3 0 0 10
      (Sim.scenario (Sim.scenario_cache [] 0 true) (Sim.scenario_req 10 1))
    = Some (tt, s')
    ∧ status e = LOOKUP_HIT ∧ coll_idx e = 3
    ∧ req_map (req s') = [e].
Proof.
  destruct (lookup_map_entry_first_match 3 0 0 10
              (Sim.scenario (Sim.scenario_cache [] 0 true) (Sim.scenario_req 10 1))
              Sim.blank_entry [6; 3])
    as (e & s' & Hrun & -> & _ & _ & _ & _ & _ & _ & Hfind).
  - reflexivity.
  - apply (chain_cons _ 6 3); [by vm_compute|reflexivity|].
    apply (chain_cons _ 3 16); [by vm_compute|reflexivity|].
    by apply chain_nil.
  - simpl. lia.
  - eexists e, _. split; [exact Hrun|].
    change (status e = LOOKUP_HIT ∧ coll_idx e = 3) in Hfind.
    by destruct Hfind as [-> ->].
Defined.

(** ** Accounting of one entry *)

(** Case analysis on the metadata tests of [ocf_engine_update_req_info]. *)
Ltac case_metadata_tests :=
  repeat match goal with
         | |- context [metadata_test_valid_sec ?a ?b ?c ?d] =>
             destruct (metadata_test_valid_sec a b c d)
         | |- context [metadata_test_dirty ?a ?b] =>
             destruct (metadata_test_dirty a b)
         | |- context [metadata_test_dirty_all_sec ?a ?b ?c ?d] =>
             destruct (metadata_test_dirty_all_sec a b c d)
         | |- context [decide (part_id ?a ≠ ?b)] =>
             destruct (decide (part_id a ≠ b))
         end.

Section Accounting.
Context `{!Consumed}.

Lemma u32_range x : 0 ≤ u32 x < 2 ^ 32.
Proof. unfold u32. apply Z.mod_pos_bound. lia. Qed.

Lemma u32_small x : 0 ≤ x < 2 ^ 32 → u32 x = x.
Proof. unfold u32. intros. by apply Z.mod_small. Qed.

Lemma phys_range c l : 0 ≤ phys c l < 2 ^ 32.
Proof. apply u32_range. Qed.

(** The test [phys1 < phys2 && phys1 + 1 == phys2] on [uint32_t] says that
    [phys2] is the successor of [phys1]. *)
Lemma phys_cont_test c l1 l2 :
  bool_decide (phys c l1 < phys c l2)
  && bool_decide (u32 (phys c l1 + 1) = phys c l2)
  = bool_decide (phys c l1 + 1 = phys c l2).
Proof.
  pose proof (phys_range c l1). pose proof (phys_range c l2).
  destruct (decide (phys c l1 + 1 = phys c l2)) as [Heq|Hne].
  - rewrite (bool_decide_eq_true_2 _ Heq).
    rewrite bool_decide_eq_true_2 by lia.
    rewrite bool_decide_eq_true_2; [done|]. rewrite u32_small; lia.
  - rewrite (bool_decide_eq_false_2 _ Hne).
    destruct (decide (phys c l1 < phys c l2)).
    + rewrite bool_decide_eq_true_2 by done.
      rewrite bool_decide_eq_false_2; [done|]. rewrite u32_small; lia.
    + by rewrite bool_decide_eq_false_2.
Qed.

Lemma phys_cont_run j s e1 e2 :
  req_map (req s) !! j = Some e1 →
  req_map (req s) !! S j = Some e2 →
  ocf_engine_clines_phys_cont j s = Some (cont_pair (cache s) e1 e2, s).
Proof.
  intros H1 H2. unfold ocf_engine_clines_phys_cont, cont_pair.
  rewrite (bind_eq _ _ s (cache s) s) by done.
  rewrite (bind_eq _ _ _ _ _ (map_entry_Some _ _ _ H1)).
  destruct (decide (status e1 = LOOKUP_MISS)) as [Hm|Hm].
  { by rewrite (bool_decide_eq_false_2 (status e1 ≠ _)) by tauto. }
  rewrite (bool_decide_eq_true_2 (status e1 ≠ _)) by done.
  replace (j + 1)%nat with (S j) by lia.
  rewrite (bind_eq _ _ _ _ _ (map_entry_Some _ _ _ H2)).
  destruct (decide (status e2 = LOOKUP_MISS)) as [Hm2|Hm2].
  { by rewrite (bool_decide_eq_false_2 (status e2 ≠ _)) by tauto. }
  rewrite (bool_decide_eq_true_2 (status e2 ≠ _)) by done.
  by rewrite phys_cont_test.
Qed.

(** The last statement of [ocf_engine_update_req_info], at an index inside
    the map. *)
Lemma seq_tail_run idx s e :
  req_map (req s) !! idx = Some e →
  (if decide (0 < idx)%nat
   then cont ← ocf_engine_clines_phys_cont (idx - 1);
        if (cont : bool) then modify_info incr_seq_no else mret tt
   else mret tt) s
  = Some (tt, seq_bump idx s).
Proof.
  intros He. unfold seq_bump.
  destruct (decide (0 < idx)%nat) as [Hpos|Hpos].
  - rewrite bool_decide_eq_true_2 by done. simpl andb.
    destruct (lookup_lt_is_Some_2 (req_map (req s)) (idx - 1)) as [e1 He1].
    { apply lookup_lt_Some in He. lia. }
    assert (req_map (req s) !! S (idx - 1) = Some e) as He2.
    { by replace (S (idx - 1)) with idx by lia. }
    rewrite (bind_eq _ _ _ _ _ (phys_cont_run _ _ _ _ He1 He2)).
    unfold cont_at. rewrite He1, He2. by destruct (cont_pair _ e1 e).
  - by rewrite bool_decide_eq_false_2.
Qed.

Lemma account_lookup idx e s :
  req_map (req s) !! idx = Some e →
  ∃ e', req_map (req (account idx e s)) !! idx = Some e'
        ∧ status e' = status e ∧ coll_idx e' = coll_idx e.
Proof.
  intros He. unfold account.
  destruct (status e) eqn:Hst; try (by exists e).
  repeat match goal with
         | |- context [if ?b then _ else _] => destruct b
         end; simpl; try (by exists e).
  all: exists (set_re_part true e); split; [|done].
  all: apply list_lookup_insert_eq; by eapply lookup_lt_Some.
Qed.

(** [ocf_engine_update_req_info] returns on every status but REMAPPED, with
    the accounting of the entry followed by the sequentiality step. *)
Lemma update_req_info_run idx s e :
  req_map (req s) !! idx = Some e →
  status e ≠ LOOKUP_REMAPPED →
  ocf_engine_update_req_info idx s = Some (tt, seq_bump idx (account idx e s)).
Proof.
  intros He Hst. unfold ocf_engine_update_req_info.
  rewrite (bind_eq _ _ s (cache s) s) by done.
  rewrite (bind_eq _ _ s (req s) s) by done.
  rewrite (bind_eq _ _ _ _ _ (map_entry_Some _ _ _ He)).
  destruct (account_lookup idx e s He) as (e' & He' & _).
  erewrite bind_eq; [by apply (seq_tail_run idx _ e')|].
  clear He'. unfold account.
  destruct (status e) eqn:Hse; try done.
  case_metadata_tests;
    unfold mbind, M_bind, mret, M_ret, modify_info, modify_req; simpl;
    rewrite ?(modify_map_entry_Some _ _ _ e) by exact He; done.
Qed.

Lemma update_req_info_remapped idx s e :
  req_map (req s) !! idx = Some e →
  status e = LOOKUP_REMAPPED →
  ocf_engine_update_req_info idx s = None.
Proof.
  intros He Hst. unfold ocf_engine_update_req_info.
  rewrite (bind_eq _ _ s (cache s) s) by done.
  rewrite (bind_eq _ _ s (req s) s) by done.
  rewrite (bind_eq _ _ _ _ _ (map_entry_Some _ _ _ He)).
  by rewrite Hst.
Qed.

(** C4: what [ocf_engine_update_req_info] accounts for entry [idx].  A HIT
    increments [hit_no] when all targeted sectors are valid and [invalid_no]
    otherwise; on a dirty line it increments [dirty_any], and [dirty_all]
    too exactly when every targeted sector is dirty; when the line's
    partition differs from the request's it sets [re_part] on the entry and
    increments [re_part_no].  An INSERTED entry increments [insert_no] and
    nothing else of these.  A MISS changes none of these counters.  (A
    REMAPPED entry traps.)  Increments are those of [unsigned int]. *)
Theorem update_req_info_accounting idx s e :
  req_map (req s) !! idx = Some e →
  let c := cache s in
  let r := req s in
  let i := info r in
  let line := coll_idx e in
  let start_sector := ocf_map_line_start_sector c r (Z.of_nat idx) in
  let end_sector := ocf_map_line_end_sector c r (Z.of_nat idx) in
  match status e with
  | LOOKUP_HIT =>
      ∃ s', ocf_engine_update_req_info idx s = Some (tt, s')
        ∧ cache s' = c
        ∧ (if metadata_test_valid_sec c line start_sector end_sector
           then hit_no (info (req s')) = u32 (hit_no i + 1)
                ∧ invalid_no (info (req s')) = invalid_no i
           else hit_no (info (req s')) = hit_no i
                ∧ invalid_no (info (req s')) = u32 (invalid_no i + 1))
        ∧ (if metadata_test_dirty c line
           then dirty_any (info (req s')) = u32 (dirty_any i + 1)
                ∧ (if metadata_test_dirty_all_sec c line start_sector end_sector
                   then dirty_all (info (req s')) = u32 (dirty_all i + 1)
                   else dirty_all (info (req s')) = dirty_all i)
           else dirty_any (info (req s')) = dirty_any i
                ∧ dirty_all (info (req s')) = dirty_all i)
        ∧ (if decide (part_id r ≠ ocf_metadata_get_partition_id c line)
           then req_map (req s') = <[idx := set_re_part true e]> (req_map r)
                ∧ re_part_no (info (req s')) = u32 (re_part_no i + 1)
           else req_map (req s') = req_map r
                ∧ re_part_no (info (req s')) = re_part_no i)
        ∧ insert_no (info (req s')) = insert_no i
  | LOOKUP_INSERTED =>
      ∃ s', ocf_engine_update_req_info idx s = Some (tt, s')
        ∧ cache s' = c
        ∧ insert_no (info (req s')) = u32 (insert_no i + 1)
        ∧ hit_no (info (req s')) = hit_no i
        ∧ invalid_no (info (req s')) = invalid_no i
        ∧ dirty_any (info (req s')) = dirty_any i
        ∧ dirty_all (info (req s')) = dirty_all i
        ∧ re_part_no (info (req s')) = re_part_no i
        ∧ req_map (req s') = req_map r
  | LOOKUP_MISS =>
      ∃ s', ocf_engine_update_req_info idx s = Some (tt, s')
        ∧ cache s' = c
        ∧ insert_no (info (req s')) = insert_no i
        ∧ hit_no (info (req s')) = hit_no i
        ∧ invalid_no (info (req s')) = invalid_no i
        ∧ dirty_any (info (req s')) = dirty_any i
        ∧ dirty_all (info (req s')) = dirty_all i
        ∧ re_part_no (info (req s')) = re_part_no i
        ∧ req_map (req s') = req_map r
  | LOOKUP_REMAPPED => ocf_engine_update_req_info idx s = None
  end.
Proof.
  intros He c r i line start_sector end_sector.
  destruct (status e) eqn:Hst.
  4: by apply (update_req_info_remapped idx s e).
  all: eexists; split;
    [apply (update_req_info_run idx s e He); by rewrite Hst|].
  all: unfold seq_bump, account; rewrite Hst.
  all: subst c r i line start_sector end_sector.
  all: case_metadata_tests.
  all: match goal with
       | |- context [if ?b then _ else _] => destruct b
       end; simpl; done.
Qed.

End Accounting.

(** ** What the functions leave alone *)

(** Structural proof that a function keeps a frame predicate such as
    [stable s0] or [silent s0]: follow the binds and the branches down to
    the primitives, which touch only the cache and request fields outside
    the extent (and, for [stable], the trace). *)
Ltac keeps_frame :=
  repeat first
    [ match goal with Hkeeps : context [keeps] |- _ => apply Hkeeps end
    | apply keeps_ret
    | apply keeps_bug
    | apply keeps_none
    | apply keeps_get_cache
    | apply keeps_get_req
    | apply keeps_map_entry
    | apply keeps_test_mapping_error
    | apply keeps_modify_cache; intros ? Hframe; exact Hframe
    | apply keeps_modify_req; intros ? Hframe; exact Hframe
    | apply keeps_emit; intros ? Hframe; exact Hframe
    | apply keeps_modify_map_entry; intros ? ? Hframe; exact Hframe
    | apply keeps_bind; [|intros ?]
    | match goal with
      | |- keeps _ (if decide ?P then _ else _) => destruct (decide P)
      | |- keeps _ (if ?b then _ else _) => destruct b
      | |- keeps _ (match ?x with _ => _ end) => destruct x
      | |- keeps _ (let (_, _) := ?x in _) => destruct x
      | |- keeps _ (let _ := _ in _) => cbv zeta
      end ].

Section Frame.
Context `{!Consumed}.

Lemma stable_refl s : stable s s.
Proof. done. Qed.

Lemma stable_trans s0 s1 s2 : stable s0 s1 → stable s1 s2 → stable s0 s2.
Proof. intros [? ?] [? ?]. split; congruence. Qed.

Lemma silent_refl s : silent s s.
Proof. done. Qed.

(** A function that keeps [silent] keeps [stable]. *)
Lemma keeps_of_silent {A} (m : M A) :
  (∀ s0, keeps (silent s0) m) → ∀ s0, keeps (stable s0) m.
Proof.
  intros Hm s0 s Hst a s' Hrun.
  destruct (Hm s s (silent_refl s) a s' Hrun) as [Hst' _].
  by eapply stable_trans.
Qed.

Lemma silent_lookup s0 fuel idx cid cl :
  keeps (silent s0) (ocf_engine_lookup_map_entry fuel idx cid cl).
Proof. unfold ocf_engine_lookup_map_entry. keeps_frame. Qed.

Lemma silent_phys_cont s0 j : keeps (silent s0) (ocf_engine_clines_phys_cont j).
Proof. unfold ocf_engine_clines_phys_cont. keeps_frame. Qed.

Lemma silent_update_req_info s0 idx :
  keeps (silent s0) (ocf_engine_update_req_info idx).
Proof.
  pose proof (silent_phys_cont s0).
  unfold ocf_engine_update_req_info, modify_info. keeps_frame.
Qed.

Lemma silent_patch_req_info s0 idx :
  keeps (silent s0) (ocf_engine_patch_req_info idx).
Proof.
  pose proof (silent_phys_cont s0).
  unfold ocf_engine_patch_req_info, modify_info. keeps_frame.
Qed.

Lemma silent_traverse_round s0 fuel i cl :
  keeps (silent s0) (traverse_round fuel i cl).
Proof.
  pose proof (silent_lookup s0 fuel). pose proof (silent_update_req_info s0).
  unfold traverse_round. keeps_frame.
Qed.

Lemma silent_traverse_loop s0 fuel n i cl :
  keeps (silent s0) (traverse_loop fuel n i cl).
Proof.
  revert i cl. induction n as [|n IH]; intros i cl; simpl.
  - apply keeps_ret.
  - apply keeps_bind; [apply silent_traverse_round|]. intros _. apply IH.
Qed.

Lemma silent_traverse s0 fuel : keeps (silent s0) (ocf_engine_traverse fuel).
Proof.
  pose proof (silent_traverse_loop s0 fuel).
  unfold ocf_engine_traverse, ocf_req_clear_info. keeps_frame.
Qed.

Lemma silent_check_round s0 i result : keeps (silent s0) (check_round i result).
Proof.
  pose proof (silent_update_req_info s0).
  unfold check_round. keeps_frame.
Qed.

Lemma silent_check_loop s0 n i result : keeps (silent s0) (check_loop n i result).
Proof.
  revert i result. induction n as [|n IH]; intros i result; simpl.
  - apply keeps_ret.
  - apply keeps_bind; [apply silent_check_round|]. intros r. apply IH.
Qed.

Lemma silent_check s0 : keeps (silent s0) ocf_engine_check.
Proof.
  pose proof (silent_check_loop s0).
  unfold ocf_engine_check, ocf_req_clear_info. keeps_frame.
Qed.

Lemma silent_map_cache_line s0 idx line :
  keeps (silent s0) (ocf_map_cache_line idx line).
Proof. unfold ocf_map_cache_line. keeps_frame. Qed.

Lemma silent_engine_map_cache_line s0 idx :
  keeps (silent s0) (ocf_engine_map_cache_line idx).
Proof.
  pose proof (silent_map_cache_line s0).
  unfold ocf_engine_map_cache_line, modify_info. keeps_frame.
Qed.

Lemma silent_map_hndl_error_round s0 i :
  keeps (silent s0) (map_hndl_error_round i).
Proof. unfold map_hndl_error_round. keeps_frame. Qed.

Lemma silent_map_hndl_error_loop s0 n i :
  keeps (silent s0) (map_hndl_error_loop n i).
Proof.
  revert i. induction n as [|n IH]; intros i; simpl.
  - apply keeps_ret.
  - apply keeps_bind; [apply silent_map_hndl_error_round|]. intros _. apply IH.
Qed.

Lemma silent_map_hndl_error s0 : keeps (silent s0) ocf_engine_map_hndl_error.
Proof.
  pose proof (silent_map_hndl_error_loop s0).
  unfold ocf_engine_map_hndl_error. keeps_frame.
Qed.

Lemma silent_map_round s0 fuel i cl : keeps (silent s0) (map_round fuel i cl).
Proof.
  pose proof (silent_lookup s0 fuel). pose proof (silent_update_req_info s0).
  pose proof (silent_engine_map_cache_line s0).
  pose proof (silent_map_hndl_error s0).
  unfold map_round. keeps_frame.
Qed.

Lemma silent_map_loop s0 fuel n i cl : keeps (silent s0) (map_loop fuel n i cl).
Proof.
  revert i cl. induction n as [|n IH]; intros i cl; simpl.
  - apply keeps_ret.
  - apply keeps_bind; [apply silent_map_round|]. intros [|]; [apply IH|].
    apply keeps_ret.
Qed.

Lemma keeps_traverse s0 fuel : keeps (stable s0) (ocf_engine_traverse fuel).
Proof. apply keeps_of_silent. intros s. apply silent_traverse. Qed.

Lemma keeps_check s0 : keeps (stable s0) ocf_engine_check.
Proof. apply keeps_of_silent. intros s. apply silent_check. Qed.

Lemma keeps_map_hndl_error s0 : keeps (stable s0) ocf_engine_map_hndl_error.
Proof. apply keeps_of_silent. intros s. apply silent_map_hndl_error. Qed.

Lemma keeps_map s0 fuel : keeps (stable s0) (ocf_engine_map fuel).
Proof.
  assert (∀ n i cl, keeps (stable s0) (map_loop fuel n i cl)).
  { intros n i cl. apply keeps_of_silent. intros s. apply silent_map_loop. }
  unfold ocf_engine_map, ocf_req_clear_info, ocf_req_set_mapping_error,
    modify_info.
  keeps_frame.
Qed.

Lemma keeps_lock_clines s0 : keeps (stable s0) _lock_clines.
Proof. unfold _lock_clines. keeps_frame. Qed.

End Frame.

(** ** Lock discipline of the pipeline *)

(** Run a callee that keeps [stable]: the continuation goes on from some
    state that is [stable] with respect to the current one. *)
Ltac wlp_call lem :=
  eapply wlp_mono; [apply lem; apply stable_refl | cbn beta; intros ? ? ?].

(** Symbolic execution of the pipeline down to its return points. *)
Ltac wlp_pipeline :=
  repeat first
    [ wlp_step; cbn beta
    | match goal with
      | |- wlp (ocf_engine_traverse _) _ _ => wlp_call keeps_traverse
      | |- wlp (ocf_engine_map _) _ _ => wlp_call keeps_map
      | |- wlp _lock_clines _ _ => wlp_call keeps_lock_clines
      | |- wlp ocf_req_test_mapping_error _ _ => unfold ocf_req_test_mapping_error
      | |- wlp ocf_req_set_mapping_error _ _ => unfold ocf_req_set_mapping_error
      | |- wlp ocf_req_set_part_evict _ _ => unfold ocf_req_set_part_evict
      | |- wlp ocf_req_clear_part_evict _ _ => unfold ocf_req_clear_part_evict
      | |- wlp ocf_req_hash _ _ => unfold ocf_req_hash
      | |- wlp ocf_hb_req_prot_lock_rd _ _ => apply wlp_prim
      | |- wlp ocf_hb_req_prot_unlock_rd _ _ => apply wlp_prim
      | |- wlp ocf_hb_req_prot_lock_upgrade _ _ =>
          apply (wlp_prim tt (λ s, with_hb_wr_count _ (with_hb_rd_count _ s)))
      | |- wlp ocf_hb_req_prot_unlock_wr _ _ => apply wlp_prim
      | |- wlp ocf_metadata_start_exclusive_access _ _ => apply wlp_prim
      | |- wlp ocf_metadata_end_exclusive_access _ _ => apply wlp_prim
      | |- context [space_managment_evict_do ?a ?b ?c] =>
          destruct (space_managment_evict_do a b c) as [[? ?] [? ?]]
      end ].

Ltac locks_solve :=
  repeat match goal with
         | Hst : stable _ _ |- _ =>
             destruct Hst as [_ Hst]; unfold outer in Hst; simpl in Hst;
             injection Hst as ? ? ? ? ? ?
         end;
  unfold locks_moved in *; simpl in *; lia.

Section LockDiscipline.
Context `{!Consumed}.

(** The eviction slow path takes exclusive metadata access and gives it
    back on each of its three ways out. *)
Lemma eviction_locks fuel lock_status s :
  wlp (prepare_clines_miss_eviction fuel lock_status)
    (λ _ s', locks_moved 0 0 0 s s') s.
Proof. unfold prepare_clines_miss_eviction. wlp_pipeline; locks_solve. Qed.

(** [ocf_prepare_clines_miss] is entered with the read hold and gives it
    back, directly or after the upgrade. *)
Lemma prepare_clines_miss_locks fuel s :
  wlp (ocf_prepare_clines_miss fuel) (λ _ s', locks_moved (-1) 0 0 s s') s.
Proof.
  unfold ocf_prepare_clines_miss. wlp_pipeline.
  all: try locks_solve.
  all: eapply wlp_mono; [apply eviction_locks|]; cbn beta; intros; locks_solve.
Qed.

Lemma prepare_clines_locks fuel s :
  wlp (ocf_engine_prepare_clines fuel) (λ _ s', locks_moved 0 0 0 s s') s.
Proof.
  unfold ocf_engine_prepare_clines. wlp_pipeline.
  all: try locks_solve.
  all: eapply wlp_mono; [apply prepare_clines_miss_locks|]; cbn beta; intros;
    locks_solve.
Qed.

(** C3: lock discipline.  A request that enters [ocf_engine_prepare_clines]
    holding no hash-bucket lock and no exclusive metadata access holds none
    on any return, whatever is returned and whether or not [mapping_error]
    was latched; [ocf_prepare_clines_miss], entered with the read hold that
    [ocf_engine_prepare_clines] took, returns with no hold at all; and the
    eviction slow path, entered without holds, has released exclusive
    metadata access on each of its returns. *)
Theorem prepare_clines_lock_discipline fuel :
  (∀ s rc s',
     hb_rd_count s = 0 → hb_wr_count s = 0 → meta_x s = 0 →
     ocf_engine_prepare_clines fuel s = Some (rc, s') →
     hb_rd_count s' = 0 ∧ hb_wr_count s' = 0 ∧ meta_x s' = 0)
  ∧ (∀ s rc s',
       hb_rd_count s = 1 → hb_wr_count s = 0 → meta_x s = 0 →
       ocf_prepare_clines_miss fuel s = Some (rc, s') →
       hb_rd_count s' = 0 ∧ hb_wr_count s' = 0 ∧ meta_x s' = 0)
  ∧ (∀ lock_status s rc s',
       hb_rd_count s = 0 → hb_wr_count s = 0 → meta_x s = 0 →
       prepare_clines_miss_eviction fuel lock_status s = Some (rc, s') →
       hb_rd_count s' = 0 ∧ hb_wr_count s' = 0 ∧ meta_x s' = 0).
Proof.
  split; [|split].
  - intros s rc s' Hrd Hwr Hx Hrun.
    pose proof (prepare_clines_locks fuel s rc s' Hrun). locks_solve.
  - intros s rc s' Hrd Hwr Hx Hrun.
    pose proof (prepare_clines_miss_locks fuel s rc s' Hrun). locks_solve.
  - intros lock_status s rc s' Hrd Hwr Hx Hrun.
    pose proof (eviction_locks fuel lock_status s rc s' Hrun). locks_solve.
Qed.

End LockDiscipline.

(** ** Rounds of the loops, and the counters *)

Section Rounds.
Context `{!Consumed}.

Lemma lookup_walk_inv fuel c cid cl line e e' :
  lookup_walk fuel c cid cl line e = Some e' →
  e' = e ∨ ∃ l, holds c cid cl l = true
                ∧ e' = set_status LOOKUP_HIT (set_coll_idx l e).
Proof.
  revert line. induction fuel as [|fuel IH]; intros line; simpl.
  - destruct (decide _); [|done]. intros [= <-]. by left.
  - destruct (decide _); [intros [= <-]; by left|].
    destruct (ocf_metadata_get_core_info c line) as [ccid ccl] eqn:Hinfo.
    destruct (decide _) as [[-> ->]|Hno]; [|apply IH].
    intros [= <-]. right. exists line. split; [|done].
    unfold holds. by rewrite bool_decide_eq_true_2.
Qed.

Lemma wlp_lookup fuel i cid cl (Q : unit → state → Prop) s :
  (∀ e0 e', req_map (req s) !! i = Some e0 →
            looked_up (cache s) cid cl e0 e' →
            Q tt (with_map (λ m, <[i := e']> m) s)) →
  wlp (ocf_engine_lookup_map_entry fuel i cid cl) Q s.
Proof.
  intros HQ [] s' Hrun. unfold ocf_engine_lookup_map_entry in Hrun.
  rewrite (bind_eq _ _ s (cache s) s) in Hrun by done.
  destruct (req_map (req s) !! i) as [e0|] eqn:He0.
  2:{ apply bind_Some in Hrun as (? & ? & Hm & _).
      unfold modify_map_entry in Hm. apply bind_Some in Hm as (? & ? & Hm & _).
      unfold map_entry in Hm. by rewrite He0 in Hm. }
  erewrite bind_eq in Hrun by (by apply modify_map_entry_Some).
  erewrite bind_eq in Hrun.
  2:{ apply map_entry_Some. simpl. apply list_lookup_insert_eq.
      by eapply lookup_lt_Some. }
  cbv zeta in Hrun.
  destruct (lookup_walk _ _ _ _ _ _) as [e'|] eqn:Hwalk; [|done].
  erewrite modify_map_entry_Some in Hrun.
  2:{ simpl. apply list_lookup_insert_eq. by eapply lookup_lt_Some. }
  injection Hrun as <-.
  apply lookup_walk_inv in Hwalk.
  replace (with_req _ _) with (with_map (λ m, <[i := e']> m) s).
  { apply (HQ e0); [done|]. destruct Hwalk as [->|(l & Hl & ->)]; [by left|].
    right. by exists l. }
  unfold with_map, with_req, set_req_map; simpl.
  by rewrite list_insert_insert_eq.
Qed.

Lemma wlp_update_req_info idx (Q : unit → state → Prop) s :
  (∀ e, req_map (req s) !! idx = Some e → status e ≠ LOOKUP_REMAPPED →
        Q tt (seq_bump idx (account idx e s))) →
  wlp (ocf_engine_update_req_info idx) Q s.
Proof.
  intros HQ [] s' Hrun.
  destruct (req_map (req s) !! idx) as [e|] eqn:He.
  - destruct (decide (status e = LOOKUP_REMAPPED)) as [Hre|Hre].
    + by rewrite (update_req_info_remapped idx s e) in Hrun.
    + rewrite (update_req_info_run idx s e) in Hrun by done.
      injection Hrun as <-. by apply HQ.
  - unfold ocf_engine_update_req_info in Hrun.
    rewrite (bind_eq _ _ s (cache s) s) in Hrun by done.
    rewrite (bind_eq _ _ s (req s) s) in Hrun by done.
    apply bind_Some in Hrun as (? & ? & Hm & _).
    unfold map_entry in Hm. by rewrite He in Hm.
Qed.

Lemma wlp_traverse_round fuel i cl (Q : unit → state → Prop) s :
  (∀ e0 e', req_map (req s) !! i = Some e0 →
            looked_up (cache s) (core (req s)) cl e0 e' →
            Q tt (traverse_step i e' s)) →
  wlp (traverse_round fuel i cl) Q s.
Proof.
  intros HQ. unfold traverse_round. wlp_step. wlp_step. cbn beta. wlp_step.
  apply wlp_lookup. intros e0 e' He0 Hlook.
  specialize (HQ e0 e' He0 Hlook). unfold traverse_step in HQ.
  apply wlp_bind, wlp_map_entry. intros e He. simpl in He.
  rewrite list_lookup_insert_eq in He by (by eapply lookup_lt_Some).
  injection He as <-.
  destruct (decide (status e' ≠ LOOKUP_HIT)) as [Hne|Heq].
  - apply wlp_ret. by rewrite decide_False in HQ.
  - apply dec_stable in Heq. rewrite decide_True in HQ by done.
    wlp_step. wlp_step. apply wlp_update_req_info. intros e He Hst.
    simpl in He. rewrite list_lookup_insert_eq in He by (by eapply lookup_lt_Some).
    by injection He as <-.
Qed.

(** Loop rule of [traverse_loop]: an invariant of the rounds, indexed by
    the number of rounds done, holds at the end. *)
Lemma traverse_loop_rule (I : nat → state → Prop) fuel N :
  (∀ i cl s, (i < N)%nat → I i s →
             wlp (traverse_round fuel i cl) (λ _, I (S i)) s) →
  ∀ n i cl s, (i + n = N)%nat → I i s →
              wlp (traverse_loop fuel n i cl) (λ _, I N) s.
Proof.
  intros Hround. induction n as [|n IH]; intros i cl s HN HI; simpl.
  - apply wlp_ret. by replace N with i by lia.
  - apply wlp_bind. eapply wlp_mono; [apply Hround; [lia|done]|].
    intros ? s1 HI1. cbn beta in *. apply IH; [lia|done].
Qed.

Lemma count_upto_bounds p m k : 0 ≤ count_upto p m k ≤ Z.of_nat k.
Proof.
  induction k as [|k IH]; simpl; [lia|].
  destruct (m !! k) as [e|]; [destruct (p e)|]; lia.
Qed.

Lemma count_upto_ext p m m' k :
  (∀ j, (j < k)%nat → m' !! j = m !! j) →
  count_upto p m' k = count_upto p m k.
Proof.
  induction k as [|k IH]; intros Hext; simpl; [done|].
  rewrite IH by (intros; apply Hext; lia). by rewrite Hext by lia.
Qed.

Lemma count_upto_insert p m i e k :
  (k ≤ i)%nat → count_upto p (<[i := e]> m) k = count_upto p m k.
Proof.
  intros Hle. apply count_upto_ext. intros j Hj.
  apply list_lookup_insert_ne. lia.
Qed.

Lemma count_upto_total m k :
  (∀ j, (j < k)%nat → ∃ e, m !! j = Some e ∧ status e ≠ LOOKUP_REMAPPED) →
  count_upto (is_status LOOKUP_HIT) m k
  + count_upto (is_status LOOKUP_INSERTED) m k
  + count_upto (is_status LOOKUP_MISS) m k = Z.of_nat k.
Proof.
  induction k as [|k IH]; intros Hall; simpl; [done|].
  destruct (Hall k) as (e & -> & Hst); [lia|].
  specialize (IH (λ j Hj, Hall j (Nat.lt_lt_succ_r _ _ Hj))).
  unfold is_status at 2 4 6.
  destruct (status e); try done; simpl; lia.
Qed.

Lemma counted_insert k r i e :
  (k ≤ i)%nat → counted k r →
  counted k (set_req_map (<[i := e]> (req_map r)) r).
Proof.
  intros Hle (Hall & Hrest). unfold counted. simpl.
  rewrite !count_upto_insert by done. split; [|done].
  intros j Hj. rewrite list_lookup_insert_ne by lia. by apply Hall.
Qed.

Lemma counted_seq_bump k i s :
  counted k (req s) → counted k (req (seq_bump i s)).
Proof. unfold seq_bump. by destruct (_ && _). Qed.

Lemma counted_account k e s :
  Z.of_nat k < 2 ^ 32 - 1 →
  req_map (req s) !! k = Some e →
  status e ≠ LOOKUP_REMAPPED →
  counted k (req s) →
  counted (S k) (req (account k e s)).
Proof.
  intros Hk He Hst (Hall & Hh & Hi & Hhit & Hins & Hd & Hda).
  pose proof (count_upto_bounds (is_status LOOKUP_HIT) (req_map (req s)) k).
  pose proof (count_upto_bounds (is_status LOOKUP_INSERTED) (req_map (req s)) k).
  assert (∀ e', status e' = status e →
     ∀ j, (j < S k)%nat →
       ∃ e0, <[k := e']> (req_map (req s)) !! j = Some e0
             ∧ status e0 ≠ LOOKUP_REMAPPED) as Hall'.
  { intros e' He' j Hj. destruct (decide (j = k)) as [->|Hne].
    - exists e'. rewrite list_lookup_insert_eq by (by eapply lookup_lt_Some).
      split; [done|congruence].
    - rewrite list_lookup_insert_ne by done. apply Hall. lia. }
  assert (∀ j, (j < S k)%nat →
       ∃ e0, req_map (req s) !! j = Some e0
             ∧ status e0 ≠ LOOKUP_REMAPPED) as Hall0.
  { intros j Hj. destruct (decide (j = k)) as [->|Hne]; [by exists e|].
    apply Hall. lia. }
  unfold counted, account.
  destruct (status e) eqn:Hse; try done.
  - case_metadata_tests; simpl;
      rewrite ?count_upto_insert by done;
      rewrite ?list_lookup_insert_eq by (by eapply lookup_lt_Some);
      rewrite ?He; unfold is_status at 2 4 6; simpl; rewrite ?Hse; simpl;
      rewrite ?u32_small by lia;
      (split; [by (apply Hall0 || (apply Hall'; done))|lia]).
  - simpl. rewrite He. unfold is_status at 2 4 6. rewrite Hse. simpl.
    split; [by apply Hall0|lia].
  - simpl. rewrite He. unfold is_status at 2 4 6. rewrite Hse. simpl.
    rewrite ?u32_small by lia. split; [by apply Hall0|lia].
Qed.

End Rounds.

(** ** Traversal *)

Section Traversal.
Context `{!Consumed}.

Lemma seq_bump_req_map i s : req_map (req (seq_bump i s)) = req_map (req s).
Proof. unfold seq_bump. by destruct (_ && _). Qed.

Lemma seq_bump_cache i s : cache (seq_bump i s) = cache s.
Proof. unfold seq_bump. by destruct (_ && _). Qed.

Lemma seq_bump_mapping_error i s :
  mapping_error (info (req (seq_bump i s))) = mapping_error (info (req s)).
Proof. unfold seq_bump. by destruct (_ && _). Qed.

Lemma account_cache idx e s : cache (account idx e s) = cache s.
Proof. unfold account. destruct (status e); try done. by case_metadata_tests. Qed.

Lemma account_mapping_error idx e s :
  mapping_error (info (req (account idx e s))) = mapping_error (info (req s)).
Proof. unfold account. destruct (status e); try done. by case_metadata_tests. Qed.

Lemma account_req_map idx e s :
  req_map (req (account idx e s)) = req_map (req s)
  ∨ req_map (req (account idx e s)) = <[idx := set_re_part true e]> (req_map (req s)).
Proof.
  unfold account. destruct (status e); try (by left).
  case_metadata_tests; simpl; auto.
Qed.

Lemma account_lookup_ne idx e s j :
  j ≠ idx → req_map (req (account idx e s)) !! j = req_map (req s) !! j.
Proof.
  intros Hne. destruct (account_req_map idx e s) as [->| ->]; [done|].
  by apply list_lookup_insert_ne.
Qed.

Lemma account_miss idx e s : status e = LOOKUP_MISS → account idx e s = s.
Proof. unfold account. by intros ->. Qed.

Lemma looked_up_status c cid cl e0 e' :
  looked_up c cid cl e0 e' → status e' = LOOKUP_HIT ∨ status e' = LOOKUP_MISS.
Proof. intros [->|(l & _ & ->)]; [by right|by left]. Qed.

Lemma traversed_round fuel N i cl s :
  Z.of_nat N < 2 ^ 32 → (i < N)%nat → traversed i s →
  wlp (traverse_round fuel i cl) (λ _, traversed (S i)) s.
Proof.
  intros HN Hi (Hc & Hst & Herr). apply wlp_traverse_round.
  intros e0 e' He0 Hlook. apply looked_up_status in Hlook.
  assert (<[i := e']> (req_map (req s)) !! i = Some e') as He'.
  { apply list_lookup_insert_eq. by eapply lookup_lt_Some. }
  set (s1 := with_cache (λ c, ocf_eviction_set_hot_cache_line c (coll_idx e'))
               (with_map (λ m, <[i := e']> m) s)).
  assert (traversed (S i) (seq_bump i (account i e' s1))) as Hgoal.
  { split; [|split].
    - apply counted_seq_bump, counted_account; [lia|done|..].
      + destruct Hlook as [-> | ->]; done.
      + by apply counted_insert.
    - intros j e Hj. rewrite seq_bump_req_map.
      destruct (decide (j = i)) as [->|Hne].
      + destruct (account_lookup i e' s1 He') as (e'' & -> & Hs & _).
        intros [= <-]. by rewrite Hs.
      + rewrite account_lookup_ne by done. simpl.
        rewrite list_lookup_insert_ne by done. apply Hst. lia.
    - by rewrite seq_bump_mapping_error, account_mapping_error. }
  unfold traverse_step. destruct (decide (status e' = LOOKUP_HIT)) as [Hh|Hm].
  - exact Hgoal.
  - destruct Hlook as [?|Hmiss]; [done|].
    rewrite (account_miss _ _ _ Hmiss) in Hgoal.
    destruct Hgoal as (Hc' & Hst' & Herr').
    rewrite seq_bump_req_map in Hst'. rewrite seq_bump_mapping_error in Herr'.
    split; [|done].
    destruct Hc' as (? & ?). split; [by rewrite seq_bump_req_map in *|].
    unfold seq_bump in *. by destruct (_ && _).
Qed.

Lemma wf_rounds r :
  wf_req r →
  core_line_rounds r = Some (Z.to_nat (core_line_count r))
  ∨ core_line_rounds r = None.
Proof.
  intros [Hc _]. unfold core_line_rounds.
  destruct (decide _); [left|destruct (decide _); [by right|left]].
  - f_equal. f_equal. lia.
  - f_equal. lia.
Qed.

Lemma traversed_0 s :
  traversed 0 (with_req (set_info cleared_info) s).
Proof.
  split; [|split]; [|intros; lia|done].
  unfold counted; simpl. split; [intros; lia|lia].
Qed.

(** After traversal every entry is a hit or a miss, the counters account
    for all of them and no error is latched. *)
Lemma traverse_traversed fuel s :
  wf_req (req s) →
  wlp (ocf_engine_traverse fuel)
    (λ _ s', traversed (Z.to_nat (core_line_count (req s))) s' ∧ stable s s') s.
Proof.
  intros Hwf a s' Hrun. split; [|by eapply (keeps_traverse s fuel s)].
  revert a s' Hrun. change (wlp (ocf_engine_traverse fuel)
    (λ _, traversed (Z.to_nat (core_line_count (req s)))) s).
  unfold ocf_engine_traverse, ocf_req_clear_info.
  wlp_step. wlp_step. cbn beta. wlp_step. wlp_step. simpl.
  destruct (wf_rounds _ Hwf) as [Hr|Hr]; unfold core_line_rounds in *;
    simpl; rewrite Hr; [|apply wlp_none].
  eapply (traverse_loop_rule traversed).
  - intros i cl s1 Hi Hinv.
    apply (traversed_round fuel (Z.to_nat (core_line_count (req s)))); [|done..].
    destruct Hwf as [_ ?]. lia.
  - done.
  - apply traversed_0.
Qed.

Lemma traversed_consistent s :
  wf_req (req s) →
  traversed (Z.to_nat (core_line_count (req s))) s →
  counters_consistent (req s) ∧ all_hit_or_miss (req s)
  ∧ insert_no (info (req s)) = 0.
Proof.
  intros [_ Hn] ((Hall & Hh & Hi & Hhit & Hins & Hd & Hda) & Hst & _).
  pose proof (count_upto_total _ _ Hall) as Htot.
  pose proof (count_upto_bounds (is_status LOOKUP_HIT) (req_map (req s))
                (Z.to_nat (core_line_count (req s)))).
  pose proof (count_upto_bounds (is_status LOOKUP_MISS) (req_map (req s))
                (Z.to_nat (core_line_count (req s)))).
  assert (count_upto (is_status LOOKUP_INSERTED) (req_map (req s))
            (Z.to_nat (core_line_count (req s))) = 0) as Hz.
  { clear -Hst. induction (Z.to_nat _) as [|k IH]; simpl; [done|].
    rewrite IH by (intros; eapply Hst; [|done]; lia).
    destruct (req_map (req s) !! k) as [e|] eqn:He; [|done].
    unfold is_status. destruct (Hst k e) as [-> | ->]; [lia|done..]. }
  split; [|split].
  - unfold counters_consistent. lia.
  - intros i e [Hi' He]. eapply Hst; [|done]. lia.
  - lia.
Qed.
End Traversal.

(** ** The fully mapped path of the pipeline *)

Section MappedPath.
Context `{!Consumed}.

Lemma count_upto_all p m k :
  (∀ j, (j < k)%nat → ∃ e, m !! j = Some e ∧ p e = true) →
  count_upto p m k = Z.of_nat k.
Proof.
  induction k as [|k IH]; intros Hall; simpl; [done|].
  rewrite IH by (intros; apply Hall; lia).
  destruct (Hall k) as (e & -> & ->); lia.
Qed.

(** A traversal that found only hits leaves the request fully mapped. *)
Lemma traversed_all_hit_mapped s :
  wf_req (req s) →
  traversed (Z.to_nat (core_line_count (req s))) s →
  (∀ i e, req_entry (req s) i e → status e = LOOKUP_HIT) →
  ocf_engine_is_mapped (req s) = true.
Proof.
  intros Hwf Htr Hhit.
  destruct (traversed_consistent s Hwf Htr) as (_ & _ & Hins).
  destruct Htr as ((Hall & Hh & Hi & Hsum & _) & _ & _).
  destruct Hwf as [_ Hn].
  rewrite count_upto_all in Hsum.
  2:{ intros j Hj. destruct (Hall j Hj) as (e & He & _). exists e.
      split; [done|]. unfold is_status. apply bool_decide_eq_true_2.
      apply (Hhit j). split; [lia|done]. }
  unfold ocf_engine_is_mapped, ocf_engine_unmapped_count.
  apply bool_decide_eq_true_2. rewrite Hins, Hsum.
  rewrite Z2Nat.id by lia. rewrite (u32_small (core_line_count _)) by lia.
  rewrite Z.add_0_r, (u32_small (core_line_count _)) by lia.
  by rewrite Z.sub_diag.
Qed.

(** C2: when the traversal of [ocf_engine_prepare_clines] finds every entry
    a hit, the function attempts the cache-line lock in the mode the engine
    callback declares (none: [OCF_LOCK_ACQUIRED] at once, nothing asked;
    write or read: the asynchronous lock of that mode, with the engine's
    resume callback), gives the hash-bucket read hold back and returns the
    lock result.  The final state is the one traversal left, but for the
    lock attempt and the released hold: the promotion policy was not
    consulted and no mapping was run. *)
Theorem prepare_clines_mapped fuel s s1 :
  wf_req (req s) →
  (ocf_req_hash ;; ocf_hb_req_prot_lock_rd ;; ocf_engine_traverse fuel) s
  = Some (tt, s1) →
  (∀ i e, req_entry (req s1) i e → status e = LOOKUP_HIT) →
  let r := req s1 in
  let c := cache s1 in
  let unlock_rd := with_hb_rd_count (λ n, n - 1) in
  match get_lock_type r with
  | ocf_engine_lock_none =>
      ocf_engine_prepare_clines fuel s = Some (OCF_LOCK_ACQUIRED, unlock_rd s1)
  | ocf_engine_lock_write =>
      ocf_engine_prepare_clines fuel s
      = Some ((ocf_req_async_lock_wr c r (resume r)).1,
              unlock_rd
                (with_cache (λ _, (ocf_req_async_lock_wr c r (resume r)).2)
                   (with_trace (λ t, t ++ [ev_async_lock_wr (resume r)]) s1)))
  | ocf_engine_lock_read =>
      ocf_engine_prepare_clines fuel s
      = Some ((ocf_req_async_lock_rd c r (resume r)).1,
              unlock_rd
                (with_cache (λ _, (ocf_req_async_lock_rd c r (resume r)).2)
                   (with_trace (λ t, t ++ [ev_async_lock_rd (resume r)]) s1)))
  end
  ∧ trace s1 = trace s
  ∧ hb_rd_count s1 = hb_rd_count s + 1.
Proof.
  intros Hwf Hrun Hhit r c unlock_rd.
  apply bind_Some in Hrun as ([] & sa & Hhash & Hrun).
  apply bind_Some in Hrun as ([] & sb & Hlock & Htrav).
  assert (sa = with_req (λ r,
     set_req_map (imap (λ i e, set_hash
        (ocf_metadata_hash_func (cache s)
           (u64 (core_line_first r + Z.of_nat i)) (core r)) e) (req_map r)) r) s)
    as -> by (by injection Hhash).
  injection Hlock as <-.
  match type of Htrav with ocf_engine_traverse _ ?x = _ => set (sb := x) in * end.
  assert (wf_req (req sb)) as Hwfb by exact Hwf.
  destruct (traverse_traversed fuel sb Hwfb tt s1 Htrav) as [Htr Hst].
  assert (core_line_count (req s1) = core_line_count (req sb)) as Hcnt.
  { destruct Hst as [Hext _]. unfold extent in Hext. by simplify_eq. }
  assert (wf_req (req s1)) as Hwf1.
  { destruct Hst as [Hext _]. unfold extent, wf_req in *. simplify_eq.
    simpl in *. destruct Hwfb as [? ?]. split; congruence. }
  rewrite <- Hcnt in Htr.
  pose proof (traversed_all_hit_mapped s1 Hwf1 Htr Hhit) as Hmapped.
  split; [|split].
  - assert (ocf_engine_prepare_clines fuel s
            = (lock ← _lock_clines; ocf_hb_req_prot_unlock_rd ;; mret lock) s1)
      as ->.
    { unfold ocf_engine_prepare_clines.
      erewrite bind_eq by exact Hhash.
      erewrite (bind_eq ocf_hb_req_prot_lock_rd) by reflexivity.
      erewrite bind_eq by exact Htrav.
      cbv beta.
      rewrite (bind_eq get_req _ s1 (req s1) s1) by done.
      cbv zeta. by rewrite Hmapped. }
    subst r c unlock_rd.
    destruct (get_lock_type (req s1)) eqn:Hty;
      unfold _lock_clines, mbind, M_bind, get_req, get_cache; simpl;
      by rewrite Hty.
  - by destruct (silent_traverse sb fuel sb (silent_refl sb) tt s1 Htrav)
      as (_ & -> & _).
  - destruct Hst as [_ Hout]. unfold outer in Hout. by simplify_eq.
Qed.
End MappedPath.

(** ** Unwinding a failed mapping *)

Section Unwind.
Context `{!Consumed}.

Lemma wlp_map_hndl_error_round i (Q : unit → state → Prop) s :
  (∀ e, req_map (req s) !! i = Some e →
        Q tt (with_cache (λ c, unwind_cache c e)
                (with_map (λ m, <[i := unwind_entry e]> m) s))) →
  wlp (map_hndl_error_round i) Q s.
Proof.
  intros HQ. unfold map_hndl_error_round. apply wlp_bind, wlp_map_entry.
  intros e He. specialize (HQ e He).
  unfold unwind_cache, unwind_entry, promoted in HQ.
  destruct (status e) eqn:Hst.
  1,2: rewrite bool_decide_eq_false_2 in HQ by (intros [?|?]; done);
    apply wlp_ret; destruct s as [? [] ? ? ? ? ? ? ?];
    unfold with_map, with_req, with_cache, set_req_map in HQ; simpl in *;
    by rewrite (list_insert_id _ _ _ He) in HQ.
  all: rewrite bool_decide_eq_true_2 in HQ by auto.
  all: apply wlp_bind, wlp_modify_map_entry; intros e1 He1.
  all: assert (e1 = e) as -> by congruence.
  all: wlp_steps; exact HQ.
Qed.

Lemma map_hndl_error_loop_rule (I : nat → state → Prop) N :
  (∀ i s, (i < N)%nat → I i s → wlp (map_hndl_error_round i) (λ _, I (S i)) s) →
  ∀ n i s, (i + n = N)%nat → I i s →
           wlp (map_hndl_error_loop n i) (λ _, I N) s.
Proof.
  intros Hround. induction n as [|n IH]; intros i s HN HI; simpl.
  - apply wlp_ret. by replace N with i by lia.
  - apply wlp_bind. eapply wlp_mono; [apply Hround; [lia|done]|].
    intros ? s1 HI1. cbn beta in *. apply IH; [lia|done].
Qed.

Lemma unwound_round s0 i s :
  unwound s0 i s →
  wlp (map_hndl_error_round i) (λ _, unwound s0 (S i)) s.
Proof.
  intros (Hmap & Hcache & Hinfo & Hlen). apply wlp_map_hndl_error_round.
  intros e He.
  assert (length (unwind_entry <$> take i (req_map (req s0))) = i) as Hl.
  { rewrite length_fmap, length_take. lia. }
  assert (req_map (req s0) !! i = Some e) as He0.
  { rewrite Hmap in He. rewrite lookup_app_r in He by lia.
    rewrite Hl, Nat.sub_diag, lookup_drop, Nat.add_0_r in He. done. }
  split; [|split; [|split]].
  - simpl. rewrite Hmap.
    rewrite insert_app_r_alt by lia. rewrite Hl, Nat.sub_diag.
    rewrite (drop_S _ _ _ He0). simpl.
    rewrite (take_S_r _ _ _ He0), fmap_app. simpl. by rewrite <- app_assoc.
  - simpl. rewrite Hcache. by rewrite (take_S_r _ _ _ He0), foldl_app.
  - done.
  - apply lookup_lt_Some in He0. lia.
Qed.

(** [ocf_engine_map_hndl_error] reverts every promoted entry of the request
    to a miss and invalidates its cache line; other entries, and the
    aggregate, are as before. *)
Lemma map_hndl_error_unwound s :
  wlp ocf_engine_map_hndl_error
    (λ _ s', unwound s (Z.to_nat (core_line_count (req s))) s' ∧ stable s s') s.
Proof.
  intros a s' Hrun. split; [|by eapply (keeps_map_hndl_error s s)].
  revert a s' Hrun.
  change (wlp ocf_engine_map_hndl_error
            (λ _, unwound s (Z.to_nat (core_line_count (req s)))) s).
  unfold ocf_engine_map_hndl_error. wlp_step. wlp_step. cbn beta.
  eapply (map_hndl_error_loop_rule (unwound s)).
  - intros i s1 _. apply unwound_round.
  - done.
  - unfold unwound. rewrite take_0, drop_0. simpl. repeat split; lia.
Qed.

Lemma unwind_entry_status e :
  status (unwind_entry e) = LOOKUP_HIT ∨ status (unwind_entry e) = LOOKUP_MISS.
Proof.
  unfold unwind_entry, promoted. destruct (status e) eqn:Hst.
  1,2: rewrite bool_decide_eq_false_2 by (intros [?|?]; done); auto.
  all: rewrite bool_decide_eq_true_2 by auto; auto.
Qed.

Lemma unwound_all_hit_or_miss s s' :
  unwound s (Z.to_nat (core_line_count (req s))) s' →
  stable s s' →
  all_hit_or_miss (req s').
Proof.
  intros (Hmap & _ & _ & Hlen) [Hext _] i e [Hi He].
  assert (core_line_count (req s') = core_line_count (req s)) as Hc.
  { unfold extent in Hext. by simplify_eq. }
  rewrite Hc in Hi. rewrite Hmap in He.
  rewrite lookup_app_l in He.
  2:{ rewrite length_fmap, length_take. lia. }
  rewrite list_lookup_fmap in He.
  destruct (take _ _ !! i) as [e0|]; [|done]. injection He as <-.
  apply unwind_entry_status.
Qed.
End Unwind.

(** ** Mapping *)

Section Mapping.
Context `{!Consumed}.

Lemma wlp_ocf_map_cache_line idx line (Q : unit → state → Prop) s :
  (∀ c2 e, req_map (req s) !! idx = Some e →
     Q tt (with_map (λ m, <[idx := set_coll_idx line e]> m)
             (with_cache (λ _, c2) s))) →
  wlp (ocf_map_cache_line idx line) Q s.
Proof.
  intros HQ. unfold ocf_map_cache_line.
  wlp_step. wlp_step. cbn beta. wlp_step. wlp_step. cbn beta.
  repeat (wlp_step; cbn beta);
    repeat match goal with
           | Hl : req_map _ !! _ = Some _ |- _ => progress simpl in Hl
           end;
    match goal with
    | H0 : req_map (req s) !! ?i = Some ?a,
      H1 : req_map (req s) !! ?i = Some ?b |- _ =>
        assert (b = a) as -> by congruence
    end;
    eapply (HQ _ _); eassumption.
Qed.

Lemma wlp_engine_map_cache_line idx (Q : unit → state → Prop) s :
  Q tt (with_info (set_mapping_error true) s) →
  (∀ c2 line e, req_map (req s) !! idx = Some e →
     Q tt (with_map (λ m, <[idx := set_coll_idx line e]> m)
             (with_cache (λ _, c2) s))) →
  wlp (ocf_engine_map_cache_line idx) Q s.
Proof.
  intros Hfail Hok. unfold ocf_engine_map_cache_line.
  wlp_step. wlp_step. cbn beta.
  destruct (ocf_freelist_get_cache_line (cache s)) as [[line c']|].
  2:{ wlp_step. exact Hfail. }
  wlp_step. wlp_step. cbn beta. wlp_step. wlp_step. cbn beta.
  wlp_step. wlp_step. cbn beta. wlp_step.
  apply wlp_ocf_map_cache_line. intros c2 e He. simpl in He.
  wlp_step. wlp_step. cbn beta. wlp_step.
  eapply (Hok _ line e He).
Qed.

Lemma wlp_map_round fuel i cl (Q : bool → state → Prop) s :
  mapping_error (info (req s)) = false →
  (∀ e0 e', req_map (req s) !! i = Some e0 →
     looked_up (cache s) (core (req s)) cl e0 e' →
     status e' = LOOKUP_HIT →
     Q true (seq_bump i (account i e' (with_map (λ m, <[i := e']> m) s)))) →
  (∀ e0 e' c2 line, req_map (req s) !! i = Some e0 →
     looked_up (cache s) (core (req s)) cl e0 e' →
     status e' = LOOKUP_MISS →
     Q true (seq_bump i
               (account i (set_status LOOKUP_INSERTED (set_coll_idx line e'))
                  (with_map
                     (λ m, <[i := set_status LOOKUP_INSERTED
                                     (set_coll_idx line e')]> m)
                     (with_cache (λ _, c2) s))))) →
  (∀ e0 e' s', req_map (req s) !! i = Some e0 →
     looked_up (cache s) (core (req s)) cl e0 e' →
     status e' = LOOKUP_MISS →
     ocf_engine_map_hndl_error
       (with_info (set_mapping_error true) (with_map (λ m, <[i := e']> m) s))
     = Some (tt, s') →
     Q false s') →
  wlp (map_round fuel i cl) Q s.
Proof.
  intros Herr Hhit Hins Hfail. unfold map_round.
  wlp_step. wlp_step. cbn beta. wlp_step.
  apply wlp_lookup. intros e0 e' He0 Hlook.
  assert (i < length (req_map (req s)))%nat as Hlt by (by eapply lookup_lt_Some).
  apply wlp_bind, wlp_map_entry. intros e He. simpl in He.
  rewrite list_lookup_insert_eq in He by done. injection He as <-.
  apply wlp_bind.
  destruct (decide (status e' ≠ LOOKUP_HIT)) as [Hne|Heq].
  - assert (status e' = LOOKUP_MISS) as Hmiss.
    { by destruct (looked_up_status _ _ _ _ _ Hlook). }
    apply wlp_bind, wlp_engine_map_cache_line.
    + unfold ocf_req_test_mapping_error. do 4 wlp_step. simpl.
      wlp_step. intros [] s' Hh. wlp_step. wlp_step.
      by eapply (Hfail e0 e').
    + intros c2 line e He. simpl in He.
      rewrite list_lookup_insert_eq in He by done. injection He as <-.
      unfold ocf_req_test_mapping_error. do 4 wlp_step. simpl. rewrite Herr.
      wlp_step. apply wlp_modify_map_entry. intros e He. simpl in He.
      rewrite list_lookup_insert_eq in He by (by rewrite length_insert).
      injection He as <-.
      wlp_step. wlp_step. apply wlp_update_req_info. intros e He _.
      simpl in He. rewrite list_lookup_insert_eq in He
        by (by rewrite !length_insert).
      injection He as <-. wlp_step.
      specialize (Hins e0 e' c2 line He0 Hlook Hmiss).
      unfold with_map, with_req, with_cache, set_req_map in *. simpl in *.
      by rewrite !list_insert_insert_eq.
  - apply dec_stable in Heq. wlp_step. wlp_step.
    apply wlp_update_req_info. intros e He _. simpl in He.
    rewrite list_lookup_insert_eq in He by done. injection He as <-.
    wlp_step. by eapply Hhit.
Qed.

Lemma map_loop_rule (I : nat → state → Prop) (B : state → Prop) fuel N :
  (∀ i cl s, (i < N)%nat → I i s →
     wlp (map_round fuel i cl) (λ go s', if go then I (S i) s' else B s') s) →
  ∀ n i cl s, (i + n = N)%nat → I i s →
     wlp (map_loop fuel n i cl) (λ _ s', I N s' ∨ B s') s.
Proof.
  intros Hround. induction n as [|n IH]; intros i cl s HN HI; simpl.
  - apply wlp_ret. left. by replace N with i by lia.
  - apply wlp_bind. eapply wlp_mono; [apply Hround; [lia|done]|].
    intros [|] s1 HI1; cbn beta in *.
    + apply IH; [lia|done].
    + apply wlp_ret. by right.
Qed.

Lemma mapping_round fuel N i cl s :
  Z.of_nat N < 2 ^ 32 → (i < N)%nat → mapping i s →
  wlp (map_round fuel i cl)
    (λ go s', if go then mapping (S i) s'
              else mapping_error (info (req s')) = true
                   ∧ all_hit_or_miss (req s')) s.
Proof.
  intros HN Hi [Hc Herr]. apply wlp_map_round; [done|..].
  - intros e0 e' He0 Hlook Hst.
    assert (i < length (req_map (req s)))%nat by (by eapply lookup_lt_Some).
    split.
    + apply counted_seq_bump, counted_account; [lia| |by rewrite Hst|].
      * simpl. by apply list_lookup_insert_eq.
      * by apply counted_insert.
    + by rewrite seq_bump_mapping_error, account_mapping_error.
  - intros e0 e' c2 line He0 Hlook Hst.
    assert (i < length (req_map (req s)))%nat by (by eapply lookup_lt_Some).
    split.
    + apply counted_seq_bump, counted_account; [lia| |done|].
      * simpl. by apply list_lookup_insert_eq.
      * by apply counted_insert.
    + by rewrite seq_bump_mapping_error, account_mapping_error.
  - intros e0 e' s' He0 Hlook Hst Hrun.
    destruct (map_hndl_error_unwound _ _ _ Hrun) as [Hun Hstable].
    split.
    + destruct Hun as (_ & _ & -> & _). done.
    + by eapply unwound_all_hit_or_miss.
Qed.




(** C10: a request with unmapped entries, more of them than the free list
    reports free lines, is rejected by [ocf_engine_map] before anything is
    touched: the function returns with [mapping_error] set and everything
    else as it was -- every entry's status and collision index, every
    counter of the aggregate, the cache with its hash chains and its free
    list, the locks, the queue and the trace. *)
Theorem map_rejects_shortage_up_front fuel s :
  ocf_engine_unmapped_count (req s) ≠ 0 →
  ocf_engine_unmapped_count (req s) > ocf_freelist_num_free (cache s) →
  ∃ s',
    ocf_engine_map fuel s = Some (tt, s')
    ∧ s' = with_info (set_mapping_error true) s
    ∧ mapping_error (info (req s')) = true
    ∧ req_map (req s') = req_map (req s)
    ∧ hit_no (info (req s')) = hit_no (info (req s))
    ∧ invalid_no (info (req s')) = invalid_no (info (req s))
    ∧ insert_no (info (req s')) = insert_no (info (req s))
    ∧ re_part_no (info (req s')) = re_part_no (info (req s))
    ∧ seq_no (info (req s')) = seq_no (info (req s))
    ∧ dirty_any (info (req s')) = dirty_any (info (req s))
    ∧ dirty_all (info (req s')) = dirty_all (info (req s))
    ∧ cache s' = cache s
    ∧ ocf_freelist_num_free (cache s') = ocf_freelist_num_free (cache s)
    ∧ trace s' = trace s
    ∧ outer s' = outer s.
Proof.
  intros Hnz Hgt. eexists. split; [|by repeat split].
  unfold ocf_engine_map.
  rewrite (bind_eq _ _ s (req s) s) by done.
  rewrite (bind_eq _ _ s (cache s) s) by done.
  by rewrite decide_False, decide_True.
Qed.

End Mapping.

(** ** Unwind on the error paths of the pipeline *)

Section Pipeline.
Context `{!Consumed}.

Lemma all_hit_or_miss_no_promoted r : all_hit_or_miss r → no_promoted r.
Proof. intros Hall i e He. destruct (Hall i e He) as [-> | ->]; done. Qed.

Lemma lock_clines_req r0 : keeps (λ s, req s = r0) _lock_clines.
Proof. unfold _lock_clines. keeps_frame. Qed.

Lemma stable_wf s s' : stable s s' → wf_req (req s) → wf_req (req s').
Proof.
  intros [Hext _] [H1 H2]. unfold extent in Hext. simplify_eq.
  unfold wf_req. split; congruence.
Qed.

Lemma stable_count s s' :
  stable s s' → core_line_count (req s') = core_line_count (req s).
Proof. intros [Hext _]. unfold extent in Hext. by simplify_eq. Qed.

Lemma traverse_hit_or_miss fuel s :
  wf_req (req s) →
  wlp (ocf_engine_traverse fuel)
    (λ _ s', all_hit_or_miss (req s') ∧ mapping_error (info (req s')) = false
             ∧ stable s s') s.
Proof.
  intros Hwf a s' Hrun.
  destruct (traverse_traversed fuel s Hwf a s' Hrun) as [Htr Hst].
  rewrite <- (stable_count _ _ Hst) in Htr.
  destruct (traversed_consistent s' (stable_wf _ _ Hst Hwf) Htr) as (_ & ? & _).
  by destruct Htr as (_ & _ & ?).
Qed.





End Pipeline.

(** ** Sequentiality *)

Section Sequential.
Context `{!Consumed}.

Lemma seq_count_bounds c m k : 0 ≤ seq_count c m k ≤ Z.of_nat k.
Proof.
  induction k as [|k IH]; simpl; [lia|]. destruct (cont_at c m k); lia.
Qed.

Lemma cont_at_ext c c' m m' j :
  (∀ x, ocf_metadata_map_lg2phy c' x = ocf_metadata_map_lg2phy c x) →
  m' !! j = m !! j → m' !! S j = m !! S j →
  cont_at c' m' j = cont_at c m j.
Proof.
  intros Hc H1 H2. unfold cont_at. rewrite H1, H2.
  destruct (m !! j) as [e1|]; [|done]. destruct (m !! S j) as [e2|]; [|done].
  unfold cont_pair, phys. by rewrite !Hc.
Qed.

Lemma seq_count_ext c c' m m' k :
  (∀ x, ocf_metadata_map_lg2phy c' x = ocf_metadata_map_lg2phy c x) →
  (∀ j, (j ≤ k)%nat → m' !! j = m !! j) →
  seq_count c' m' k = seq_count c m k.
Proof.
  intros Hc. induction k as [|k IH]; intros Hm; simpl; [done|].
  rewrite IH by (intros; apply Hm; lia).
  rewrite (cont_at_ext c c' m m' k); [done|done|apply Hm; lia|apply Hm; lia].
Qed.

Lemma cont_at_miss c m j e :
  m !! S j = Some e → status e = LOOKUP_MISS → cont_at c m j = false.
Proof.
  intros He Hst. unfold cont_at. rewrite He.
  destruct (m !! j) as [e1|]; [|done]. unfold cont_pair.
  rewrite (bool_decide_eq_false_2 (status e ≠ _)) by (by intros ?).
  by rewrite andb_false_r.
Qed.

Lemma cont_at_miss_l c m j e :
  m !! j = Some e → status e = LOOKUP_MISS → cont_at c m j = false.
Proof.
  intros He Hst. unfold cont_at. rewrite He.
  destruct (m !! S j) as [e2|]; [|done]. unfold cont_pair.
  by rewrite (bool_decide_eq_false_2 (status e ≠ _)) by (by intros ?).
Qed.

Lemma account_seq_no idx e s :
  seq_no (info (req (account idx e s))) = seq_no (info (req s)).
Proof. unfold account. destruct (status e); try done. by case_metadata_tests. Qed.

Lemma seq_count_S c m k :
  seq_count c m (S k) = seq_count c m k + (if cont_at c m k then 1 else 0).
Proof. done. Qed.

(** The sequentiality step extends the count by the pair [(i - 1, i)]. *)
Lemma seq_bump_count i s :
  Z.of_nat i < 2 ^ 32 →
  seq_no (info (req s)) = seq_count (cache s) (req_map (req s)) (i - 1) →
  seq_no (info (req (seq_bump i s))) = seq_count (cache s) (req_map (req s)) i.
Proof.
  intros Hi Hseq. unfold seq_bump. destruct i as [|i].
  { by rewrite bool_decide_eq_false_2 by lia. }
  rewrite bool_decide_eq_true_2 by lia.
  replace (S i - 1)%nat with i in * by lia.
  rewrite seq_count_S. rewrite andb_true_l.
  pose proof (seq_count_bounds (cache s) (req_map (req s)) i).
  destruct (cont_at _ _ i); simpl; [|lia].
  rewrite u32_small; lia.
Qed.

Lemma sequenced_round c0 fuel N i cl s :
  set_hot_keeps_lg2phy →
  Z.of_nat N < 2 ^ 32 → (i < N)%nat → sequenced c0 i s →
  wlp (traverse_round fuel i cl) (λ _, sequenced c0 (S i)) s.
Proof.
  intros Hlaw HN Hi [Hseq Hphys]. apply wlp_traverse_round.
  intros e0 e' He0 Hlook.
  assert (i < length (req_map (req s)))%nat as Hlt by (by eapply lookup_lt_Some).
  unfold traverse_step.
  destruct (decide (status e' = LOOKUP_HIT)) as [Hh|Hm].
  - set (s1 := with_cache _ _).
    assert (∀ x, ocf_metadata_map_lg2phy (cache s1) x
                 = ocf_metadata_map_lg2phy (cache s) x) as Hphys1.
    { intros x. simpl. apply Hlaw. }
    split.
    2:{ intros x. rewrite seq_bump_cache, account_cache, Hphys1. apply Hphys. }
    rewrite seq_bump_cache, seq_bump_req_map.
    replace (S i - 1)%nat with i by lia.
    apply seq_bump_count; [lia|].
    rewrite account_seq_no, account_cache. simpl seq_no. rewrite Hseq.
    destruct (decide (i = 0)%nat) as [->|Hnz]; [done|].
    symmetry. apply seq_count_ext; [done|].
    intros j Hj. rewrite account_lookup_ne by lia. simpl.
    apply list_lookup_insert_ne. lia.
  - destruct (looked_up_status _ _ _ _ _ Hlook) as [?|Hmiss]; [done|].
    split; [|exact Hphys].
    replace (S i - 1)%nat with i by lia.
    change (seq_no (info (req s))
            = seq_count (cache s) (<[i := e']> (req_map (req s))) i).
    destruct i as [|i]; [done|].
    replace (S i - 1)%nat with i in Hseq by lia.
    rewrite seq_count_S.
    rewrite (cont_at_miss _ _ i e') by
      (first [by apply list_lookup_insert_eq | done]).
    rewrite (seq_count_ext (cache s) (cache s) (req_map (req s))); [lia|done|].
    intros j Hj. apply list_lookup_insert_ne. lia.
Qed.

(** After traversal [seq_no] is the number of physically contiguous
    adjacent pairs of the request. *)
Lemma traverse_sequenced fuel s :
  set_hot_keeps_lg2phy →
  wf_req (req s) →
  wlp (ocf_engine_traverse fuel)
    (λ _ s', seq_no (info (req s'))
             = seq_count (cache s') (req_map (req s'))
                 (Z.to_nat (core_line_count (req s)) - 1)) s.
Proof.
  intros Hlaw Hwf.
  eapply wlp_mono with
    (Q := λ _, sequenced (cache s) (Z.to_nat (core_line_count (req s)))).
  2:{ by intros _ s' [? _]. }
  unfold ocf_engine_traverse. wlp_line. simpl.
  destruct (wf_rounds _ Hwf) as [Hr|Hr]; unfold core_line_rounds in *;
    simpl; rewrite Hr; [|apply wlp_none].
  eapply (traverse_loop_rule (sequenced (cache s))).
  - intros i cl s1 Hi Hinv.
    apply (sequenced_round _ fuel (Z.to_nat (core_line_count (req s))));
      [done| |done..].
    destruct Hwf as [_ ?]. lia.
  - done.
  - done.
Qed.

Lemma seq_count_full c m k :
  seq_count c m k = Z.of_nat k ↔ ∀ j, (j < k)%nat → cont_at c m j = true.
Proof.
  induction k as [|k IH]; simpl.
  - split; [intros _ j Hj; lia|done].
  - pose proof (seq_count_bounds c m k). split.
    + intros Heq j Hj. destruct (cont_at c m k) eqn:Hk; [|lia].
      destruct (decide (j = k)) as [->|Hne]; [done|].
      apply IH; lia.
    + intros Hall. rewrite (Hall k) by lia.
      apply proj2 in IH. rewrite IH; [lia|]. intros j Hj. apply Hall. lia.
Qed.

Lemma cont_at_insert_ne c m idx e j :
  j ≠ idx → S j ≠ idx → cont_at c (<[idx := e]> m) j = cont_at c m j.
Proof.
  intros H1 H2. apply cont_at_ext; [done|..]; by apply list_lookup_insert_ne.
Qed.

(** Turning entry [idx] from a miss into what it is adds the pairs it takes
    part in. *)
Lemma seq_count_remap c m idx e k :
  m !! idx = Some e →
  seq_count c m k
  = seq_count c (<[idx := set_status LOOKUP_MISS e]> m) k
    + (if bool_decide (0 < idx ∧ idx - 1 < k)%nat && cont_at c m (idx - 1)
       then 1 else 0)
    + (if bool_decide (idx < k)%nat && cont_at c m idx then 1 else 0).
Proof.
  intros He. assert (idx < length m)%nat as Hlt by (by eapply lookup_lt_Some).
  induction k as [|k IH].
  { simpl. by rewrite !bool_decide_eq_false_2 by lia. }
  rewrite !seq_count_S, IH.
  destruct (decide (k = idx)) as [->|Hk1].
  - rewrite (cont_at_miss_l _ (<[idx:=_]> m) idx (set_status LOOKUP_MISS e))
      by (first [by apply list_lookup_insert_eq | done]).
    rewrite (bool_decide_eq_false_2 (idx < idx)%nat) by lia.
    rewrite (bool_decide_eq_true_2 (idx < S idx)%nat) by lia.
    destruct (decide (0 < idx)%nat).
    + rewrite !(bool_decide_eq_true_2 (0 < idx ∧ _)%nat) by lia. simpl. lia.
    + rewrite !(bool_decide_eq_false_2 (0 < idx ∧ _)%nat) by lia. simpl. lia.
  - destruct (decide (S k = idx)) as [<-|Hk2].
    + rewrite (cont_at_miss _ (<[S k:=_]> m) k (set_status LOOKUP_MISS e))
        by (first [by apply list_lookup_insert_eq | done]).
      rewrite (bool_decide_eq_false_2 (0 < S k ∧ S k - 1 < k)%nat) by lia.
      rewrite (bool_decide_eq_true_2 (0 < S k ∧ S k - 1 < S k)%nat) by lia.
      rewrite !(bool_decide_eq_false_2 (S k < _)%nat) by lia.
      replace (S k - 1)%nat with k by lia. simpl. lia.
    + rewrite cont_at_insert_ne by done.
      destruct (decide (idx < k)%nat).
      * rewrite !(bool_decide_eq_true_2 (idx < _)%nat) by lia.
        destruct (decide (0 < idx)%nat).
        -- rewrite !(bool_decide_eq_true_2 (0 < idx ∧ _)%nat) by lia. lia.
        -- rewrite !(bool_decide_eq_false_2 (0 < idx ∧ _)%nat) by lia. lia.
      * rewrite !(bool_decide_eq_false_2 (idx < _)%nat) by lia.
        rewrite !(bool_decide_eq_false_2 (0 < idx ∧ _)%nat) by lia. lia.
Qed.

Lemma seq_bump_core_line_count i s :
  core_line_count (req (seq_bump i s)) = core_line_count (req s).
Proof. unfold seq_bump. by destruct (_ && _). Qed.

Lemma wlp_patch_req_info idx (Q : unit → state → Prop) s :
  Z.of_nat idx + 1 < 2 ^ 32 →
  (∀ e, req_map (req s) !! idx = Some e → status e = LOOKUP_REMAPPED →
     (Z.of_nat idx + 1 < core_line_count (req s) →
      is_Some (req_map (req s) !! S idx)) →
     let s1 := seq_bump idx (with_info incr_insert_no s) in
     Q tt (if bool_decide (Z.of_nat idx + 1 < core_line_count (req s))
              && cont_at (cache s) (req_map (req s)) idx
           then with_info incr_seq_no s1 else s1)) →
  wlp (ocf_engine_patch_req_info idx) Q s.
Proof.
  intros Hidx HQ. unfold ocf_engine_patch_req_info.
  apply wlp_bind, wlp_map_entry. intros e He.
  destruct (decide (status e ≠ LOOKUP_REMAPPED)) as [Hne|Heq]; [apply wlp_bug|].
  apply dec_stable in Heq. specialize (HQ e He Heq).
  do 3 wlp_step.
  intros [] s1 Hs1.
  rewrite (seq_tail_run idx _ e) in Hs1 by exact He. injection Hs1 as <-.
  do 2 wlp_step.
  rewrite seq_bump_core_line_count. simpl core_line_count.
  rewrite u32_small by lia.
  destruct (decide (Z.of_nat idx + 1 < core_line_count (req s))) as [Hin|Hout].
  - rewrite bool_decide_eq_true_2 in HQ by done. simpl andb in HQ.
    wlp_step. intros cont s2 Hrun.
    destruct (req_map (req s) !! S idx) as [e2|] eqn:He2.
    + rewrite (phys_cont_run idx _ e e2) in Hrun
        by (rewrite seq_bump_req_map; done).
      injection Hrun as <- <-. rewrite seq_bump_cache. simpl cache.
      specialize (HQ (λ _, ltac:(done))). unfold cont_at in HQ.
      rewrite He, He2 in HQ.
      destruct (cont_pair _ e e2); wlp_step; exact HQ.
    + exfalso. unfold ocf_engine_clines_phys_cont in Hrun.
      apply bind_Some in Hrun as (? & ? & [= <- <-] & Hrun).
      rewrite (bind_eq _ _ _ e _) in Hrun
        by (apply map_entry_Some; rewrite seq_bump_req_map; done).
      rewrite decide_False in Hrun by (by rewrite Heq).
      apply bind_Some in Hrun as (? & ? & Hm & _).
      unfold map_entry in Hm. rewrite seq_bump_req_map in Hm. simpl in Hm.
      replace (idx + 1)%nat with (S idx) in Hm by lia. by rewrite He2 in Hm.
  - rewrite bool_decide_eq_false_2 in HQ by done. simpl andb in HQ.
    wlp_step. apply HQ. intros ?. lia.
Qed.

(** [ocf_engine_patch_req_info] keeps [seq_no] the count of contiguous
    pairs when entry [idx] has turned from a miss into REMAPPED. *)
Lemma patch_sequenced idx e s :
  wf_req (req s) →
  Z.of_nat idx < core_line_count (req s) →
  req_map (req s) !! idx = Some e →
  seq_no (info (req s))
  = seq_count (cache s) (<[idx := set_status LOOKUP_MISS e]> (req_map (req s)))
      (Z.to_nat (core_line_count (req s)) - 1) →
  wlp (ocf_engine_patch_req_info idx)
    (λ _ s', seq_no (info (req s'))
             = seq_count (cache s') (req_map (req s'))
                 (Z.to_nat (core_line_count (req s)) - 1)
             ∧ insert_no (info (req s')) = u32 (insert_no (info (req s)) + 1)
             ∧ cache s' = cache s ∧ req_map (req s') = req_map (req s)) s.
Proof.
  intros [_ Hn] Hidx He Hseq. apply wlp_patch_req_info; [lia|].
  intros e1 He1 Hst _. assert (e1 = e) as -> by congruence.
  set (n := Z.to_nat (core_line_count (req s))) in *.
  pose proof (seq_count_remap (cache s) (req_map (req s)) idx e (n - 1) He)
    as Hre.
  pose proof (seq_count_bounds (cache s) (req_map (req s)) (n - 1)) as Hb.
  pose proof (seq_count_bounds (cache s)
                (<[idx := set_status LOOKUP_MISS e]> (req_map (req s))) (n - 1))
    as Hb0.
  assert (bool_decide (idx < n - 1)%nat
          = bool_decide (Z.of_nat idx + 1 < core_line_count (req s))) as Hd.
  { apply bool_decide_ext. lia. }
  assert (bool_decide (0 < idx ∧ idx - 1 < n - 1)%nat
          = bool_decide (0 < idx)%nat) as Hd0.
  { apply bool_decide_ext. lia. }
  rewrite Hd, Hd0 in Hre. clear Hd Hd0.
  cbv zeta. unfold seq_bump. simpl cache. simpl req_map.
  destruct (bool_decide (0 < idx)%nat && cont_at _ _ (idx - 1));
    destruct (bool_decide (Z.of_nat idx + 1 < _) && cont_at _ _ idx);
    simpl; (split; [|done]); rewrite ?u32_small; rewrite ?u32_small; lia.
Qed.

(** C6, amended: after traversal [seq_no] is the number of adjacent index
    pairs [(j, j + 1)] of the request whose entries are both not MISS and
    whose cache lines are physically contiguous,
    [phys (coll_idx j) + 1 = phys (coll_idx (j + 1))] (recency updates not
    moving cache lines); and [ocf_engine_patch_req_info] keeps it so when an
    entry has turned from MISS to REMAPPED.  The request is reported
    sequential iff [seq_no + 1 == core_line_count], that is iff every
    adjacent pair is physically contiguous with neither of its two entries
    MISS.  A request of a single core line has no adjacent pair: it is
    reported sequential whatever the status of its entry. *)
Theorem seq_no_counts_contiguous_pairs fuel :
  (∀ s s',
     set_hot_keeps_lg2phy →
     wf_req (req s) →
     0 < core_line_count (req s) →
     ocf_engine_traverse fuel s = Some (tt, s') →
     let n := Z.to_nat (core_line_count (req s')) in
     seq_no (info (req s')) = seq_count (cache s') (req_map (req s')) (n - 1)
     ∧ (ocf_engine_is_sequential (req s') = true
        ↔ u32 (seq_no (info (req s')) + 1) = core_line_count (req s'))
     ∧ (ocf_engine_is_sequential (req s') = true
        ↔ ∀ j, (S j < n)%nat →
               cont_at (cache s') (req_map (req s')) j = true))
  ∧ (∀ s idx e s',
       wf_req (req s) →
       Z.of_nat idx < core_line_count (req s) →
       req_map (req s) !! idx = Some e →
       seq_no (info (req s))
       = seq_count (cache s)
           (<[idx := set_status LOOKUP_MISS e]> (req_map (req s)))
           (Z.to_nat (core_line_count (req s)) - 1) →
       ocf_engine_patch_req_info idx s = Some (tt, s') →
       seq_no (info (req s'))
       = seq_count (cache s') (req_map (req s'))
           (Z.to_nat (core_line_count (req s)) - 1)).
Proof.
  split.
  - intros s s' Hlaw Hwf Hpos Hrun n.
    pose proof (traverse_sequenced fuel s Hlaw Hwf tt s' Hrun) as Hseq.
    pose proof (keeps_traverse s fuel s (stable_refl s) tt s' Hrun) as Hst.
    pose proof (stable_count _ _ Hst) as Hcnt. cbn beta in Hseq.
    rewrite <- Hcnt in Hseq. fold n in Hseq.
    pose proof (seq_count_bounds (cache s') (req_map (req s')) (n - 1)) as Hb.
    destruct Hwf as [_ Hn]. rewrite <- Hcnt in Hn, Hpos.
    assert (ocf_engine_is_sequential (req s') = true
            ↔ u32 (seq_no (info (req s')) + 1) = core_line_count (req s'))
      as Hrep.
    { unfold ocf_engine_is_sequential. apply bool_decide_eq_true. }
    split; [done|]. split; [done|].
    rewrite Hrep, Hseq, u32_small by lia.
    pose proof (seq_count_full (cache s') (req_map (req s')) (n - 1)) as Hfull.
    split.
    + intros Heq j Hj. apply Hfull; lia.
    + intros Hall. apply proj2 in Hfull. rewrite Hfull; [lia|].
      intros j Hj. apply Hall. lia.
  - intros s idx e s' Hwf Hidx He Hseq Hrun.
    by destruct (patch_sequenced idx e s Hwf Hidx He Hseq tt s' Hrun).
Qed.

End Sequential.

(** ** Re-validation after a wait for cache-line locks *)

Section Refresh.
Context `{!Consumed}.

Lemma check_map_entry_eq c e cid :
  _ocf_engine_check_map_entry c e cid
  = if decide (status e = LOOKUP_MISS) then Some 0
    else if decide (collision_table_entries c ≤ coll_idx e) then None
    else Some (if still_maps c cid e then 0 else -1).
Proof.
  unfold _ocf_engine_check_map_entry, still_maps, holds.
  destruct (decide _); [done|]. destruct (decide _); [done|].
  destruct (ocf_metadata_get_core_info c (coll_idx e)) as [cid' cl'].
  destruct (decide (cid = cid' ∧ cl' = core_line e)) as [[-> ->]|Hno].
  - by rewrite bool_decide_eq_true_2.
  - rewrite bool_decide_eq_false_2; [done|]. intros [= -> ->]. by apply Hno.
Qed.

Lemma wlp_check_round i result (Q : Z → state → Prop) s :
  (∀ e, req_map (req s) !! i = Some e → status e = LOOKUP_MISS → Q result s) →
  (∀ e, req_map (req s) !! i = Some e → status e ≠ LOOKUP_MISS →
     still_maps (cache s) (core (req s)) e = false →
     Q (-1) (with_map (λ m, <[i := set_invalid true e]> m) s)) →
  (∀ e, req_map (req s) !! i = Some e → status e ≠ LOOKUP_MISS →
     still_maps (cache s) (core (req s)) e = true →
     Q result
       (seq_bump i
          (account i (set_invalid false e)
             (with_map (λ m, <[i := set_invalid false e]> m) s)))) →
  wlp (check_round i result) Q s.
Proof.
  intros Hmiss Hinv Hval. unfold check_round.
  apply wlp_bind, wlp_map_entry. intros e He.
  destruct (decide (status e = LOOKUP_MISS)) as [Hm|Hm].
  { wlp_step. by eapply Hmiss. }
  do 4 wlp_step. rewrite check_map_entry_eq.
  rewrite decide_False by done.
  destruct (decide (_ ≤ _)); [apply wlp_bug|].
  assert (i < length (req_map (req s)))%nat by (by eapply lookup_lt_Some).
  destruct (still_maps _ _ e) eqn:Hsm.
  - rewrite decide_False by lia.
    wlp_step. apply wlp_modify_map_entry. intros e1 He1.
    assert (e1 = e) as -> by congruence.
    wlp_step. apply wlp_update_req_info. intros e2 He2 _. simpl in He2.
    rewrite list_lookup_insert_eq in He2 by done. injection He2 as <-.
    wlp_step. by eapply Hval.
  - rewrite decide_True by lia.
    wlp_step. apply wlp_modify_map_entry. intros e1 He1.
    assert (e1 = e) as -> by congruence.
    wlp_step. by eapply Hinv.
Qed.

Lemma check_loop_rule (I : nat → Z → state → Prop) N :
  (∀ i result s, (i < N)%nat → I i result s →
     wlp (check_round i result) (λ result' s', I (S i) result' s') s) →
  ∀ n i result s, (i + n = N)%nat → I i result s →
     wlp (check_loop n i result) (λ result' s', I N result' s') s.
Proof.
  intros Hround. induction n as [|n IH]; intros i result s HN HI; simpl.
  - apply wlp_ret. by replace N with i by lia.
  - apply wlp_bind. eapply wlp_mono; [apply Hround; [lia|done]|].
    intros r1 s1 HI1. cbn beta in *. apply IH; [lia|done].
Qed.

Lemma checked_round s0 i result s :
  checked s0 i result s →
  wlp (check_round i result) (λ result' s', checked s0 (S i) result' s') s.
Proof.
  intros (Hc & Hcore & Hres & Hiff & Hdone & Hrest).
  assert (∀ e, req_map (req s) !! i = Some e → req_map (req s0) !! i = Some e)
    as Hi0.
  { intros e He. by rewrite <- Hrest by lia. }
  apply wlp_check_round.
  - intros e He Hst. apply Hi0 in He as He0.
    split; [done|]. split; [done|]. split; [done|]. split; [|split].
    + rewrite Hiff. split.
      * intros Hall j e0 Hj Hj0 Hne. destruct (decide (j = i)) as [->|?].
        -- congruence.
        -- apply (Hall j); [lia|done..].
      * intros Hall j e0 Hj. apply Hall. lia.
    + intros j e0 Hj Hj0. destruct (decide (j = i)) as [->|?].
      * exists e. rewrite Hrest by lia. assert (e0 = e) as -> by congruence.
        by repeat split.
      * apply Hdone; [lia|done].
    + intros j Hj. apply Hrest. lia.
  - intros e He Hst Hsm. apply Hi0 in He as He0.
    rewrite Hc, Hcore in Hsm.
    assert (i < length (req_map (req s)))%nat by (by eapply lookup_lt_Some).
    split; [done|]. split; [done|]. split; [by right|]. split; [|split].
    + split; [done|]. intros Hall. specialize (Hall i e (Nat.lt_succ_diag_r i) He0 Hst).
      congruence.
    + intros j e0 Hj Hj0. simpl. destruct (decide (j = i)) as [->|?].
      * exists (set_invalid true e). rewrite list_lookup_insert_eq by done.
        assert (e0 = e) as -> by congruence. rewrite Hsm. by repeat split.
      * rewrite list_lookup_insert_ne by done. apply Hdone; [lia|done].
    + intros j Hj. simpl. rewrite list_lookup_insert_ne by lia. apply Hrest. lia.
  - intros e He Hst Hsm. apply Hi0 in He as He0.
    rewrite Hc, Hcore in Hsm.
    assert (i < length (req_map (req s)))%nat by (by eapply lookup_lt_Some).
    set (s1 := with_map _ s).
    assert (req_map (req s1) !! i = Some (set_invalid false e)) as He1.
    { simpl. by apply list_lookup_insert_eq. }
    split; [by rewrite seq_bump_cache, account_cache|].
    split.
    { transitivity (core (req s1)); [|done].
      unfold seq_bump. destruct (_ && _); simpl;
        unfold account; destruct (status _); try done; by case_metadata_tests. }
    split; [done|]. split; [|split].
    + rewrite Hiff. split.
      * intros Hall j e0 Hj Hj0 Hne. destruct (decide (j = i)) as [->|?].
        -- congruence.
        -- apply (Hall j); [lia|done..].
      * intros Hall j e0 Hj. apply Hall. lia.
    + intros j e0 Hj Hj0. rewrite seq_bump_req_map.
      destruct (decide (j = i)) as [->|?].
      * assert (e0 = e) as -> by congruence.
        destruct (account_req_map i (set_invalid false e) s1) as [-> | ->].
        -- exists (set_invalid false e). rewrite He1, Hsm. by repeat split.
        -- exists (set_re_part true (set_invalid false e)).
           rewrite list_lookup_insert_eq by (by eapply lookup_lt_Some).
           rewrite Hsm. by repeat split.
      * rewrite account_lookup_ne by done. simpl.
        rewrite list_lookup_insert_ne by done. apply Hdone; [lia|done].
    + intros j Hj. rewrite seq_bump_req_map, account_lookup_ne by lia. simpl.
      rewrite list_lookup_insert_ne by lia. apply Hrest. lia.
Qed.

Lemma checked_0 s : checked s 0 0 (with_req (set_info cleared_info) s).
Proof.
  split; [done|]. split; [done|]. split; [by left|]. split; [|split].
  - split; [intros _ j e0 Hj; lia|done].
  - intros j e0 Hj. lia.
  - done.
Qed.

(** [ocf_engine_check] on its return. *)
Lemma check_checked s :
  wlp ocf_engine_check
    (λ rc s', ∃ n, core_line_rounds (req s) = Some n ∧ checked s n rc s') s.
Proof.
  unfold ocf_engine_check. wlp_line. simpl.
  destruct (core_line_rounds (req s)) as [n|] eqn:Hr;
    unfold core_line_rounds in *; simpl; rewrite Hr; [|apply wlp_none].
  eapply wlp_mono.
  - eapply (check_loop_rule (checked s) n).
    + intros i result s1 _. apply checked_round.
    + done.
    + apply checked_0.
  - intros rc s' Hinv. by exists n.
Qed.




Lemma check_frame s rc s1 :
  ocf_engine_check s = Some (rc, s1) →
  silent s s1 ∧ cache s1 = cache s.
Proof.
  intros Hchk. split.
  - by apply (silent_check s s (silent_refl s) rc s1).
  - destruct (check_checked s rc s1 Hchk) as (n & _ & Hc & _). done.
Qed.





End Refresh.

(** ** The handoff to the cleaner *)

Section Cleaning.
Context `{!Consumed}.

Lemma set_getter_item_id a x : getter_item a = x → set_getter_item x a = a.
Proof. intros <-. by destruct a. Qed.

Lemma req_entries_lookup r k :
  (k < Z.to_nat (core_line_count r))%nat →
  req_entries r !! k = req_map r !! k.
Proof. intros Hk. unfold req_entries. by apply lookup_take_lt. Qed.

Lemma req_entries_length r :
  (Z.to_nat (core_line_count r) ≤ length (req_map r))%nat →
  length (req_entries r) = Z.to_nat (core_line_count r).
Proof. intros Hlen. unfold req_entries. rewrite length_take. lia. Qed.

(** One call of the getter with [getter_item] at request index [k]. *)
Lemma clean_getter_loop_next c r line m : ∀ k a,
  0 ≤ core_line_count r < 2 ^ 32 →
  (Z.to_nat (core_line_count r) ≤ length (req_map r))%nat →
  (k + m = Z.to_nat (core_line_count r))%nat →
  getter_item a = Z.of_nat k →
  clean_getter_loop m c r line a
  = Some match next_dirty c (drop k (req_entries r)) k with
         | Some (j, e) => (0, coll_idx e, set_getter_item (Z.of_nat (S j)) a)
         | None => (-1, line, set_getter_item (core_line_count r) a)
         end.
Proof.
  induction m as [|m IH]; intros k a Hrange Hlen Hk Ha.
  - rewrite drop_ge by (rewrite req_entries_length by done; lia).
    simpl. rewrite decide_False by lia.
    rewrite set_getter_item_id by lia. done.
  - simpl. rewrite decide_True by lia.
    rewrite Ha, Nat2Z.id.
    destruct (lookup_lt_is_Some_2 (req_map r) k) as [e He]; [lia|].
    rewrite He.
    assert (req_entries r !! k = Some e) as HeE.
    { rewrite req_entries_lookup; [exact He|lia]. }
    rewrite (drop_S _ e k) by done.
    simpl. unfold to_clean.
    assert (u32 (Z.of_nat k + 1) = Z.of_nat (S k)) as Hnext.
    { rewrite u32_small; lia. }
    rewrite Hnext.
    destruct (decide (status e = LOOKUP_HIT)) as [Hst|Hst].
    2:{ rewrite decide_True, bool_decide_eq_false_2 by done. simpl.
        rewrite (IH (S k)) by (done || lia). done. }
    rewrite decide_False, bool_decide_eq_true_2 by (done || tauto). simpl.
    destruct (metadata_test_dirty c (coll_idx e)); simpl; [done|].
    rewrite (IH (S k)) by (done || lia). done.
Qed.

Lemma clean_getter_next c r a item line k :
  0 ≤ core_line_count r < 2 ^ 32 →
  (Z.to_nat (core_line_count r) ≤ length (req_map r))%nat →
  (k ≤ Z.to_nat (core_line_count r))%nat →
  getter_item a = Z.of_nat k →
  _ocf_engine_clean_getter c r a item line
  = Some match next_dirty c (drop k (req_entries r)) k with
         | Some (j, e) => (0, coll_idx e, set_getter_item (Z.of_nat (S j)) a)
         | None => (-1, line, set_getter_item (core_line_count r) a)
         end.
Proof.
  intros Hrange Hlen Hk Ha. unfold _ocf_engine_clean_getter.
  apply clean_getter_loop_next; [done..|lia|done].
Qed.

Lemma next_dirty_Some c l : ∀ k j e,
  next_dirty c l k = Some (j, e) →
  ∃ i, j = (k + i)%nat ∧ l !! i = Some e ∧ to_clean c e = true
       ∧ List.filter (to_clean c) l = e :: List.filter (to_clean c) (drop (S i) l).
Proof.
  induction l as [|e0 l IH]; intros k j e Hnext; simpl in *; [done|].
  destruct (to_clean c e0) eqn:Hc.
  - injection Hnext as <- <-. exists 0%nat. rewrite Nat.add_0_r.
    by rewrite drop_0.
  - destruct (IH _ _ _ Hnext) as (i & -> & Hi & He & Hf).
    exists (S i). split; [lia|]. done.
Qed.

Lemma next_dirty_None c l : ∀ k,
  next_dirty c l k = None → List.filter (to_clean c) l = [].
Proof.
  induction l as [|e0 l IH]; intros k Hnext; simpl in *; [done|].
  destruct (to_clean c e0); [done|]. by eapply IH.
Qed.

(** Draining the getter from request index [k]. *)
Lemma drain_from c r m : ∀ k a item line fuel,
  0 ≤ core_line_count r < 2 ^ 32 →
  (Z.to_nat (core_line_count r) ≤ length (req_map r))%nat →
  (k + m = Z.to_nat (core_line_count r))%nat →
  getter_item a = Z.of_nat k →
  (length (List.filter (to_clean c) (drop k (req_entries r))) < fuel)%nat →
  drain fuel c r a item line
  = Some (coll_idx <$> List.filter (to_clean c) (drop k (req_entries r)),
          set_getter_item (core_line_count r) a).
Proof.
  induction m as [m IH] using lt_wf_ind.
  intros k a item line fuel Hrange Hlen Hk Ha Hfuel.
  destruct fuel as [|fuel]; [lia|]. simpl.
  rewrite (clean_getter_next c r a item line k) by (done || lia).
  destruct (next_dirty _ _ k) as [[j e]|] eqn:Hnext.
  - apply next_dirty_Some in Hnext as (i & -> & Hi & He & Hf).
    rewrite decide_True by done.
    rewrite Hf in *. rewrite drop_drop in *. simpl in Hfuel.
    assert (k + i < Z.to_nat (core_line_count r))%nat as Hlt.
    { apply lookup_lt_Some in Hi. rewrite length_drop in Hi.
      rewrite req_entries_length in Hi by done. lia. }
    rewrite (IH (m - S i)%nat ltac:(lia) (S (k + i))); [|done..|lia|done|].
    + simpl. do 3 f_equal. by rewrite Nat.add_succ_r.
    + replace (S (k + i)) with (k + S i)%nat by lia. lia.
  - rewrite decide_False by done. by rewrite (next_dirty_None _ _ _ Hnext).
Qed.

Lemma to_clean_entries c r e :
  In e (List.filter (to_clean c) (req_entries r))
  ↔ ∃ i, req_entry r i e ∧ status e = LOOKUP_HIT
         ∧ metadata_test_dirty c (coll_idx e) = true.
Proof.
  rewrite filter_In, <- list_elem_of_In, list_elem_of_lookup.
  unfold to_clean, req_entries, req_entry. split.
  - intros [[i Hi] Hc]. apply andb_true_iff in Hc as [Hst Hd].
    apply bool_decide_eq_true_1 in Hst.
    apply lookup_take_Some in Hi as [Hi Hlt].
    exists i. repeat split; [lia|done..].
  - intros (i & [Hlt Hi] & Hst & Hd). split.
    + exists i. apply lookup_take_Some. split; [done|lia].
    + by rewrite bool_decide_eq_true_2, Hd.
Qed.

(** The completion of cleaning without error. *)
Lemma clean_end_success s q :
  io_queue (req s) = Some q →
  ∃ s', _ocf_engine_clean_end 0 s = Some (tt, s')
        ∧ info (req s') = clear_dirty (info (req s))
        ∧ dirty_any (info (req s')) = 0
        ∧ dirty_all (info (req s')) = 0
        ∧ req_map (req s') = req_map (req s)
        ∧ req_error (req s') = req_error (req s)
        ∧ io_list s' = self s :: io_list s
        ∧ io_no s' = io_no s + 1
        ∧ trace s' = trace s ++ [ev_queue_kick true].
Proof.
  intros Hq. unfold _ocf_engine_clean_end, ocf_engine_push_req_front.
  rewrite decide_False by (intros Hne; by apply Hne).
  unfold mbind, M_bind, mret, M_ret, modify_info, modify_req, modify_cache,
    get_req, emit. simpl. rewrite Hq.
  destruct (internal (info (req s))); simpl; (eexists; split; [done|]; done).
Qed.

(** The completion of cleaning with an error. *)
Lemma clean_end_error s error :
  error ≠ 0 →
  ∃ s', _ocf_engine_clean_end error s = Some (tt, s')
        ∧ req_error (req s') = Z.lor (req_error (req s)) error
        ∧ trace s' = trace s ++ [ev_req_unlock; ev_complete error; ev_req_put]
        ∧ cache s' = ocf_req_unlock (cache s) (req s')
        ∧ info (req s') = info (req s)
        ∧ req_map (req s') = req_map (req s)
        ∧ io_list s' = io_list s
        ∧ io_no s' = io_no s.
Proof.
  intros Herr. unfold _ocf_engine_clean_end. rewrite decide_True by done.
  unfold mbind, M_bind, mret, M_ret, modify_req, modify_cache, get_req, emit.
  simpl. eexists. split; [done|]. simpl. by rewrite <- !app_assoc.
Qed.

(** C9: the cleaner handoff.  Asked again and again, the getter of
    [ocf_engine_clean] hands out the collision indexes of exactly the
    entries of the request that are a HIT on a dirty cache line, in
    increasing request index, and then reports the end of the items (-1,
    on that call and on every later one); each single call resumes at
    [getter_item] and stops right after the next such entry.  The attribs
    handed to the cleaner start at item 0 and carry [dirty_any] of the
    request as their count.  The completion [_ocf_engine_clean_end]
    without error zeroes [dirty_any] and [dirty_all] and puts the request
    at the head of its queue; with an error it ors the error into the
    request's, releases the cache-line locks of the request, completes the
    request with the error and puts it. *)
Theorem clean_getter_yields_dirty_hits s :
  wf_req (req s) →
  (Z.to_nat (core_line_count (req s)) ≤ length (req_map (req s)))%nat →
  let r := req s in
  let c := cache s in
  let dirty := List.filter (to_clean c) (req_entries r) in
  (∀ item line,
     drain (S (length dirty)) c r (clean_attribs r) item line
     = Some (coll_idx <$> dirty,
             set_getter_item (core_line_count r) (clean_attribs r)))
  ∧ (∀ e, In e dirty
          ↔ ∃ i, req_entry r i e ∧ status e = LOOKUP_HIT
                 ∧ metadata_test_dirty c (coll_idx e) = true)
  ∧ (∀ a k item line,
       (k ≤ Z.to_nat (core_line_count r))%nat →
       getter_item a = Z.of_nat k →
       _ocf_engine_clean_getter c r a item line
       = Some match next_dirty c (drop k (req_entries r)) k with
              | Some (j, e) =>
                  (0, coll_idx e, set_getter_item (Z.of_nat (S j)) a)
              | None => (-1, line, set_getter_item (core_line_count r) a)
              end)
  ∧ (ocf_engine_clean s
     = Some (tt, with_trace (λ t, t ++ [ev_cleaner_fire (clean_attribs r)]) s)
     ∧ count (clean_attribs r) = dirty_any (info r)
     ∧ getter_item (clean_attribs r) = 0)
  ∧ (∀ q, io_queue r = Some q →
       ∃ s', _ocf_engine_clean_end 0 s = Some (tt, s')
             ∧ info (req s') = clear_dirty (info r)
             ∧ dirty_any (info (req s')) = 0
             ∧ dirty_all (info (req s')) = 0
             ∧ req_map (req s') = req_map r
             ∧ req_error (req s') = req_error r
             ∧ io_list s' = self s :: io_list s
             ∧ io_no s' = io_no s + 1
             ∧ trace s' = trace s ++ [ev_queue_kick true])
  ∧ (∀ error, error ≠ 0 →
       ∃ s', _ocf_engine_clean_end error s = Some (tt, s')
             ∧ req_error (req s') = Z.lor (req_error r) error
             ∧ trace s'
               = trace s ++ [ev_req_unlock; ev_complete error; ev_req_put]
             ∧ cache s' = ocf_req_unlock c (req s')
             ∧ info (req s') = info r
             ∧ req_map (req s') = req_map r
             ∧ io_list s' = io_list s
             ∧ io_no s' = io_no s).
Proof.
  intros [_ Hrange] Hlen r c dirty. repeat split.
  - intros item line.
    rewrite (drain_from c r (Z.to_nat (core_line_count r)) 0);
      rewrite ?drop_0; try done. subst dirty. lia.
  - by apply to_clean_entries.
  - by apply to_clean_entries.
  - intros a k item line Hk Ha. by apply clean_getter_next.
  - apply clean_end_success.
  - apply clean_end_error.
Qed.

End Cleaning.

(** ** The engine on the scenario cache *)

Section Entries.
Context `{!Consumed}.

Lemma req_entry_Forall (P : ocf_map_info → Prop) r :
  Forall P (req_entries r) → ∀ i e, req_entry r i e → P e.
Proof.
  intros HP i e [Hi He]. eapply (Forall_lookup_1 _ _ i); [exact HP|].
  unfold req_entries. apply lookup_take_Some. split; [done|lia].
Qed.

End Entries.

(** Entry 1 of a request for core lines 10..12, looked up: a hit on line 4,
    which is valid and dirty in all sectors and in the request's
    partition. *)
Lemma update_req_info_accounting_witness :
  let s := after (ocf_engine_lookup_map_entry 3 1 0 11)
             (Sim.scenario (Sim.scenario_cache [] 0 true) (Sim.scenario_req 10 3)) in
  ∃ s', ocf_engine_update_req_info 1 s = Some (tt, s')
        ∧ hit_no (info (req s')) = 1
        ∧ invalid_no (info (req s')) = 0
        ∧ dirty_any (info (req s')) = 1
        ∧ dirty_all (info (req s')) = 1
        ∧ re_part_no (info (req s')) = 0.
Proof.
  intros s.
  assert (req_map (req s) !! 1%nat
          = Some {| hash := 3; coll_idx := 4; core_line := 11; core_id := 0;
                    status := LOOKUP_HIT; re_part := false; invalid := false |})
    as He by (by vm_compute).
  destruct (update_req_info_accounting 1 s _ He)
    as (s' & Hrun & _ & Hhit & Hdirty & Hre & _).
  vm_compute in Hhit, Hdirty, Hre.
  destruct Hhit as [Hhit Hinv], Hdirty as [Hany Hall], Hre as [_ Hre].
  exists s'. split; [exact Hrun|].
  repeat split; vm_compute; assumption.
Defined.

(** A request for two core lines that are not in the cache, mapped from
    the free list and write-locked: no hold is left. *)
Lemma prepare_clines_lock_discipline_witness :
  let s := Sim.scenario (Sim.scenario_cache [0; 1; 2] 0 true)
             (Sim.scenario_req 100 2) in
  ∃ rc s', ocf_engine_prepare_clines 10 s = Some (rc, s')
           ∧ hb_rd_count s' = 0 ∧ hb_wr_count s' = 0 ∧ meta_x s' = 0.
Proof.
  intros s.
  destruct (ocf_engine_prepare_clines 10 s) as [[rc s']|] eqn:Hrun;
    [|by vm_compute in Hrun].
  exists rc, s'. split; [reflexivity|].
  exact (proj1 (prepare_clines_lock_discipline 10) s rc s'
           eq_refl eq_refl eq_refl Hrun).
Defined.

(** A request for the three resident core lines, with the write-lock
    callbacks: the lock is asked for once and the read hold is given back. *)
Lemma prepare_clines_mapped_witness :
  let s := Sim.scenario (Sim.scenario_cache [0; 1; 2] 0 true)
             (Sim.scenario_req 10 3) in
  ∃ s', ocf_engine_prepare_clines 10 s = Some (0, s')
        ∧ trace s' = [ev_async_lock_wr 1]
        ∧ hb_rd_count s' = 0.
Proof.
  intros s.
  pose (s1 := after (ocf_req_hash ;; ocf_hb_req_prot_lock_rd ;;
                     ocf_engine_traverse 10) s).
  assert (wf_req (req s)) as Hwf by (by vm_compute).
  assert ((ocf_req_hash ;; ocf_hb_req_prot_lock_rd ;; ocf_engine_traverse 10) s
          = Some (tt, s1)) as Hrun by (by vm_compute).
  assert (∀ i e, req_entry (req s1) i e → status e = LOOKUP_HIT) as Hall.
  { apply req_entry_Forall. vm_compute. repeat constructor. }
  destruct (prepare_clines_mapped 10 s s1 Hwf Hrun Hall) as (Hm & _ & _).
  eexists. split; [exact Hm|]. split; reflexivity.
Defined.


(** Two core lines to map and an empty free list. *)
Lemma map_rejects_shortage_up_front_witness :
  let s := after (ocf_engine_traverse 10)
             (Sim.scenario (Sim.scenario_cache [] 0 true)
                (Sim.scenario_req 100 2)) in
  ∃ s', ocf_engine_map 10 s = Some (tt, s')
        ∧ mapping_error (info (req s')) = true
        ∧ req_map (req s') = req_map (req s)
        ∧ cache s' = cache s.
Proof.
  intros s.
  destruct (map_rejects_shortage_up_front 10 s)
    as (s' & Hrun & _ & Herr & Hmap & _ & _ & _ & _ & _ & _ & _ & Hc & _).
  - by vm_compute.
  - by vm_compute.
  - exists s'. repeat split; assumption.
Defined.



(** The three resident core lines sit in the consecutive lines 3, 4, 5. *)
Lemma seq_no_counts_contiguous_pairs_witness :
  let s := Sim.scenario (Sim.scenario_cache [0; 1; 2] 0 true)
             (Sim.scenario_req 10 3) in
  let s' := after (ocf_engine_traverse 10) s in
  seq_no (info (req s')) = 2 ∧ ocf_engine_is_sequential (req s') = true.
Proof.
  intros s s'.
  destruct (proj1 (seq_no_counts_contiguous_pairs 10) s s')
    as (Hseq & _ & Hiff).
  - intros c line x. reflexivity.
  - by vm_compute.
  - by vm_compute.
  - by vm_compute.
  - split; [by rewrite Hseq|].
    apply Hiff. intros j Hj. change (S j < 3)%nat in Hj.
    destruct j as [|[|j]]; [reflexivity..|lia].
Defined.

(** A request for one core line that is not in the cache: after traversal
    [seq_no + 1 = core_line_count], there is no adjacent pair, and the only
    entry is a MISS. *)
Lemma single_miss_is_sequential :
  let s := Sim.scenario (Sim.scenario_cache [0; 1; 2] 0 true)
             (Sim.scenario_req 100 1) in
  ∃ s' e,
    wf_req (req s)
    ∧ ocf_engine_traverse 10 s = Some (tt, s')
    ∧ u32 (seq_no (info (req s')) + 1) = core_line_count (req s')
    ∧ req_entry (req s') 0 e
    ∧ status e = LOOKUP_MISS
    ∧ ¬ (u32 (seq_no (info (req s')) + 1) = core_line_count (req s')
         ↔ (∀ j, (S j < Z.to_nat (core_line_count (req s')))%nat →
                 cont_at (cache s') (req_map (req s')) j = true)
           ∧ (∀ i e, req_entry (req s') i e → status e ≠ LOOKUP_MISS)).
Proof.
  intros s.
  pose (s' := after (ocf_engine_traverse 10) s).
  assert (ocf_engine_traverse 10 s = Some (tt, s')) as Hrun by (by vm_compute).
  assert (u32 (seq_no (info (req s')) + 1) = core_line_count (req s')) as Hseq
    by (by vm_compute).
  assert (∃ e, req_entry (req s') 0 e ∧ status e = LOOKUP_MISS)
    as (e & He & Hst).
  { vm_compute. eexists. repeat split; reflexivity. }
  exists s', e.
  refine (conj _ (conj Hrun (conj Hseq (conj He (conj Hst _))))).
  - split; simpl; lia.
  - intros [Hfwd _]. destruct (Hfwd Hseq) as [_ Hnomiss].
    by apply (Hnomiss 0%nat e He).
Qed.


(** The same request, locked: of its three hits only line 4 is dirty. *)
Lemma clean_getter_yields_dirty_hits_witness :
  let s := after (ocf_engine_prepare_clines 10)
             (Sim.scenario (Sim.scenario_cache [0; 1; 2] 0 true)
                (Sim.scenario_req 10 3)) in
  drain 2 (cache s) (req s) (clean_attribs (req s)) 0 0
  = Some ([4], set_getter_item 3 (clean_attribs (req s)))
  ∧ ∃ s', _ocf_engine_clean_end 0 s = Some (tt, s')
          ∧ dirty_any (info (req s')) = 0
          ∧ io_list s' = [100; 101; 102].
Proof.
  intros s.
  destruct (clean_getter_yields_dirty_hits s)
    as (Hdrain & _ & _ & _ & Hend & _).
  - by vm_compute.
  - by vm_compute.
  - split; [exact (Hdrain 0 0)|].
    destruct (Hend 1 eq_refl) as (s' & Hrun & _ & Hany & _ & _ & _ & Hlist & _).
    exists s'. repeat split; assumption.
Defined.

(** ** Traversal, entry by entry *)

Section TraversalEntries.
Context `{!Consumed}.

Lemma traverse_loop_rule_cl (I : nat → Z → state → Prop) fuel N :
  (∀ i cl s, (i < N)%nat → I i cl s →
             wlp (traverse_round fuel i cl) (λ _, I (S i) (cl + 1)) s) →
  ∀ n i cl s, (i + n = N)%nat → I i cl s →
              wlp (traverse_loop fuel n i cl) (λ _ s', ∃ cl', I N cl' s') s.
Proof.
  intros Hround. induction n as [|n IH]; intros i cl s HN HI; simpl.
  - apply wlp_ret. exists cl. by replace N with i by lia.
  - apply wlp_bind. eapply wlp_mono; [apply Hround; [lia|done]|].
    intros ? s1 HI1. cbn beta in *. apply IH; [lia|done].
Qed.

Lemma looked_up_found c cid cl e0 e' :
  looked_up c cid cl e0 e' → found_in c cid cl e'.
Proof.
  intros [->|(l & Hl & ->)]; unfold found_in; simpl; repeat split; auto.
Qed.

Lemma found_in_re_part c cid cl e :
  found_in c cid cl e → found_in c cid cl (set_re_part true e).
Proof. by intros (? & ? & ? & ?). Qed.

Lemma traverse_step_map i e' s :
  ∃ e'', req_map (req (traverse_step i e' s)) = <[i := e'']> (req_map (req s))
         ∧ (e'' = e' ∨ e'' = set_re_part true e')
         ∧ cache (traverse_step i e' s) = mark_hot (cache s) e'
         ∧ core (req (traverse_step i e' s)) = core (req s).
Proof.
  unfold traverse_step, mark_hot.
  destruct (decide (status e' = LOOKUP_HIT)) as [Hhit|Hne].
  - rewrite seq_bump_req_map, seq_bump_cache, account_cache.
    set (s1 := with_cache _ _).
    assert (core (req (seq_bump i (account i e' s1))) = core (req s)) as Hcore.
    { unfold seq_bump. destruct (_ && _); simpl;
        unfold account; rewrite Hhit; by case_metadata_tests. }
    destruct (account_req_map i e' s1) as [-> | ->]; simpl.
    + exists e'. auto.
    + exists (set_re_part true e'). rewrite list_insert_insert_eq. auto.
  - exists e'. simpl. auto.
Qed.

Lemma walked_round fuel s0 i cl s :
  walked s0 i cl s →
  wlp (traverse_round fuel i cl) (λ _, walked s0 (S i) (cl + 1)) s.
Proof.
  intros (-> & Hcore & Hlen & Hc & Hdone & Hrest).
  apply wlp_traverse_round. intros e0 e' He0 Hlook.
  apply looked_up_found in Hlook.
  destruct (traverse_step_map i e' s) as (e'' & Hmap & He'' & Hc' & Hcore').
  assert (i < length (req_map (req s)))%nat as Hi by (by eapply lookup_lt_Some).
  assert (found_in (cache s) (core (req s0))
            (core_line_first (req s0) + Z.of_nat i) e'') as Hfound.
  { rewrite <- Hcore. destruct He'' as [-> | ->]; [done|].
    by apply found_in_re_part. }
  assert (mark_hot (cache s) e'' = mark_hot (cache s) e') as Hhot.
  { by destruct He'' as [-> | ->]. }
  split; [lia|]. split; [congruence|]. rewrite Hmap.
  split; [by rewrite length_insert|]. split; [|split].
  - rewrite (take_S_r _ _ e'') by (by apply list_lookup_insert_eq).
    rewrite take_insert_ge by lia.
    rewrite foldl_app. simpl. by rewrite <- Hc, Hhot.
  - intros j e Hj He. rewrite take_insert_ge by lia.
    destruct (decide (j = i)) as [->|Hne].
    + rewrite list_lookup_insert_eq in He by done. injection He as <-.
      by rewrite <- Hc.
    + rewrite list_lookup_insert_ne in He by done. apply Hdone; [lia|done].
  - intros j Hj. rewrite list_lookup_insert_ne by lia. apply Hrest. lia.
Qed.

Lemma traverse_walked fuel s :
  wf_req (req s) →
  wlp (ocf_engine_traverse fuel)
    (λ _ s', ∃ cl, walked s (Z.to_nat (core_line_count (req s))) cl s') s.
Proof.
  intros Hwf.
  unfold ocf_engine_traverse, ocf_req_clear_info. wlp_line. simpl.
  destruct (wf_rounds _ Hwf) as [Hr|Hr]; unfold core_line_rounds in *;
    simpl; rewrite Hr; [|apply wlp_none].
  eapply (traverse_loop_rule_cl (walked s)).
  - intros i cl0 s1 _. apply walked_round.
  - done.
  - split; [simpl; lia|]. split; [done|]. split; [done|].
    split; [done|]. split; [intros j e Hj; lia|done].
Qed.

(** X1: traversal, entry by entry.  When [ocf_engine_traverse] returns, entry
    [i] of the request is the outcome of looking core line
    [core_line_first + i] of the request's core up in the cache as the
    earlier rounds left it: a HIT on a line that holds this identity, or a
    MISS with the sentinel collision index.  The cache went through
    nothing but the recency update of each hit line, in index order; the
    cells of the map past the request, the trace, the locks and the queue
    are as they were, and no mapping error is latched. *)
Theorem traverse_entries fuel s s' :
  wf_req (req s) →
  ocf_engine_traverse fuel s = Some (tt, s') →
  cache s' = foldl mark_hot (cache s) (req_entries (req s'))
  ∧ (∀ i e, req_entry (req s') i e →
       found_in (foldl mark_hot (cache s) (take i (req_map (req s'))))
         (core (req s)) (core_line_first (req s) + Z.of_nat i) e)
  ∧ (∀ j, (Z.to_nat (core_line_count (req s)) ≤ j)%nat →
          req_map (req s') !! j = req_map (req s) !! j)
  ∧ length (req_map (req s')) = length (req_map (req s))
  ∧ mapping_error (info (req s')) = false
  ∧ trace s' = trace s
  ∧ outer s' = outer s.
Proof.
  intros Hwf Hrun.
  destruct (traverse_hit_or_miss fuel s Hwf tt s' Hrun) as (_ & Herr & Hst).
  pose proof (silent_traverse s fuel s (silent_refl s) tt s' Hrun)
    as ((_ & Hout) & Htr & _).
  destruct (traverse_walked fuel s Hwf tt s' Hrun)
    as (cl & _ & _ & Hlen & Hc & Hdone & Hrest).
  unfold req_entries. rewrite (stable_count _ _ Hst).
  split; [done|]. split; [|done].
  intros i e [Hi He]. rewrite (stable_count _ _ Hst) in Hi.
  apply Hdone; [lia|done].
Qed.

End TraversalEntries.

(** Core lines 11..13 of core 0: the first two are resident in lines 4
    and 5, the third is not in the cache. *)
Lemma traverse_entries_witness :
  let s := Sim.scenario (Sim.scenario_cache [0; 1; 2] 0 true)
             (Sim.scenario_req 11 3) in
  let s' := after (ocf_engine_traverse 10) s in
  (status <$> req_map (req s')) = [LOOKUP_HIT; LOOKUP_HIT; LOOKUP_MISS]
  ∧ (coll_idx <$> req_map (req s')) = [4; 5; 16]
  ∧ ∀ i e, req_entry (req s') i e →
           core_id e = 0 ∧ core_line e = 11 + Z.of_nat i.
Proof.
  intros s s'.
  destruct (traverse_entries 10 s s') as (_ & Hfound & _).
  - split; simpl; lia.
  - by vm_compute.
  - split; [by vm_compute|]. split; [by vm_compute|].
    intros i e He. destruct (Hfound i e He) as (Hid & Hcl & _). by split.
Defined.

(** ** Giving up before mapping *)

Section GivingUp.
Context `{!Consumed}.

Lemma count_upto_pos p m k j e :
  (j < k)%nat → m !! j = Some e → p e = true → 0 < count_upto p m k.
Proof.
  induction k as [|k IH]; intros Hj He Hp; [lia|]. simpl.
  pose proof (count_upto_bounds p m k).
  destruct (decide (j = k)) as [->|Hne].
  - rewrite He, Hp. lia.
  - specialize (IH ltac:(lia) He Hp).
    destruct (m !! k) as [e'|]; [destruct (p e')|]; lia.
Qed.

(** A traversal that left a miss leaves the request not fully mapped. *)
Lemma traversed_miss_unmapped s i e :
  wf_req (req s) →
  traversed (Z.to_nat (core_line_count (req s))) s →
  req_entry (req s) i e → status e = LOOKUP_MISS →
  ocf_engine_is_mapped (req s) = false.
Proof.
  intros Hwf Htr [Hi He] Hst.
  destruct (traversed_consistent s Hwf Htr) as ([Hsum _] & _ & Hins).
  destruct Htr as ((_ & Hh & Hinv & _) & _ & _).
  destruct Hwf as [_ Hn].
  pose proof (count_upto_pos (is_status LOOKUP_MISS) (req_map (req s))
                (Z.to_nat (core_line_count (req s))) i e
                ltac:(lia) He ltac:(by apply bool_decide_eq_true_2)) as Hpos.
  unfold ocf_engine_is_mapped, ocf_engine_unmapped_count.
  apply bool_decide_eq_false_2.
  rewrite Hins, Z.add_0_r in *.
  rewrite (u32_small (hit_no _ + invalid_no _)) by lia.
  rewrite (u32_small (hit_no _ + invalid_no _)) by lia.
  rewrite u32_small by lia. lia.
Qed.

(** X2: the pipeline gives up before any mapping.  When traversal left a MISS
    and the promotion policy refuses the request, or the partition of the
    request is disabled, [ocf_engine_prepare_clines] returns
    [-OCF_ERR_NO_LOCK] with [mapping_error] latched: the promotion policy
    was consulted once, no cache-line lock was asked for, nothing was taken
    from the free list or evicted, the map is as traversal left it and the
    hash-bucket read hold is given back. *)
Theorem prepare_clines_gives_up fuel s s1 i e :
  wf_req (req s) →
  (ocf_req_hash ;; ocf_hb_req_prot_lock_rd ;; ocf_engine_traverse fuel) s
  = Some (tt, s1) →
  req_entry (req s1) i e → status e = LOOKUP_MISS →
  let r := req s1 in
  let promote := ocf_promotion_req_should_promote (cache s1) r in
  promote.1 = false ∨ ocf_part_is_enabled promote.2 (part_id r) = false →
  ocf_engine_prepare_clines fuel s
  = Some (- OCF_ERR_NO_LOCK,
          with_hb_rd_count (λ n, n - 1)
            (with_info (set_mapping_error true)
               (with_cache (λ _, promote.2)
                  (with_trace (λ t, t ++ [ev_promotion_should_promote]) s1))))
  ∧ trace s1 = trace s
  ∧ hb_rd_count s1 = hb_rd_count s + 1.
Proof.
  intros Hwf Hrun He Hmiss r promote Hrefuse. subst r promote.
  apply bind_Some in Hrun as ([] & sa & Hhash & Hrun).
  apply bind_Some in Hrun as ([] & sb & Hlock & Htrav).
  assert (sa = with_req (λ r,
     set_req_map (imap (λ i e, set_hash
        (ocf_metadata_hash_func (cache s)
           (u64 (core_line_first r + Z.of_nat i)) (core r)) e) (req_map r)) r) s)
    as -> by (by injection Hhash).
  injection Hlock as <-.
  match type of Htrav with ocf_engine_traverse _ ?x = _ => set (sb := x) in * end.
  assert (wf_req (req sb)) as Hwfb by exact Hwf.
  destruct (traverse_traversed fuel sb Hwfb tt s1 Htrav) as [Htr Hst].
  rewrite <- (stable_count _ _ Hst) in Htr.
  pose proof (stable_wf _ _ Hst Hwfb) as Hwf1.
  pose proof (traversed_miss_unmapped s1 i e Hwf1 Htr He Hmiss) as Hunmapped.
  split; [|split].
  - unfold ocf_engine_prepare_clines.
    erewrite bind_eq by exact Hhash.
    erewrite (bind_eq ocf_hb_req_prot_lock_rd) by reflexivity.
    erewrite bind_eq by exact Htrav.
    cbv beta.
    rewrite (bind_eq get_req _ s1 (req s1) s1) by done.
    cbv zeta. rewrite Hunmapped.
    unfold mbind, M_bind, mret, M_ret, get_cache, get_req, emit, modify_cache,
      ocf_req_set_mapping_error, modify_info, modify_req,
      ocf_hb_req_prot_unlock_rd. simpl.
    destruct (ocf_promotion_req_should_promote _ _).1 eqn:Hp; simpl.
    2:{ reflexivity. }
    destruct Hrefuse as [?|Hpart]; [done|].
    unfold ocf_prepare_clines_miss, mbind, M_bind, mret, M_ret, get_cache,
      get_req, ocf_req_set_mapping_error, modify_info, modify_req,
      ocf_hb_req_prot_unlock_rd. simpl.
    by rewrite Hpart.
  - by destruct (silent_traverse sb fuel sb (silent_refl sb) tt s1 Htrav)
      as (_ & -> & _).
  - destruct Hst as [_ Hout]. unfold outer in Hout. by simplify_eq.
Qed.

End GivingUp.

(** One core line that is not in the cache, and a promotion policy that
    refuses. *)
Lemma prepare_clines_gives_up_witness :
  let s := Sim.scenario (Sim.scenario_cache [0; 1; 2] 0 false)
             (Sim.scenario_req 100 1) in
  ∃ s', ocf_engine_prepare_clines 10 s = Some (-1000005, s')
        ∧ mapping_error (info (req s')) = true
        ∧ trace s' = [ev_promotion_should_promote]
        ∧ hb_rd_count s' = 0.
Proof.
  intros s.
  pose (s1 := after (ocf_req_hash ;; ocf_hb_req_prot_lock_rd ;;
                     ocf_engine_traverse 10) s).
  assert (∃ e, req_entry (req s1) 0 e ∧ status e = LOOKUP_MISS)
    as (e & He & Hst).
  { vm_compute. eexists. repeat split; reflexivity. }
  destruct (prepare_clines_gives_up 10 s s1 0 e) as (Hrun & _ & _).
  - split; simpl; lia.
  - by vm_compute.
  - exact He.
  - exact Hst.
  - left. by vm_compute.
  - eexists. split; [exact Hrun|]. by vm_compute.
Defined.

(** ** A mapping that went through *)

Section Settled.
Context `{!Consumed}.

Lemma wlp_conj {A} (m : M A) (Q1 Q2 : A → state → Prop) s :
  wlp m Q1 s → wlp m Q2 s → wlp m (λ a s', Q1 a s' ∧ Q2 a s') s.
Proof. intros H1 H2 a s' Hrun. split; [by apply H1|by apply H2]. Qed.

Lemma settled_step i e s :
  req_map (req s) !! i = Some e →
  status e = LOOKUP_HIT ∨ status e = LOOKUP_INSERTED →
  settled i (req s) →
  settled (S i) (req (seq_bump i (account i e s))).
Proof.
  intros He Hst Hdone j e' Hj. rewrite seq_bump_req_map.
  destruct (decide (j = i)) as [->|Hne].
  - destruct (account_lookup i e s He) as (e'' & Hl & Hs & _).
    rewrite Hl. intros [= <-]. by rewrite Hs.
  - rewrite account_lookup_ne by done. apply Hdone. lia.
Qed.

Lemma settled_insert k r i e :
  (k ≤ i)%nat → settled k r → settled k (set_req_map (<[i := e]> (req_map r)) r).
Proof.
  intros Hle Hdone j e' Hj. simpl. rewrite list_lookup_insert_ne by lia.
  by apply Hdone.
Qed.

Lemma settled_round fuel i cl s :
  mapping_error (info (req s)) = false →
  settled i (req s) →
  wlp (map_round fuel i cl)
    (λ go s', go = true → settled (S i) (req s')) s.
Proof.
  intros Herr Hdone. apply wlp_map_round; [done|..].
  - intros e0 e' He0 Hlook Hst _.
    assert (i < length (req_map (req s)))%nat by (by eapply lookup_lt_Some).
    apply settled_step; [|by left|by apply settled_insert].
    simpl. by apply list_lookup_insert_eq.
  - intros e0 e' c2 line He0 Hlook Hst _.
    assert (i < length (req_map (req s)))%nat by (by eapply lookup_lt_Some).
    apply settled_step; [|by right|by apply (settled_insert i (req s))].
    simpl. by apply list_lookup_insert_eq.
  - done.
Qed.

Lemma count_upto_settled m k :
  (∀ j e, (j < k)%nat → m !! j = Some e →
          status e = LOOKUP_HIT ∨ status e = LOOKUP_INSERTED) →
  count_upto (is_status LOOKUP_MISS) m k = 0.
Proof.
  induction k as [|k IH]; intros Hdone; simpl; [done|].
  rewrite IH by (intros; eapply Hdone; [|done]; lia).
  destruct (m !! k) as [e|] eqn:He; [|done].
  unfold is_status. destruct (Hdone k e) as [-> | ->]; [lia|done..].
Qed.

Lemma map_settled fuel s :
  wf_req (req s) →
  ocf_engine_unmapped_count (req s) ≠ 0 →
  wlp (ocf_engine_map fuel)
    (λ _ s', mapping_error (info (req s')) = false →
       settled (Z.to_nat (core_line_count (req s))) (req s')
       ∧ counted (Z.to_nat (core_line_count (req s))) (req s')
       ∧ trace s' = trace s ++ [ev_promotion_purge]) s.
Proof.
  intros Hwf Hnz.
  unfold ocf_engine_map. do 4 wlp_step.
  rewrite decide_False by done.
  destruct (decide (_ > _)) as [Hgt|Hle].
  { unfold ocf_req_set_mapping_error. wlp_step. simpl. done. }
  unfold ocf_req_clear_info. do 3 wlp_step.
  destruct (wf_rounds _ Hwf) as [Hr|Hr]; rewrite Hr; [|apply wlp_none].
  set (s0 := with_req (set_info cleared_info) s).
  eapply wlp_mono.
  { apply wlp_conj.
    - eapply (map_loop_rule
                (λ k s1, mapping k s1 ∧ settled k (req s1))
                (λ s1, mapping_error (info (req s1)) = true)).
      + intros i cl s1 Hi [Hm Hs].
        eapply wlp_mono.
        { apply wlp_conj.
          - apply (mapping_round fuel (Z.to_nat (core_line_count (req s))));
              [destruct Hwf as [_ ?]; lia|done..].
          - apply settled_round; [by destruct Hm|done]. }
        intros [|] s2 [H1 H2]; cbn beta in *; [by split; [|apply H2]|].
        by destruct H1.
      + done.
      + split; [|intros j e Hj; lia]. split; [|done].
        unfold counted; simpl. split; [intros; lia|lia].
    - apply (silent_map_loop s0 fuel _ 0 (core_line_first (req s)) s0).
      apply silent_refl. }
  cbn beta. intros _ s1 [Hs1 (_ & Htr & _)].
  unfold ocf_req_test_mapping_error. do 4 wlp_step.
  destruct (mapping_error (info (req s1))) eqn:Herr.
  - wlp_step. congruence.
  - do 5 wlp_step. intros _. simpl.
    destruct Hs1 as [[[Hc _] Hs]|?]; [|congruence].
    split; [done|]. split; [done|]. by rewrite Htr.
Qed.

(** X3: a mapping that went through.  When [ocf_engine_map], run on a request
    with unmapped entries, returns without mapping error, every entry of
    the request has a cache line: it is a HIT or INSERTED, none is left a
    MISS; the counters account for them, so that no entry counts as
    unmapped any more; the promotion policy was told to purge the
    request, once, after the last entry; and a second [ocf_engine_map]
    returns at once with nothing changed. *)
Theorem map_settles_every_entry fuel s s' :
  wf_req (req s) →
  ocf_engine_unmapped_count (req s) ≠ 0 →
  ocf_engine_map fuel s = Some (tt, s') →
  mapping_error (info (req s')) = false →
  (∀ i e, req_entry (req s') i e →
          status e = LOOKUP_HIT ∨ status e = LOOKUP_INSERTED)
  ∧ hit_no (info (req s')) + invalid_no (info (req s')) + insert_no (info (req s'))
    = core_line_count (req s')
  ∧ ocf_engine_unmapped_count (req s') = 0
  ∧ trace s' = trace s ++ [ev_promotion_purge]
  ∧ ocf_engine_map fuel s' = Some (tt, s').
Proof.
  intros Hwf Hnz Hrun Herr'.
  pose proof (keeps_map s fuel s (stable_refl s) tt s' Hrun) as Hst.
  pose proof (stable_count _ _ Hst) as Hcnt.
  destruct (map_settled fuel s Hwf Hnz tt s' Hrun Herr') as (Hdone & Hc & Htr).
  destruct Hwf as [_ Hn].
  pose proof Hc as (Hall & Hh & Hi & Hhit & Hins & _).
  pose proof (count_upto_total _ _ Hall) as Htot.
  rewrite (count_upto_settled _ _ Hdone) in Htot.
  rewrite Z2Nat.id in Htot by lia.
  assert (hit_no (info (req s')) + invalid_no (info (req s'))
          + insert_no (info (req s')) = core_line_count (req s)) as Hsum by lia.
  pose proof (count_upto_bounds (is_status LOOKUP_INSERTED) (req_map (req s'))
                (Z.to_nat (core_line_count (req s)))).
  assert (ocf_engine_unmapped_count (req s') = 0) as Hzero.
  { unfold ocf_engine_unmapped_count. rewrite Hcnt.
    rewrite (u32_small (hit_no _ + invalid_no _)) by lia.
    rewrite (u32_small (_ + insert_no _)) by lia.
    rewrite Hsum, Z.sub_diag. done. }
  split; [|split; [|split; [|split]]].
  - intros i e [Hi' He]. apply (Hdone i); [lia|done].
  - lia.
  - done.
  - done.
  - unfold ocf_engine_map.
    rewrite (bind_eq _ _ s' (req s') s') by done.
    rewrite (bind_eq _ _ s' (cache s') s') by done.
    by rewrite decide_True.
Qed.

End Settled.

(** Core lines 11..13: two hits, and one line to take from the free
    list. *)
Lemma map_settles_every_entry_witness :
  let s := after (ocf_engine_traverse 10)
             (Sim.scenario (Sim.scenario_cache [0; 1; 2] 0 true)
                (Sim.scenario_req 11 3)) in
  let s' := after (ocf_engine_map 10) s in
  (status <$> req_map (req s'))
  = [LOOKUP_HIT; LOOKUP_HIT; LOOKUP_INSERTED]
  ∧ ocf_engine_unmapped_count (req s') = 0
  ∧ trace s' = [ev_promotion_purge].
Proof.
  intros s s'.
  destruct (map_settles_every_entry 10 s s') as (_ & _ & Hz & Htr & _).
  - by vm_compute.
  - by vm_compute.
  - by vm_compute.
  - by vm_compute.
  - split; [by vm_compute|]. split; [exact Hz|exact Htr].
Defined.

(** ** Parking and refreshing a request *)

Section Parking.
Context `{!Consumed}.

Lemma on_resume_state s iface q :
  priv (req s) = None →
  io_if (req s) = Some iface →
  io_queue (req s) = Some q →
  ∃ s1, ocf_engine_on_resume s = Some (tt, s1)
        ∧ req s1 = set_io_if (Some _io_if_refresh)
                     (set_req_error 0 (set_priv (Some iface) (req s)))
        ∧ io_list s1 = self s :: io_list s
        ∧ io_no s1 = io_no s + 1
        ∧ trace s1 = trace s ++ [ev_queue_kick false]
        ∧ hb_rd_count s1 = hb_rd_count s.
Proof.
  intros Hpriv Hio Hq.
  unfold ocf_engine_on_resume, ocf_engine_push_req_front_if,
    ocf_engine_push_req_front.
  unfold mbind, M_bind, mret, M_ret, modify_req, modify_cache, get_req, emit.
  simpl. rewrite decide_False by (by rewrite Hpriv; intros Hne; apply Hne).
  rewrite decide_False by (by rewrite Hio). simpl. rewrite Hq.
  destruct (internal (info (req s))); simpl;
    (eexists; split; [done|]; simpl; by rewrite Hio).
Qed.

(** X4: parking a request and refreshing it.  With [priv] free, an interface
    and a queue, [ocf_engine_on_resume] puts the request at the head of
    its queue behind [_io_if_refresh];
    when the refresh finds every mapping still valid the request leaves it
    with the interface it was parked with, [priv] free again and its
    error reset to 0, whatever it was, and the I/O is dispatched by
    direction; when a mapping diverged the request is completed with
    [-OCF_ERR_INVAL] and keeps the refresh interface and the saved one in
    [priv].  Either way the hash-bucket read hold of the check is given
    back and the request was queued once. *)
Theorem park_refresh_round_trip s iface q :
  priv (req s) = None →
  io_if (req s) = Some iface →
  io_queue (req s) = Some q →
  ∃ s1,
    ocf_engine_on_resume s = Some (tt, s1)
    ∧ ∀ rc s2,
        ocf_engine_check (with_hb_rd_count (λ n, n + 1) s1) = Some (rc, s2) →
        rc ≠ 0 ∨ rw (req s) = OCF_READ ∨ rw (req s) = OCF_WRITE →
        ∃ s',
          (ocf_engine_on_resume ;; _ocf_engine_refresh) s = Some (0, s')
          ∧ io_list s' = self s :: io_list s
          ∧ io_no s' = io_no s + 1
          ∧ hb_rd_count s' = hb_rd_count s
          ∧ if decide (rc = 0)
            then io_if (req s') = Some iface
                 ∧ priv (req s') = None
                 ∧ req_error (req s') = 0
                 ∧ trace s'
                   = trace s ++ [ev_queue_kick false; dispatch (req s) iface]
            else io_if (req s') = Some _io_if_refresh
                 ∧ priv (req s') = Some iface
                 ∧ req_error (req s') = - OCF_ERR_INVAL
                 ∧ trace s'
                   = trace s ++ [ev_queue_kick false;
                                 ev_complete (- OCF_ERR_INVAL);
                                 ev_req_unlock; ev_req_put].
Proof.
  intros Hpriv Hio Hq.
  destruct (on_resume_state s iface q Hpriv Hio Hq)
    as (s1 & Hpark & Hreq & Hlist & Hno & Htr & Hrd).
  exists s1. split; [done|]. intros rc s2 Hchk Hrw.
  rewrite (bind_eq _ _ _ _ _ Hpark).
  destruct (check_frame _ _ _ Hchk)
    as (((Hext & Hout) & Htr2 & Hio2 & Hpr2 & Herr2) & Hc).
  injection Hext as _ _ _ _ _ _ Hrws _.
  injection Hout as _ Hrd2 _ _ Hlist2 Hno2. simpl in *.
  rewrite Hreq in *. simpl in *.
  unfold _ocf_engine_refresh.
  rewrite (bind_eq _ _ s1 tt (with_hb_rd_count (λ n, n + 1) s1)) by done.
  rewrite (bind_eq _ _ _ _ _ Hchk).
  unfold mbind, M_bind, mret, M_ret, ocf_hb_req_prot_unlock_rd, modify_req,
    modify_cache, get_req, emit, dispatch. simpl.
  destruct (decide (rc = 0)) as [->|Hrc]; simpl.
  - rewrite Hpr2, Hrws.
    destruct Hrw as [?|Hrw]; [done|].
    destruct (decide (rw (req s) = OCF_READ)) as [?|Hnr].
    + eexists. split; [done|]. simpl.
      rewrite Htr2, Htr, Hrd2, Hlist2, Hno2, Hlist, Hno, Hrd, <- !app_assoc.
      repeat split; try done; try congruence; lia.
    + destruct Hrw as [?|Hw]; [done|]. rewrite decide_True by done.
      eexists. split; [done|]. simpl.
      rewrite Htr2, Htr, Hrd2, Hlist2, Hno2, Hlist, Hno, Hrd, <- !app_assoc.
      repeat split; try done; try congruence; lia.
  - eexists. split; [done|]. simpl.
    rewrite Htr2, Htr, Hrd2, Hlist2, Hno2, Hlist, Hno, Hrd, <- !app_assoc.
    repeat split; try done; try congruence; lia.
Qed.

End Parking.

(** The request for the three resident core lines, locked, then failed
    with error 5 by its engine before it was parked: the refresh hands it
    back to interface 7 with the error gone. *)
Lemma park_refresh_round_trip_witness :
  let s := with_req (set_req_error 5)
             (after (ocf_engine_prepare_clines 10)
                (Sim.scenario (Sim.scenario_cache [0; 1; 2] 0 true)
                   (Sim.scenario_req 10 3))) in
  ∃ s', (ocf_engine_on_resume ;; _ocf_engine_refresh) s = Some (0, s')
        ∧ io_if (req s') = Some (io_if_engine 7)
        ∧ priv (req s') = None
        ∧ req_error (req s') = 0
        ∧ io_list s' = [100; 101; 102].
Proof.
  intros s.
  destruct (park_refresh_round_trip s (io_if_engine 7) 1)
    as (s1 & Hpark & Hrefresh); [by vm_compute..|].
  assert (s1 = after ocf_engine_on_resume s) as ->.
  { unfold after. by rewrite Hpark. }
  destruct (Hrefresh 0 (after ocf_engine_check
                          (with_hb_rd_count (λ n, n + 1)
                             (after ocf_engine_on_resume s))))
    as (s' & Hrun & Hlist & _ & _ & Hio & Hpriv & Herr & _).
  - by vm_compute.
  - right. left. by vm_compute.
  - exists s'. repeat split; assumption.
Defined.

(** ** A latched error and the lock status *)

Section ErrorAndLock.
Context `{!Consumed}.

(** After the mapping attempt of either path: the error test, the lock and
    the release. *)
Lemma lock_after_map_negative (release : M unit) (fallback : M Z) s :
  (∀ s1, wlp release (λ _ s2, req s2 = req s1) s1) →
  (∀ s1, wlp fallback error_is_negative s1) →
  wlp (err ← ocf_req_test_mapping_error;
       if negb err
       then
         lock_status ← _lock_clines;
         (if decide (lock_status < 0) then ocf_req_set_mapping_error else mret tt) ;;
         release ;;
         mret lock_status
       else release ;; fallback) error_is_negative s.
Proof.
  intros Hrel Hfall. unfold ocf_req_test_mapping_error. wlp_line.
  destruct (mapping_error (info (req s))) eqn:Herr; simpl negb; cbn iota.
  - apply wlp_bind. intros [] s1 _. apply Hfall.
  - wlp_line. intros rc s1 Hlock.
    pose proof (lock_clines_req (req s) s eq_refl rc s1 Hlock) as Hreq.
    cbn beta in Hreq. wlp_line.
    destruct (decide (rc < 0)) as [Hneg|Hpos]; wlp_line.
    + intros [] s2 Hr. wlp_line. by intros _.
    + intros [] s2 Hr. wlp_line. intros Htrue.
      rewrite (Hrel _ _ _ Hr), Hreq in Htrue. congruence.
Qed.

Lemma end_exclusive_req s1 :
  wlp ocf_metadata_end_exclusive_access (λ _ s2, req s2 = req s1) s1.
Proof. by intros [] s2 [= <-]. Qed.

Lemma unlock_wr_req s1 :
  wlp ocf_hb_req_prot_unlock_wr (λ _ s2, req s2 = req s1) s1.
Proof. by intros [] s2 [= <-]. Qed.

Lemma eviction_negative fuel s :
  0 < OCF_ERR_NO_LOCK →
  wlp (prepare_clines_miss_eviction fuel (- OCF_ERR_NO_LOCK)) error_is_negative s.
Proof.
  intros Hpos. unfold prepare_clines_miss_eviction. wlp_line.
  intros [] s2 _. wlp_line.
  intros [] s3 _. wlp_line.
  destruct (space_managment_evict_do _ _ _) as [[res c'] [map' info']].
  wlp_line.
  destruct (decide (res = LOOKUP_MISS)) as [Hmiss|Hok].
  { wlp_line. intros _. lia. }
  wlp_line. intros [] s4 _.
  unfold ocf_req_test_mapping_error. wlp_line.
  destruct (mapping_error (info (req s4))) eqn:Herr; cbn iota.
  - wlp_line. intros _. lia.
  - wlp_line. intros rc s5 Hlock.
    pose proof (lock_clines_req (req s4) s4 eq_refl rc s5 Hlock) as Hreq.
    cbn beta in Hreq. wlp_line.
    destruct (decide (rc < 0)) as [Hneg|Hnn]; wlp_line.
    + by intros _.
    + intros Htrue. simpl in Htrue. rewrite Hreq in Htrue. congruence.
Qed.

Lemma prepare_clines_miss_negative fuel s :
  0 < OCF_ERR_NO_LOCK →
  wlp (ocf_prepare_clines_miss fuel) error_is_negative s.
Proof.
  intros Hpos. unfold ocf_prepare_clines_miss. wlp_line.
  destruct (ocf_part_is_enabled _ _); simpl negb; cbn iota.
  2:{ wlp_line. intros _. lia. }
  destruct (ocf_part_has_space _ _); simpl negb; cbn iota.
  2:{ wlp_line. by apply eviction_negative. }
  wlp_line. intros [] s4 _.
  apply (lock_after_map_negative ocf_hb_req_prot_unlock_wr
           (prepare_clines_miss_eviction fuel (- OCF_ERR_NO_LOCK))).
  - apply unlock_wr_req.
  - intros s1. by apply eviction_negative.
Qed.

(** X5: a latched mapping error never comes with a lock.  [-OCF_ERR_NO_LOCK]
    being negative, whenever [ocf_engine_prepare_clines] returns with
    [mapping_error] latched its result is negative; a caller that was
    given [OCF_LOCK_ACQUIRED], or any other result that is not negative,
    finds no mapping error on the request. *)
Theorem mapping_error_means_no_lock fuel s rc s' :
  0 < OCF_ERR_NO_LOCK →
  wf_req (req s) →
  ocf_engine_prepare_clines fuel s = Some (rc, s') →
  (mapping_error (info (req s')) = true → rc < 0)
  ∧ (0 ≤ rc → mapping_error (info (req s')) = false).
Proof.
  intros Hpos Hwf Hrun.
  assert (error_is_negative rc s') as Hneg.
  { revert rc s' Hrun.
    change (wlp (ocf_engine_prepare_clines fuel) error_is_negative s).
    unfold ocf_engine_prepare_clines, ocf_req_hash. wlp_line.
    eapply wlp_mono; [apply traverse_hit_or_miss; exact Hwf|]. cbn beta.
    intros _ s1 (_ & Herr & _). wlp_line.
    destruct (ocf_engine_is_mapped (req s1)); cbn iota.
    - wlp_line. intros rc s2 Hlock.
      pose proof (lock_clines_req (req s1) s1 eq_refl rc s2 Hlock) as Hreq.
      cbn beta in Hreq. wlp_line. intros Htrue. simpl in Htrue.
      rewrite Hreq in Htrue. congruence.
    - wlp_line.
      destruct (ocf_promotion_req_should_promote _ _).1; simpl negb; cbn iota.
      + by apply prepare_clines_miss_negative.
      + wlp_line. intros _. lia. }
  split; [exact Hneg|]. intros Hrc.
  destruct (mapping_error (info (req s'))) eqn:Herr; [|done].
  specialize (Hneg Herr). lia.
Qed.

End ErrorAndLock.

(** The lock refused after a mapping that went through: the error is
    latched and the result is [-OCF_ERR_NO_LOCK]. *)
Lemma mapping_error_means_no_lock_witness :
  let s := Sim.scenario (Sim.scenario_cache [0; 1; 2] (-1000005) true)
             (Sim.scenario_req 100 1) in
  ∃ rc s', ocf_engine_prepare_clines 10 s = Some (rc, s')
           ∧ mapping_error (info (req s')) = true
           ∧ rc < 0.
Proof.
  intros s.
  pose (s' := after (ocf_engine_prepare_clines 10) s).
  assert (ocf_engine_prepare_clines 10 s = Some (-1000005, s')) as Hrun
    by (by vm_compute).
  assert (mapping_error (info (req s')) = true) as Herr by (by vm_compute).
  exists (-1000005), s'. split; [exact Hrun|]. split; [exact Herr|].
  apply (proj1 (mapping_error_means_no_lock 10 s (-1000005) s'
                  ltac:(by vm_compute) ltac:(split; simpl; lia) Hrun) Herr).
Defined.

(** ** What the refresh check leaves alone *)

Section CheckFrame.
Context `{!Consumed}.

Lemma same_slot_refl e : same_slot e e.
Proof. by repeat split. Qed.

Lemma same_slot_trans e0 e1 e2 :
  same_slot e0 e1 → same_slot e1 e2 → same_slot e0 e2.
Proof.
  intros (? & ? & ? & ? & Hst & Hm) (? & ? & ? & ? & Hst' & Hm').
  repeat split; try congruence.
  intros Hmiss. rewrite Hm' by congruence. by apply Hm.
Qed.

Lemma Forall2_same_slot_refl m : Forall2 same_slot m m.
Proof. apply Forall_Forall2_diag, Forall_forall. intros. apply same_slot_refl. Qed.

Lemma Forall2_same_slot_insert m0 m i e e' :
  Forall2 same_slot m0 m → m !! i = Some e → same_slot e e' →
  Forall2 same_slot m0 (<[i := e']> m).
Proof.
  intros Hall He Hslot.
  apply Forall2_lookup. intros j. destruct (decide (j = i)) as [->|Hne].
  - rewrite list_lookup_insert_eq by (by eapply lookup_lt_Some).
    destruct (Forall2_lookup_r _ _ _ _ _ Hall He) as (e0 & -> & H0).
    constructor. by eapply same_slot_trans.
  - rewrite list_lookup_insert_ne by done. by apply Forall2_lookup.
Qed.

Lemma account_same_slot m0 i e s :
  status e ≠ LOOKUP_MISS →
  req_map (req s) !! i = Some e →
  Forall2 same_slot m0 (req_map (req s)) →
  Forall2 same_slot m0 (req_map (req (seq_bump i (account i e s)))).
Proof.
  intros Hst He Hall. rewrite seq_bump_req_map.
  destruct (account_req_map i e s) as [-> | ->]; [done|].
  eapply Forall2_same_slot_insert; [done..|]. by repeat split.
Qed.

Lemma kept_round m0 i result s :
  Forall2 same_slot m0 (req_map (req s)) →
  wlp (check_round i result)
    (λ _ s', Forall2 same_slot m0 (req_map (req s'))) s.
Proof.
  intros Hall. apply wlp_check_round.
  - done.
  - intros e He Hst _. simpl.
    eapply Forall2_same_slot_insert; [done..|]. by repeat split.
  - intros e He Hst _.
    assert (i < length (req_map (req s)))%nat by (by eapply lookup_lt_Some).
    apply account_same_slot; [done| |].
    + simpl. by apply list_lookup_insert_eq.
    + simpl. eapply Forall2_same_slot_insert; [done..|]. by repeat split.
Qed.

Lemma check_kept s :
  wlp ocf_engine_check
    (λ _ s', Forall2 same_slot (req_map (req s)) (req_map (req s'))) s.
Proof.
  unfold ocf_engine_check. wlp_line. simpl.
  destruct (core_line_rounds (req s)) as [n|] eqn:Hr;
    unfold core_line_rounds in *; simpl; rewrite Hr; [|apply wlp_none].
  eapply wlp_mono.
  - eapply (check_loop_rule
              (λ _ _ s', Forall2 same_slot (req_map (req s)) (req_map (req s'))) n).
    + intros i result s1 _. apply kept_round.
    + done.
    + apply Forall2_same_slot_refl.
  - done.
Qed.

(** X6: what the refresh check leaves alone.  [ocf_engine_check] rewrites only
    the counters of the request and, on entries that are not a MISS, the
    flags [invalid] and [re_part]: the status, the collision index, the
    hash and the identity of every entry are as before, a MISS entry is
    untouched, the map keeps its length; the cache, the trace, the locks,
    the queue, and the interface, the private pointer and the error of the
    request are as they were. *)
Theorem check_leaves_mapping_alone s rc s' :
  ocf_engine_check s = Some (rc, s') →
  Forall2 same_slot (req_map (req s)) (req_map (req s'))
  ∧ cache s' = cache s
  ∧ trace s' = trace s
  ∧ outer s' = outer s
  ∧ extent (req s') = extent (req s)
  ∧ io_if (req s') = io_if (req s)
  ∧ priv (req s') = priv (req s)
  ∧ req_error (req s') = req_error (req s).
Proof.
  intros Hrun.
  destruct (check_frame _ _ _ Hrun) as (((Hext & Hout) & Htr & Hio & Hpr & Herr) & Hc).
  split; [exact (check_kept s rc s' Hrun)|]. by repeat split.
Qed.

End CheckFrame.

(** The locked request for the three resident core lines, checked. *)
Lemma check_leaves_mapping_alone_witness :
  let s := after (ocf_engine_prepare_clines 10)
             (Sim.scenario (Sim.scenario_cache [0; 1; 2] 0 true)
                (Sim.scenario_req 10 3)) in
  let s' := after ocf_engine_check s in
  ocf_engine_check s = Some (0, s')
  ∧ Forall2 same_slot (req_map (req s)) (req_map (req s'))
  ∧ cache s' = cache s
  ∧ trace s' = trace s.
Proof.
  intros s s'.
  assert (ocf_engine_check s = Some (0, s')) as Hrun by (by vm_compute).
  destruct (check_leaves_mapping_alone s 0 s' Hrun) as (Hmap & Hc & Htr & _).
  exact (conj Hrun (conj Hmap (conj Hc Htr))).
Defined.

(** ** Traversal and the refresh check *)

Section TraverseCheck.
Context `{!Consumed}.

Lemma holds_marked_hot c l cid cl line :
  set_hot_keeps_core_info →
  holds (foldl mark_hot c l) cid cl line = holds c cid cl line.
Proof.
  intros Hkeep. revert c. induction l as [|e l IH]; intros c; simpl; [done|].
  rewrite IH. unfold mark_hot, holds. destruct (decide _); [|done].
  by rewrite Hkeep.
Qed.

(** X7: traversal and the refresh check agree.  The recency update not
    touching the identity a cache line stores, a check run on the request
    as traversal left it finds no mapping diverged: it returns 0 and no
    entry that is not a MISS is flagged [invalid]. *)
Theorem check_after_traverse fuel s s1 rc s2 :
  set_hot_keeps_core_info →
  wf_req (req s) →
  ocf_engine_traverse fuel s = Some (tt, s1) →
  ocf_engine_check s1 = Some (rc, s2) →
  rc = 0
  ∧ ∀ i e, req_entry (req s2) i e → status e ≠ LOOKUP_MISS → invalid e = false.
Proof.
  intros Hkeep Hwf Htrav Hchk.
  destruct (traverse_walked fuel s Hwf tt s1 Htrav)
    as (cl & _ & Hcore & _ & Hc & Hfound & _).
  pose proof (keeps_traverse s fuel s (stable_refl s) tt s1 Htrav) as Hst.
  pose proof (stable_wf _ _ Hst Hwf) as Hwf1.
  pose proof (stable_count _ _ Hst) as Hcnt.
  destruct (check_checked s1 rc s2 Hchk) as (n & Hn & _ & _ & _ & Hiff & Hdone & _).
  assert (n = Z.to_nat (core_line_count (req s))) as ->.
  { destruct (wf_rounds _ Hwf1) as [Hr|Hr]; congruence. }
  assert (∀ j e0, (j < Z.to_nat (core_line_count (req s)))%nat →
            req_map (req s1) !! j = Some e0 →
            status e0 ≠ LOOKUP_MISS →
            still_maps (cache s1) (core (req s1)) e0 = true) as Hvalid.
  { intros j e0 Hj He0 Hne.
    destruct (Hfound j e0 Hj He0) as (_ & Hcl & _ & [[_ Hholds]|[? _]]);
      [|done].
    rewrite holds_marked_hot in Hholds by done.
    unfold still_maps. rewrite Hc, holds_marked_hot, Hcore, Hcl by done.
    exact Hholds. }
  split; [by apply Hiff|].
  intros i e [Hi He] Hne.
  pose proof (keeps_check s1 s1 (stable_refl s1) rc s2 Hchk) as Hst2.
  rewrite (stable_count _ _ Hst2), Hcnt in Hi.
  destruct (traverse_traversed fuel s Hwf tt s1 Htrav) as [((Hall & _) & _) _].
  destruct (Hall i ltac:(lia)) as (e0 & He0 & _).
  destruct (Hdone i e0 ltac:(lia) He0) as (e' & He' & Hst' & _ & Hinv).
  assert (e' = e) as -> by congruence.
  rewrite Hinv by congruence.
  rewrite (Hvalid i e0); [done|lia|done|congruence].
Qed.

End TraverseCheck.

(** Core lines 11..13, two of them resident, traversed and checked. *)
Lemma check_after_traverse_witness :
  let s := Sim.scenario (Sim.scenario_cache [0; 1; 2] 0 true)
             (Sim.scenario_req 11 3) in
  ∃ s2, (ocf_engine_traverse 10 ;; ocf_engine_check) s = Some (0, s2).
Proof.
  intros s.
  pose (s1 := after (ocf_engine_traverse 10) s).
  assert (ocf_engine_traverse 10 s = Some (tt, s1)) as Htrav by (by vm_compute).
  destruct (ocf_engine_check s1) as [[rc s2]|] eqn:Hchk;
    [|by vm_compute in Hchk].
  destruct (check_after_traverse 10 s s1 rc s2) as [-> _].
  - intros c line x. reflexivity.
  - split; simpl; lia.
  - exact Htrav.
  - exact Hchk.
  - exists s2. rewrite (bind_eq _ _ _ _ _ Htrav). exact Hchk.
Defined.

(** ** Traversal and the cleaner *)

Section DirtyHits.
Context `{!Consumed}.

Lemma account_dirty_any idx e s :
  dirty_any (info (req (account idx e s)))
  = if to_clean (cache s) e
    then u32 (dirty_any (info (req s)) + 1)
    else dirty_any (info (req s)).
Proof.
  unfold account, to_clean.
  destruct (status e); simpl; try done.
  by case_metadata_tests.
Qed.

Lemma seq_bump_dirty_any i s :
  dirty_any (info (req (seq_bump i s))) = dirty_any (info (req s)).
Proof. unfold seq_bump. by destruct (_ && _). Qed.

Lemma to_clean_dirty_ext c c' e :
  (∀ x, metadata_test_dirty c x = metadata_test_dirty c' x) →
  to_clean c e = to_clean c' e.
Proof. intros Hext. unfold to_clean. by rewrite Hext. Qed.

Lemma to_clean_re_part c e : to_clean c (set_re_part true e) = to_clean c e.
Proof. done. Qed.

Lemma count_upto_S p m k e :
  m !! k = Some e →
  count_upto p m (S k) = count_upto p m k + (if p e then 1 else 0).
Proof. intros He. simpl. by rewrite He. Qed.

Lemma dirtied_round c0 fuel N i cl s :
  set_hot_keeps_dirty →
  Z.of_nat N < 2 ^ 32 → (i < N)%nat → dirtied c0 i s →
  wlp (traverse_round fuel i cl) (λ _, dirtied c0 (S i)) s.
Proof.
  intros Hlaw HN Hi [Hany Hbits]. apply wlp_traverse_round.
  intros e0 e' He0 Hlook.
  assert (i < length (req_map (req s)))%nat as Hlt by (by eapply lookup_lt_Some).
  destruct (traverse_step_map i e' s) as (e'' & Hmap & He'' & Hc & _).
  pose proof (count_upto_bounds (to_clean c0) (req_map (req s)) i) as Hb.
  assert (∀ x, metadata_test_dirty (cache (traverse_step i e' s)) x
               = metadata_test_dirty c0 x) as Hbits'.
  { intros x. rewrite Hc. unfold mark_hot. destruct (decide _); [|done].
    by rewrite Hlaw. }
  split; [|done]. rewrite Hmap.
  rewrite (count_upto_S _ _ _ e'') by (by apply list_lookup_insert_eq).
  rewrite count_upto_insert by lia. rewrite <- Hany.
  assert (to_clean c0 e'' = to_clean c0 e') as ->.
  { by destruct He'' as [-> | ->]. }
  unfold traverse_step.
  destruct (decide (status e' = LOOKUP_HIT)) as [Hh|Hm].
  - rewrite seq_bump_dirty_any, account_dirty_any. simpl.
    rewrite (to_clean_dirty_ext _ c0).
    2:{ intros x. rewrite Hlaw. apply Hbits. }
    destruct (to_clean c0 e'); [|lia]. rewrite u32_small; lia.
  - simpl. unfold to_clean. rewrite bool_decide_eq_false_2 by done. simpl. lia.
Qed.

Lemma traverse_dirtied fuel s :
  set_hot_keeps_dirty →
  wf_req (req s) →
  wlp (ocf_engine_traverse fuel)
    (λ _, dirtied (cache s) (Z.to_nat (core_line_count (req s)))) s.
Proof.
  intros Hlaw Hwf.
  unfold ocf_engine_traverse. wlp_line. simpl.
  destruct (wf_rounds _ Hwf) as [Hr|Hr]; unfold core_line_rounds in *;
    simpl; rewrite Hr; [|apply wlp_none].
  eapply (traverse_loop_rule (dirtied (cache s))).
  - intros i cl s1 Hi Hinv.
    apply (dirtied_round _ fuel (Z.to_nat (core_line_count (req s))));
      [done| |done..].
    destruct Hwf as [_ ?]. lia.
  - done.
  - done.
Qed.

Lemma count_upto_filter p m k :
  (k ≤ length m)%nat →
  count_upto p m k = Z.of_nat (length (List.filter p (take k m))).
Proof.
  induction k as [|k IH]; intros Hk; [done|].
  destruct (lookup_lt_is_Some_2 m k) as [e He]; [lia|].
  rewrite (count_upto_S _ _ _ e He), IH by lia.
  rewrite (take_S_r _ _ e He), List.filter_app, length_app. simpl.
  destruct (p e); simpl; lia.
Qed.

(** X8: traversal counts the cleaner's work.  The recency update not touching
    dirty bits, [dirty_any] after [ocf_engine_traverse] is the number of
    entries that are a HIT on a dirty line; so the count that
    [ocf_engine_clean] hands to the cleaner is exactly the number of lines
    its getter yields before it reports the end. *)
Theorem traverse_counts_dirty_hits fuel s s' :
  set_hot_keeps_dirty →
  wf_req (req s) →
  ocf_engine_traverse fuel s = Some (tt, s') →
  let dirty := List.filter (to_clean (cache s')) (req_entries (req s')) in
  dirty_any (info (req s')) = Z.of_nat (length dirty)
  ∧ count (clean_attribs (req s')) = Z.of_nat (length dirty)
  ∧ ∀ item line,
      drain (S (Z.to_nat (count (clean_attribs (req s')))))
        (cache s') (req s') (clean_attribs (req s')) item line
      = Some (coll_idx <$> dirty,
              set_getter_item (core_line_count (req s')) (clean_attribs (req s'))).
Proof.
  intros Hlaw Hwf Hrun dirty.
  destruct (traverse_dirtied fuel s Hlaw Hwf tt s' Hrun) as [Hany Hbits].
  destruct (traverse_traversed fuel s Hwf tt s' Hrun) as [((Hall & _) & _) Hst].
  pose proof (stable_count _ _ Hst) as Hcnt.
  pose proof (stable_wf _ _ Hst Hwf) as [_ Hrange].
  assert (Z.to_nat (core_line_count (req s')) ≤ length (req_map (req s')))%nat
    as Hlen.
  { rewrite Hcnt. destruct (Z.to_nat (core_line_count (req s))) as [|n]; [lia|].
    destruct (Hall n ltac:(lia)) as (e & He & _).
    apply lookup_lt_Some in He. lia. }
  assert (dirty_any (info (req s')) = Z.of_nat (length dirty)) as Hdirty.
  { rewrite Hany, count_upto_filter by (by rewrite <- Hcnt).
    subst dirty. unfold req_entries. rewrite Hcnt. do 2 f_equal.
    apply List.filter_ext. intros e. symmetry. by apply to_clean_dirty_ext. }
  split; [done|]. split; [done|].
  intros item line. simpl count. rewrite Hdirty, Nat2Z.id.
  rewrite (drain_from (cache s') (req s') (Z.to_nat (core_line_count (req s'))) 0);
    rewrite ?drop_0; try done. subst dirty. lia.
Qed.

End DirtyHits.

(** The three resident core lines, of which line 4 is dirty: one line for
    the cleaner. *)
Lemma traverse_counts_dirty_hits_witness :
  let s := Sim.scenario (Sim.scenario_cache [0; 1; 2] 0 true)
             (Sim.scenario_req 10 3) in
  let s' := after (ocf_engine_traverse 10) s in
  dirty_any (info (req s')) = 1
  ∧ drain 2 (cache s') (req s') (clean_attribs (req s')) 0 0
    = Some ([4], set_getter_item 3 (clean_attribs (req s'))).
Proof.
  intros s s'.
  destruct (traverse_counts_dirty_hits 10 s s') as (Hany & _ & Hdrain).
  - intros c line x. reflexivity.
  - split; simpl; lia.
  - by vm_compute.
  - split; [rewrite Hany; by vm_compute|].
    pose proof (Hdrain 0 0) as Hd. vm_compute in Hd. vm_compute. exact Hd.
Defined.

(** ** Counting errors towards fallback pass-through *)

Section FallbackCounter.
Variable inactive : Z.

Lemma s32_small x : - 2 ^ 31 ≤ x < 2 ^ 31 → s32 x = x.
Proof. intros Hx. unfold s32. rewrite Z.mod_small; lia. Qed.

Lemma s32_wraps : s32 (2 ^ 31 - 1 + 1) = - 2 ^ 31.
Proof. reflexivity. Qed.

(** X9: the fallback counter.  With the fallback active, [n] errors counted
    from a counter that is not negative and does not overflow leave the
    counter [n] higher, and the cache log is told that the threshold is
    reached exactly once if the counter passed the threshold on the way,
    and not at all otherwise.  With the threshold at
    [OCF_CACHE_FALLBACK_PT_INACTIVE] nothing is counted or logged.  A
    negative counter traps; an error counted at [INT_MAX] wraps the
    counter, so that the next one traps. *)
Theorem fallback_threshold_logged_once c :
  (∀ n,
     0 ≤ fallback_pt_error_counter c →
     fallback_pt_error_threshold c ≠ inactive →
     fallback_pt_error_counter c + Z.of_nat n < 2 ^ 31 →
     fallback_pt_errors inactive n c
     = Some {| fallback_pt_error_counter := fallback_pt_error_counter c + Z.of_nat n;
               fallback_pt_error_threshold := fallback_pt_error_threshold c;
               fallback_pt_logged :=
                 if decide (fallback_pt_error_counter c
                            < fallback_pt_error_threshold c
                            ≤ fallback_pt_error_counter c + Z.of_nat n)
                 then fallback_pt_logged c + 1
                 else fallback_pt_logged c |})
  ∧ (∀ n,
       0 ≤ fallback_pt_error_counter c →
       fallback_pt_error_threshold c = inactive →
       fallback_pt_errors inactive n c = Some c)
  ∧ (fallback_pt_error_counter c < 0 →
     inc_fallback_pt_error_counter inactive c = None)
  ∧ (fallback_pt_error_counter c = 2 ^ 31 - 1 →
     fallback_pt_error_threshold c ≠ inactive →
     ∃ c', inc_fallback_pt_error_counter inactive c = Some c'
           ∧ fallback_pt_error_counter c' = - 2 ^ 31
           ∧ inc_fallback_pt_error_counter inactive c' = None).
Proof.
  split; [|split; [|split]].
  - intros n Hc Hact. induction n as [|n IH]; intros Hn.
    + simpl. rewrite Z.add_0_r. rewrite decide_False by lia. by destruct c.
    + simpl. rewrite IH by lia. unfold inc_fallback_pt_error_counter. simpl.
      rewrite decide_False by lia. rewrite decide_False by done.
      rewrite s32_small by lia. f_equal.
      replace (fallback_pt_error_counter c + Z.of_nat n + 1)
        with (fallback_pt_error_counter c + Z.of_nat (S n)) by lia.
      f_equal.
      destruct (decide (_ = _)) as [Heq|Hne];
        repeat destruct (decide (_ < _ ≤ _)); try done; lia.
  - intros n Hc Hin. induction n as [|n IH]; simpl; [done|].
    rewrite IH. unfold inc_fallback_pt_error_counter.
    rewrite decide_False by lia. by rewrite decide_True.
  - intros Hneg. unfold inc_fallback_pt_error_counter. by rewrite decide_True.
  - intros Hmax Hact. unfold inc_fallback_pt_error_counter.
    rewrite decide_False by lia. rewrite decide_False by done.
    eexists. split; [done|]. simpl. rewrite Hmax. split; [done|].
    by rewrite decide_True.
Qed.
End FallbackCounter.

(** Five errors against a threshold of three: one line in the log. *)
Lemma fallback_threshold_logged_once_witness :
  fallback_pt_errors 0 5
    {| fallback_pt_error_counter := 0; fallback_pt_error_threshold := 3;
       fallback_pt_logged := 0 |}
  = Some {| fallback_pt_error_counter := 5; fallback_pt_error_threshold := 3;
            fallback_pt_logged := 1 |}.
Proof.
  exact (proj1 (fallback_threshold_logged_once 0
                  {| fallback_pt_error_counter := 0;
                     fallback_pt_error_threshold := 3;
                     fallback_pt_logged := 0 |}) 5%nat
           ltac:(simpl; lia) ltac:(simpl; lia) ltac:(simpl; lia)).
Defined.

(** ** Unwinding twice *)

Section UnwindTwice.
Context `{!Consumed}.

Lemma map_hndl_error_loop_noop n : ∀ i s,
  (∀ j, (i ≤ j < i + n)%nat →
        ∃ e, req_map (req s) !! j = Some e
             ∧ (status e = LOOKUP_HIT ∨ status e = LOOKUP_MISS)) →
  map_hndl_error_loop n i s = Some (tt, s).
Proof.
  induction n as [|n IH]; intros i s Hall; simpl; [done|].
  destruct (Hall i ltac:(lia)) as (e & He & Hst).
  assert (map_hndl_error_round i s = Some (tt, s)) as Hround.
  { unfold map_hndl_error_round.
    rewrite (bind_eq _ _ _ _ _ (map_entry_Some _ _ _ He)).
    by destruct Hst as [-> | ->]. }
  rewrite (bind_eq _ _ _ _ _ Hround). apply IH.
  intros j Hj. apply Hall. lia.
Qed.

(** X10: unwinding twice.  Once [ocf_engine_map_hndl_error] has returned, no
    entry of the request is INSERTED or REMAPPED, and running it again
    returns with the request and the cache exactly as they are: no cache
    line is invalidated a second time. *)
Theorem map_hndl_error_idempotent s s1 :
  ocf_engine_map_hndl_error s = Some (tt, s1) →
  ocf_engine_map_hndl_error s1 = Some (tt, s1)
  ∧ no_promoted (req s1)
  ∧ info (req s1) = info (req s).
Proof.
  intros Hrun.
  destruct (map_hndl_error_unwound s tt s1 Hrun) as [Hun Hst].
  pose proof (unwound_all_hit_or_miss _ _ Hun Hst) as Hhm.
  pose proof (stable_count _ _ Hst) as Hcnt.
  destruct Hun as (Hmap & _ & Hinfo & Hlen).
  split; [|split; [by apply all_hit_or_miss_no_promoted|done]].
  unfold ocf_engine_map_hndl_error.
  rewrite (bind_eq _ _ s1 (req s1) s1) by done.
  apply map_hndl_error_loop_noop. intros j Hj.
  destruct (lookup_lt_is_Some_2 (req_map (req s1)) j) as [e He].
  { rewrite Hmap, length_app, length_fmap, length_take, length_drop. lia. }
  exists e. split; [done|]. apply (Hhm j). split; [lia|done].
Qed.

End UnwindTwice.

(** A request with an INSERTED entry on line 0 between two hits. *)
Lemma map_hndl_error_idempotent_witness :
  let s := with_map (λ m, <[1%nat := set_status LOOKUP_INSERTED
                                 (set_coll_idx 0 Sim.blank_entry)]> m)
             (after (ocf_engine_traverse 10)
                (Sim.scenario (Sim.scenario_cache [1; 2] 0 true)
                   (Sim.scenario_req 10 3))) in
  let s1 := after ocf_engine_map_hndl_error s in
  (status <$> req_map (req s1)) = [LOOKUP_HIT; LOOKUP_MISS; LOOKUP_HIT]
  ∧ ocf_engine_map_hndl_error s1 = Some (tt, s1).
Proof.
  intros s s1.
  assert (ocf_engine_map_hndl_error s = Some (tt, s1)) as Hrun by (by vm_compute).
  split; [by vm_compute|].
  exact (proj1 (map_hndl_error_idempotent s s1 Hrun)).
Defined.

(** ** No error, nothing unmapped *)

Section MappedOrFailed.
Context `{!Consumed}.

Lemma settled_unmapped_zero r :
  0 ≤ core_line_count r < 2 ^ 32 →
  settled (Z.to_nat (core_line_count r)) r →
  counted (Z.to_nat (core_line_count r)) r →
  ocf_engine_unmapped_count r = 0.
Proof.
  intros Hn Hdone Hc.
  pose proof Hc as (Hall & Hh & Hi & Hhit & Hins & _).
  pose proof (count_upto_total _ _ Hall) as Htot.
  rewrite (count_upto_settled _ _ Hdone) in Htot.
  rewrite Z2Nat.id in Htot by lia.
  pose proof (count_upto_bounds (is_status LOOKUP_INSERTED) (req_map r)
                (Z.to_nat (core_line_count r))).
  unfold ocf_engine_unmapped_count.
  rewrite (u32_small (hit_no _ + invalid_no _)) by lia.
  rewrite (u32_small (_ + insert_no _)) by lia.
  replace (hit_no (info r) + invalid_no (info r) + insert_no (info r))
    with (core_line_count r) by lia.
  by rewrite Z.sub_diag.
Qed.

Lemma map_mapped fuel s :
  wf_req (req s) →
  wlp (ocf_engine_map fuel) (λ _, mapped_unless_error) s.
Proof.
  intros Hwf.
  destruct (decide (ocf_engine_unmapped_count (req s) = 0)) as [Hz|Hnz].
  { unfold ocf_engine_map. do 4 wlp_step. rewrite decide_True by done.
    wlp_step. by intros _. }
  intros [] s' Hrun Herr.
  pose proof (keeps_map s fuel s (stable_refl s) tt s' Hrun) as Hst.
  pose proof (stable_count _ _ Hst) as Hcnt.
  destruct (map_settled fuel s Hwf Hnz tt s' Hrun Herr) as (Hdone & Hc & _).
  destruct (stable_wf _ _ Hst Hwf) as [_ Hn].
  rewrite <- Hcnt in Hdone, Hc. by apply settled_unmapped_zero.
Qed.

Lemma lock_keeps_mapped (release : M unit) s :
  (∀ s1, wlp release (λ _ s2, req s2 = req s1) s1) →
  mapped_unless_error s →
  wlp (lock_status ← _lock_clines;
       (if decide (lock_status < 0) then ocf_req_set_mapping_error else mret tt) ;;
       release ;;
       mret lock_status) (λ _, mapped_unless_error) s.
Proof.
  intros Hrel Hm. wlp_line. intros rc s1 Hlock.
  pose proof (lock_clines_req (req s) s eq_refl rc s1 Hlock) as Hreq.
  cbn beta in Hreq. wlp_line.
  destruct (decide (rc < 0)) as [Hneg|Hpos]; wlp_line.
  - intros [] s2 Hr. wlp_line. intros Herr.
    rewrite (Hrel _ _ _ Hr) in Herr. done.
  - intros [] s2 Hr. wlp_line. unfold mapped_unless_error.
    rewrite (Hrel _ _ _ Hr), Hreq. exact Hm.
Qed.

Lemma eviction_mapped fuel lock_status s :
  wf_req (req s) →
  wlp (prepare_clines_miss_eviction fuel lock_status)
    (λ _, mapped_unless_error) s.
Proof.
  intros Hwf. unfold prepare_clines_miss_eviction. wlp_line.
  eapply wlp_mono; [by apply traverse_hit_or_miss|]. cbn beta.
  intros _ s2 (_ & _ & Hst2). wlp_line.
  assert (∀ pe, wf_req (req (with_req (set_part_evict pe) s2))) as Hwf'.
  { intros pe. exact (stable_wf _ _ Hst2 Hwf). }
  eapply (wlp_mono _ (λ _ s3, ∃ pe, s3 = with_req (set_part_evict pe) s2)).
  { destruct (negb _); wlp_step; by eexists. }
  cbn beta. intros _ s3 [pe ->]. wlp_line.
  destruct (space_managment_evict_do _ _ _) as [[res c'] [map' info']].
  wlp_line.
  destruct (decide (res = LOOKUP_MISS)) as [Hmiss|Hok].
  { wlp_line. unfold mapped_unless_error. simpl. done. }
  wlp_line.
  eapply wlp_mono; [apply map_mapped; exact (Hwf' pe)|]. cbn beta.
  intros _ s4 Hm4.
  unfold ocf_req_test_mapping_error. wlp_line.
  destruct (mapping_error (info (req s4))) eqn:Herr4; cbn iota.
  - wlp_line. unfold mapped_unless_error. simpl. congruence.
  - apply (lock_keeps_mapped ocf_metadata_end_exclusive_access);
      [apply end_exclusive_req|done].
Qed.

Lemma prepare_clines_miss_mapped fuel s :
  wf_req (req s) →
  wlp (ocf_prepare_clines_miss fuel) (λ _, mapped_unless_error) s.
Proof.
  intros Hwf. unfold ocf_prepare_clines_miss. wlp_line.
  destruct (ocf_part_is_enabled _ _); simpl negb; cbn iota.
  2:{ wlp_line. unfold mapped_unless_error. simpl. done. }
  destruct (ocf_part_has_space _ _); simpl negb; cbn iota.
  2:{ wlp_line. by apply eviction_mapped. }
  wlp_line.
  match goal with
  | |- wlp (ocf_engine_map _) _ ?s0 =>
      eapply wlp_mono;
        [apply wlp_conj;
           [apply (map_mapped fuel s0); exact Hwf
           |apply (keeps_map s0 fuel s0), stable_refl]|]
  end.
  cbn beta. intros _ s4 [Hm4 Hst4].
  assert (wf_req (req s4)) as Hwf4 by exact (stable_wf _ _ Hst4 Hwf).
  unfold ocf_req_test_mapping_error. wlp_line.
  destruct (mapping_error (info (req s4))) eqn:Herr4; simpl negb; cbn iota.
  - wlp_line. by apply eviction_mapped.
  - apply (lock_keeps_mapped ocf_hb_req_prot_unlock_wr);
      [apply unlock_wr_req|done].
Qed.

(** X11: no error, nothing unmapped.  Whenever [ocf_engine_prepare_clines]
    returns without [mapping_error] latched, the counters of the request
    leave no entry unmapped ([ocf_engine_unmapped_count] is 0), on the
    fully mapped path, after mapping from the free list and after
    eviction alike: with the cache-line lock granted or pending, the
    caller holds a request that needs no further mapping. *)
Theorem prepare_clines_maps_or_fails fuel s rc s' :
  wf_req (req s) →
  ocf_engine_prepare_clines fuel s = Some (rc, s') →
  mapping_error (info (req s')) = false →
  ocf_engine_unmapped_count (req s') = 0
  ∧ ocf_engine_is_mapped (req s') = true.
Proof.
  intros Hwf Hrun Herr.
  assert (mapped_unless_error s') as Hm.
  { revert rc s' Hrun Herr. intros rc s' Hrun _. revert rc s' Hrun.
    change (wlp (ocf_engine_prepare_clines fuel) (λ _, mapped_unless_error) s).
    unfold ocf_engine_prepare_clines, ocf_req_hash. wlp_line.
    eapply wlp_mono; [apply traverse_hit_or_miss; exact Hwf|]. cbn beta.
    intros _ s1 (_ & _ & Hst1). wlp_line.
    assert (wf_req (req s1)) as Hwf1 by exact (stable_wf _ _ Hst1 Hwf).
    destruct (ocf_engine_is_mapped (req s1)) eqn:Hmapped; cbn iota.
    - apply bool_decide_eq_true_1 in Hmapped.
      wlp_line. intros rc s2 Hlock.
      pose proof (lock_clines_req (req s1) s1 eq_refl rc s2 Hlock) as Hreq.
      cbn beta in Hreq. wlp_line. intros _. simpl. by rewrite Hreq.
    - wlp_line.
      destruct (ocf_promotion_req_should_promote _ _).1; simpl negb; cbn iota.
      + by apply prepare_clines_miss_mapped.
      + wlp_line. unfold mapped_unless_error. simpl. done. }
  split; [by apply Hm|]. unfold ocf_engine_is_mapped.
  apply bool_decide_eq_true_2. by apply Hm.
Qed.

End MappedOrFailed.

(** Core lines 11..13, one of them to map from the free list. *)
Lemma prepare_clines_maps_or_fails_witness :
  let s := Sim.scenario (Sim.scenario_cache [0; 1; 2] 0 true)
             (Sim.scenario_req 11 3) in
  let s' := after (ocf_engine_prepare_clines 10) s in
  ocf_engine_prepare_clines 10 s = Some (0, s')
  ∧ ocf_engine_unmapped_count (req s') = 0.
Proof.
  intros s s'.
  assert (ocf_engine_prepare_clines 10 s = Some (0, s')) as Hrun
    by (by vm_compute).
  split; [exact Hrun|].
  exact (proj1 (prepare_clines_maps_or_fails 10 s 0 s'
                  ltac:(split; simpl; lia) Hrun ltac:(by vm_compute))).
Defined.

(** ** Physical contiguity of two neighbours *)

Section PhysCont.
Context `{!Consumed}.

(** X12: physical contiguity of two neighbours.  For entry [j] and its
    successor [ocf_engine_clines_phys_cont] changes nothing and answers
    true exactly when neither is a MISS and the physical line of the
    second is that of the first plus one, as integers: the last physical
    line, [0xFFFFFFFF], is followed by none, the sum wrapping to 0 does not
    count.  A MISS at [j] answers false without the successor being read;
    otherwise a successor past the end of the map is an access out of
    bounds. *)
Theorem clines_phys_cont_no_wrap j s e1 :
  req_map (req s) !! j = Some e1 →
  (status e1 = LOOKUP_MISS →
   ocf_engine_clines_phys_cont j s = Some (false, s))
  ∧ (∀ e2, req_map (req s) !! S j = Some e2 →
       ∃ b, ocf_engine_clines_phys_cont j s = Some (b, s)
            ∧ (b = true ↔
               status e1 ≠ LOOKUP_MISS ∧ status e2 ≠ LOOKUP_MISS
               ∧ phys (cache s) (coll_idx e1) + 1 = phys (cache s) (coll_idx e2))
            ∧ (phys (cache s) (coll_idx e1) = 2 ^ 32 - 1 → b = false))
  ∧ (status e1 ≠ LOOKUP_MISS → req_map (req s) !! S j = None →
     ocf_engine_clines_phys_cont j s = None).
Proof.
  intros He1. split; [|split].
  - intros Hmiss. unfold ocf_engine_clines_phys_cont.
    rewrite (bind_eq _ _ s (cache s) s) by done.
    rewrite (bind_eq _ _ _ _ _ (map_entry_Some _ _ _ He1)).
    by rewrite decide_True.
  - intros e2 He2. exists (cont_pair (cache s) e1 e2).
    split; [by apply phys_cont_run|].
    pose proof (phys_range (cache s) (coll_idx e2)) as Hr2.
    unfold cont_pair. split.
    + rewrite !andb_true_iff, !bool_decide_eq_true. tauto.
    + intros Hmax. apply andb_false_iff. right.
      apply bool_decide_eq_false_2. lia.
  - intros Hne Hnone. unfold ocf_engine_clines_phys_cont.
    rewrite (bind_eq _ _ s (cache s) s) by done.
    rewrite (bind_eq _ _ _ _ _ (map_entry_Some _ _ _ He1)).
    rewrite decide_False by done.
    unfold mbind, M_bind, map_entry.
    replace (j + 1)%nat with (S j) by lia. by rewrite Hnone.
Qed.

End PhysCont.

(** Lines 3 and 4 of the scenario, looked up for core lines 10 and 11. *)
Lemma clines_phys_cont_no_wrap_witness :
  let s := after (ocf_engine_traverse 10)
             (Sim.scenario (Sim.scenario_cache [0; 1; 2] 0 true)
                (Sim.scenario_req 10 2)) in
  ocf_engine_clines_phys_cont 0 s = Some (true, s).
Proof.
  intros s.
  assert (∃ e1, req_map (req s) !! 0%nat = Some e1) as [e1 He1].
  { vm_compute. by eexists. }
  assert (∃ e2, req_map (req s) !! 1%nat = Some e2) as [e2 He2].
  { vm_compute. by eexists. }
  destruct (proj1 (proj2 (clines_phys_cont_no_wrap 0 s e1 He1)) e2 He2)
    as (b & Hrun & Hiff & _).
  assert (b = true) as ->; [|exact Hrun].
  apply Hiff. vm_compute in He1, He2.
  injection He1 as <-. injection He2 as <-. by vm_compute.
Defined.

(** ** The lock request comes last *)

Section LockLast.
Context `{!Consumed}.

Lemma policy_calls_refl s : policy_calls s s.
Proof. exists []. by rewrite app_nil_r. Qed.

Lemma policy_calls_emit s0 s ev :
  is_policy_call ev = true → policy_calls s0 s →
  policy_calls s0 (with_trace (λ t, t ++ [ev]) s).
Proof.
  intros Hev (calls & Htr & Hall). exists (calls ++ [ev]). simpl.
  rewrite Htr, app_assoc. split; [done|].
  rewrite forallb_app, Hall. simpl. by rewrite Hev.
Qed.

Lemma policy_calls_snoc s0 s s' ev :
  policy_calls s0 s → trace s' = trace s ++ [ev] → is_policy_call ev = true →
  policy_calls s0 s'.
Proof.
  intros (calls & Htr & Hall) Heq Hev. exists (calls ++ [ev]).
  rewrite Heq, Htr, app_assoc. split; [done|].
  rewrite forallb_app, Hall. simpl. by rewrite Hev.
Qed.

Lemma policy_calls_quiet s0 s s' :
  trace s' = trace s → policy_calls s0 s → policy_calls s0 s'.
Proof. intros Heq (calls & Htr & Hall). exists calls. by rewrite Heq. Qed.

Lemma policy_calls_last s0 s : policy_calls s0 s → lock_comes_last s0 s.
Proof.
  intros (calls & Htr & Hall). exists calls, []. rewrite app_nil_r. auto.
Qed.

Lemma keeps_policy_emit s0 ev :
  is_policy_call ev = true → keeps (policy_calls s0) (emit ev).
Proof. intros Hev. apply keeps_emit. intros s. by apply policy_calls_emit. Qed.

Lemma keeps_policy_of_silent {A} (m : M A) s0 :
  (∀ s1, keeps (silent s1) m) → keeps (policy_calls s0) m.
Proof.
  intros Hm s Hs a s' Hrun.
  destruct (Hm s s (silent_refl s) a s' Hrun) as (_ & Htr & _).
  by eapply policy_calls_quiet.
Qed.

Lemma keeps_policy_traverse s0 fuel :
  keeps (policy_calls s0) (ocf_engine_traverse fuel).
Proof. apply keeps_policy_of_silent. intros s1. apply silent_traverse. Qed.

Lemma keeps_policy_map s0 fuel : keeps (policy_calls s0) (ocf_engine_map fuel).
Proof.
  assert (∀ n i cl, keeps (policy_calls s0) (map_loop fuel n i cl)).
  { intros n i cl. apply keeps_policy_of_silent. intros s1.
    apply silent_map_loop. }
  unfold ocf_engine_map, ocf_req_clear_info, ocf_req_set_mapping_error,
    modify_info.
  keeps_frame. by apply keeps_policy_emit.
Qed.

(** The lock, and what follows it in either path. *)
Lemma lock_tail_last {A} (k : Z → M A) s0 s :
  (∀ rc s1, wlp (k rc) (λ _ s2, trace s2 = trace s1) s1) →
  policy_calls s0 s →
  wlp (_lock_clines ≫= k) (λ _, lock_comes_last s0) s.
Proof.
  intros Hk (calls & Htr & Hall).
  assert (wlp _lock_clines
            (λ _ s1, ∃ lock, trace s1 = trace s ++ lock
                     ∧ (lock = [] ∨ ∃ ev, lock = [ev] ∧ is_lock_request ev = true))
            s) as Hlock.
  { unfold _lock_clines. wlp_line.
    destruct (get_lock_type (req s)); wlp_line; simpl.
    - exists []. by rewrite app_nil_r; auto.
    - eexists. split; [done|]. right. by eexists.
    - eexists. split; [done|]. right. by eexists. }
  apply wlp_bind. eapply wlp_mono; [exact Hlock|]. cbn beta.
  intros rc s1 (lock & Htr1 & Hshape).
  eapply wlp_mono; [apply Hk|]. cbn beta. intros a s2 Heq.
  exists calls, lock. rewrite Heq, Htr1, Htr. by rewrite <- app_assoc.
Qed.

Lemma miss_tail_trace (release : M unit) rc s1 :
  (∀ s, wlp release (λ _ s2, trace s2 = trace s) s) →
  wlp ((if decide (rc < 0) then ocf_req_set_mapping_error else mret tt) ;;
       release ;; mret rc) (λ _ s2, trace s2 = trace s1) s1.
Proof.
  intros Hrel.
  destruct (decide (rc < 0)); wlp_line;
    intros [] s2 Hr; wlp_line; by rewrite (Hrel _ _ _ Hr).
Qed.

Lemma end_exclusive_trace s1 :
  wlp ocf_metadata_end_exclusive_access (λ _ s2, trace s2 = trace s1) s1.
Proof. by intros [] s2 [= <-]. Qed.

Lemma unlock_wr_trace s1 :
  wlp ocf_hb_req_prot_unlock_wr (λ _ s2, trace s2 = trace s1) s1.
Proof. by intros [] s2 [= <-]. Qed.

Lemma unlock_rd_trace s1 :
  wlp ocf_hb_req_prot_unlock_rd (λ _ s2, trace s2 = trace s1) s1.
Proof. by intros [] s2 [= <-]. Qed.

Lemma eviction_lock_last fuel lock_status s0 s :
  policy_calls s0 s →
  wlp (prepare_clines_miss_eviction fuel lock_status)
    (λ _, lock_comes_last s0) s.
Proof.
  intros Hs. unfold prepare_clines_miss_eviction. wlp_line.
  eapply wlp_mono; [apply (keeps_policy_traverse s0 fuel); exact Hs|].
  cbn beta. intros _ s2 Hs2. wlp_line.
  eapply (wlp_mono _ (λ _ s3, policy_calls s0 s3)).
  { destruct (negb _); wlp_step; exact Hs2. }
  cbn beta. intros _ s3 Hs3. wlp_line.
  destruct (space_managment_evict_do _ _ _) as [[res c'] [map' info']].
  wlp_line.
  match goal with
  | |- wlp _ _ ?st => assert (policy_calls s0 st) as Hs4
  end.
  { eapply policy_calls_snoc; [exact Hs3|reflexivity|reflexivity]. }
  destruct (decide (res = LOOKUP_MISS)) as [Hmiss|Hok].
  { wlp_line. apply policy_calls_last. exact Hs4. }
  wlp_line.
  eapply wlp_mono; [apply (keeps_policy_map s0 fuel); exact Hs4|].
  cbn beta. intros _ s5 Hs5.
  unfold ocf_req_test_mapping_error. wlp_line.
  destruct (mapping_error (info (req s5))); cbn iota.
  - wlp_line. apply policy_calls_last. exact Hs5.
  - apply lock_tail_last; [|exact Hs5].
    intros rc s1. apply miss_tail_trace, end_exclusive_trace.
Qed.

Lemma prepare_clines_miss_lock_last fuel s0 s :
  policy_calls s0 s →
  wlp (ocf_prepare_clines_miss fuel) (λ _, lock_comes_last s0) s.
Proof.
  intros Hs. unfold ocf_prepare_clines_miss. wlp_line.
  destruct (ocf_part_is_enabled _ _); simpl negb; cbn iota.
  2:{ wlp_line. apply policy_calls_last. exact Hs. }
  destruct (ocf_part_has_space _ _); simpl negb; cbn iota.
  2:{ wlp_line. apply eviction_lock_last. exact Hs. }
  wlp_line.
  eapply wlp_mono; [apply (keeps_policy_map s0 fuel); exact Hs|].
  cbn beta. intros _ s4 Hs4.
  unfold ocf_req_test_mapping_error. wlp_line.
  destruct (mapping_error (info (req s4))); simpl negb; cbn iota.
  - wlp_line. apply eviction_lock_last. exact Hs4.
  - apply lock_tail_last; [|exact Hs4].
    intros rc s1. apply miss_tail_trace, unlock_wr_trace.
Qed.

(** X13: the lock request comes last.  Of the calls that leave the file, a run
    of [ocf_engine_prepare_clines] makes calls of the promotion policy and
    of eviction only, followed by at most one request for the cache-line
    lock of the request: nothing is asked of the policies once the lock
    was requested, and the lock is never requested twice. *)
Theorem prepare_clines_lock_comes_last fuel s rc s' :
  ocf_engine_prepare_clines fuel s = Some (rc, s') →
  ∃ calls lock,
    trace s' = trace s ++ calls ++ lock
    ∧ forallb is_policy_call calls = true
    ∧ (lock = [] ∨ ∃ ev, lock = [ev] ∧ is_lock_request ev = true).
Proof.
  revert rc s'.
  change (wlp (ocf_engine_prepare_clines fuel) (λ _, lock_comes_last s) s).
  unfold ocf_engine_prepare_clines, ocf_req_hash. wlp_line.
  eapply wlp_mono; [apply (keeps_policy_traverse s fuel)|].
  { apply (policy_calls_quiet s s); [done|apply policy_calls_refl]. }
  cbn beta. intros _ s1 Hs1. wlp_line.
  destruct (ocf_engine_is_mapped (req s1)); cbn iota.
  - apply lock_tail_last; [|exact Hs1].
    intros rc s2. wlp_line. done.
  - wlp_line.
    match goal with
    | |- wlp _ _ ?st => assert (policy_calls s st) as Hs2
    end.
    { eapply policy_calls_snoc; [exact Hs1|reflexivity|reflexivity]. }
    destruct (ocf_promotion_req_should_promote _ _).1; simpl negb; cbn iota.
    + apply prepare_clines_miss_lock_last. exact Hs2.
    + wlp_line. apply policy_calls_last. exact Hs2.
Qed.

End LockLast.

(** Two core lines mapped from the free list and write-locked. *)
Lemma prepare_clines_lock_comes_last_witness :
  let s := Sim.scenario (Sim.scenario_cache [0; 1; 2] 0 true)
             (Sim.scenario_req 100 2) in
  let s' := after (ocf_engine_prepare_clines 10) s in
  ocf_engine_prepare_clines 10 s = Some (0, s')
  ∧ trace s'
    = [ev_promotion_should_promote; ev_promotion_purge; ev_async_lock_wr 1]
  ∧ ∃ calls lock,
      trace s' = trace s ++ calls ++ lock
      ∧ forallb is_policy_call calls = true
      ∧ (lock = [] ∨ ∃ ev, lock = [ev] ∧ is_lock_request ev = true).
Proof.
  intros s s'.
  assert (ocf_engine_prepare_clines 10 s = Some (0, s')) as Hrun
    by (by vm_compute).
  split; [exact Hrun|]. split; [by vm_compute|].
  exact (prepare_clines_lock_comes_last 10 s 0 s' Hrun).
Defined.
